(** * Access-control core of mcp-builder's financial-data server

    A shallow embedding of the four classes that make up the access-control
    subsystem of [packages/financial-data-server]:

    - [RateLimiter] and [AuthMiddleware]
      (src/middleware/rate-limiter.ts, which holds both classes; the tests
      import the second one as middleware/auth-middleware)
    - [TokenStorage]   (src/auth/token-storage.ts)
    - [OAuthClient]    (src/auth/oauth-client.ts)

    with the schemas of types/auth.ts that they parse with, the
    configuration of config/environment.ts that they read, the serializer of
    [URLSearchParams] that the OAuth client builds its URL with, and the
    context sanitizer of the logger (src/utils/logger.ts) that every log
    call of the classes goes through.

    Conventions.
    - A JavaScript [number] that holds a timestamp, a counter or a limit is
      an integer of [Z]; the code only ever produces integers there.
    - A JavaScript string is a [string] of one-byte code units (Latin-1).
    - [Date.now()] is an explicit argument [now] (milliseconds) of every
      method that reads the clock, and the Redis server reads the same clock.
    - An [async] method is a computation of the monad [M]: a function of the
      [World] (Redis database, connection faults, entropy, the remote
      authorization server, the log) that either completes normally or
      throws.  [await] is sequencing.
    - Libraries the code calls but does not contain are either modelled from
      their documented behaviour (the Redis commands, base64 and hex of
      [Buffer], the zod checks) or taken as Section variables (AES, SHA-256,
      JSON text, jsonwebtoken, URL and e-mail syntax). *)

From Stdlib Require Import ZArith List String Ascii Bool Lia.
From Stdlib Require Import Strings.Byte.
From stdpp Require Import base option list gmap strings pretty.
Import ListNotations.

Set Warnings "-register-all".
Local Open Scope string_scope.
Local Open Scope list_scope.
Local Open Scope Z_scope.

(* ================================================================== *)
(** * Part I.  The program                                              *)
(* ================================================================== *)

(** ** JavaScript values, strings and exceptions *)

Module JS.

(** JSON-shaped values: what [JSON.parse] yields, what an HTTP response
    body holds, and what a log context carries.  An absent key of [JObj]
    stands for [undefined]. *)
Inductive json : Type :=
| JNull
| JBool (b : bool)
| JNum (n : Z)
| JStr (s : string)
| JArr (items : list json)
| JObj (fields : list (string * json)).

(** [obj.key]: the first binding of [key]. *)
Fixpoint get_field (key : string) (fields : list (string * json)) : option json :=
  match fields with
  | [] => None
  | (k, v) :: rest => if String.eqb k key then Some v else get_field key rest
  end.

(** The error classes the code throws, catches or tests with [instanceof].
    Every one of them is an [Error] and carries a [message]. *)
Inductive Exn : Type :=
| Error (message : string)
| ZodError (message : string)
| SyntaxError (message : string)
| RedisError (message : string)
| AxiosError (message : string) (response : option json)
| JsonWebTokenError (message : string)
| TokenExpiredError (message : string)
| NotBeforeError (message : string).

Definition message_of (e : Exn) : string :=
  match e with
  | Error m | ZodError m | SyntaxError m | RedisError m
  | AxiosError m _ | JsonWebTokenError m | TokenExpiredError m
  | NotBeforeError m => m
  end.

(** How a call ends: [return a] or [throw e]. *)
Inductive Completion (A : Type) : Type :=
| Normal (a : A)
| Throw (e : Exn).
Arguments Normal {A} a.
Arguments Throw {A} e.

(** *** Computations with state and exceptions

    [M St A]: a computation over a state [St] that returns an [A] or throws.
    The state survives a throw, as the effects of a JavaScript call made
    before an exception survive it. *)
Definition M (St A : Type) : Type := St -> Completion A * St.

Definition ret {St A} (a : A) : M St A := fun s => (Normal a, s).

Definition throw {St A} (e : Exn) : M St A := fun s => (Throw e, s).

Definition bind {St A B} (c : M St A) (k : A -> M St B) : M St B :=
  fun s =>
    match c s with
    | (Normal a, s') => k a s'
    | (Throw e, s') => (Throw e, s')
    end.

(** [try { body } catch (error) { handler(error) }] *)
Definition try_catch {St A} (body : M St A) (handler : Exn -> M St A) : M St A :=
  fun s =>
    match body s with
    | (Normal a, s') => (Normal a, s')
    | (Throw e, s') => handler e s'
    end.

(** Lift a pure completion (a library call that may throw). *)
Definition lift {St A} (c : Completion A) : M St A := fun s => (c, s).

Declare Scope js_scope.
Delimit Scope js_scope with js.
Notation "x <- c ;; k" := (bind c (fun x => k))
  (at level 100, c at next level, right associativity) : js_scope.
Notation "'do' c ;; k" := (bind c (fun _ => k))
  (at level 100, c at next level, right associativity) : js_scope.

(** *** String helpers ([String.prototype]) *)

(** [s.startsWith(p)] *)
Definition startsWith (s p : string) : bool := String.prefix p s.

(** [xs.includes(s)] on an array of strings *)
Definition includes (xs : list string) (s : string) : bool :=
  existsb (String.eqb s) xs.

(** [s.split(sep)] for a one-character separator: the pieces between the
    separators, empty pieces kept; always at least one piece. *)
Fixpoint split (sep : ascii) (s : string) : list string :=
  match s with
  | EmptyString => [EmptyString]
  | String c rest =>
      if Ascii.eqb c sep then EmptyString :: split sep rest
      else match split sep rest with
           | [] => [String c EmptyString]
           | piece :: pieces => String c piece :: pieces
           end
  end.

(** [s.replace(/c/g, d)] for single characters *)
Fixpoint replace_all (c d : ascii) (s : string) : string :=
  match s with
  | EmptyString => EmptyString
  | String x rest =>
      String (if Ascii.eqb x c then d else x) (replace_all c d rest)
  end.

(** [s.replace(/c/g, '')] *)
Fixpoint remove_all (c : ascii) (s : string) : string :=
  match s with
  | EmptyString => EmptyString
  | String x rest =>
      if Ascii.eqb x c then remove_all c rest
      else String x (remove_all c rest)
  end.

(** Every character of [s] satisfies [p]. *)
Fixpoint all_chars (p : ascii -> bool) (s : string) : bool :=
  match s with
  | EmptyString => true
  | String c rest => p c && all_chars p rest
  end.

(** [s.slice(n)] *)
Fixpoint drop_chars (n : nat) (s : string) : string :=
  match n, s with
  | O, _ => s
  | S _, EmptyString => EmptyString
  | S n', String _ rest => drop_chars n' rest
  end.

(** [!s] for a string: only the empty string is falsy. *)
Definition is_empty (s : string) : bool :=
  match s with EmptyString => true | _ => false end.

(** [s || null] for a string that may be [undefined] or [null] *)
Definition or_else_empty (s : option string) : option string :=
  match s with
  | Some x => if is_empty x then None else Some x
  | None => None
  end.

(** [Math.ceil(a / b)] for an integer [a] and a positive integer [b]. *)
Definition ceil_div (a b : Z) : Z := - ((- a) / b).

(** [Math.floor(a / b)] for a positive [b]. *)
Definition floor_div (a b : Z) : Z := a / b.

End JS.
Export JS.
Local Open Scope js_scope.

(** ** Redis

    The commands the server issues, on a database of keys with optional
    expiry deadlines (milliseconds).  A sorted set maps each member to its
    score; the members are strings.  Every command runs at the server's
    current time [t] and sees only keys whose deadline has not passed. *)

Module Redis.

Inductive value : Type :=
| VString (s : string)
| VZSet (members : gmap string Z).

Record entry : Type := { val : value; expireAt : option Z }.

Abbreviation db := (gmap string entry).

Definition live (t : Z) (e : entry) : bool :=
  match expireAt e with
  | None => true
  | Some deadline => t <? deadline
  end.

Definition lookup_live (t : Z) (key : string) (d : db) : option entry :=
  match d !! key with
  | Some e => if live t e then Some e else None
  | None => None
  end.

Definition WRONGTYPE : Exn :=
  RedisError "WRONGTYPE Operation against a key holding the wrong kind of value".

(** The sorted set at [key] ([None] when the key holds a string). *)
Definition zset_at (t : Z) (key : string) (d : db) : option (gmap string Z) :=
  match lookup_live t key d with
  | None => Some ∅
  | Some e => match val e with VZSet m => Some m | VString _ => None end
  end.

Definition GET (t : Z) (key : string) : M db (option string) := fun d =>
  match lookup_live t key d with
  | None => (Normal None, d)
  | Some e =>
      match val e with
      | VString s => (Normal (Some s), d)
      | VZSet _ => (Throw WRONGTYPE, d)
      end
  end.

Definition SETEX (t : Z) (key : string) (seconds : Z) (v : string) : M db unit :=
  fun d =>
    if seconds <=? 0
    then (Throw (RedisError "ERR invalid expire time in 'setex' command"), d)
    else (Normal tt,
          <[key := {| val := VString v; expireAt := Some (t + seconds * 1000) |}]> d).

Definition DEL (t : Z) (key : string) : M db Z := fun d =>
  match lookup_live t key d with
  | None => (Normal 0, delete key d)
  | Some _ => (Normal 1, delete key d)
  end.

(** [ZREMRANGEBYSCORE key -inf max]: drops the members whose score is at
    most [max]; a sorted set left empty is removed with its key. *)
Definition ZREMRANGEBYSCORE (t : Z) (key : string) (max : Z) : M db Z := fun d =>
  match lookup_live t key d with
  | None => (Normal 0, d)
  | Some e =>
      match val e with
      | VString _ => (Throw WRONGTYPE, d)
      | VZSet m =>
          let kept := filter (fun kv : string * Z => max < kv.2) m in
          (Normal (Z.of_nat (size m) - Z.of_nat (size kept)),
           if decide (kept = ∅) then delete key d
           else <[key := {| val := VZSet kept; expireAt := expireAt e |}]> d)
      end
  end.

Definition ZCARD (t : Z) (key : string) : M db Z := fun d =>
  match zset_at t key d with
  | Some m => (Normal (Z.of_nat (size m)), d)
  | None => (Throw WRONGTYPE, d)
  end.

(** [ZADD key score member]: a member already present keeps its place in
    the set and only has its score replaced; the reply counts the members
    that are new. *)
Definition ZADD (t : Z) (key : string) (score : Z) (member : string) : M db Z :=
  fun d =>
    match lookup_live t key d with
    | None =>
        (Normal 1, <[key := {| val := VZSet {[ member := score ]}; expireAt := None |}]> d)
    | Some e =>
        match val e with
        | VString _ => (Throw WRONGTYPE, d)
        | VZSet m =>
            (Normal (match m !! member with Some _ => 0 | None => 1 end),
             <[key := {| val := VZSet (<[member := score]> m); expireAt := expireAt e |}]> d)
        end
    end.

(** [EXPIRE key seconds]; a timeout that is not positive deletes the key. *)
Definition EXPIRE (t : Z) (key : string) (seconds : Z) : M db Z := fun d =>
  match lookup_live t key d with
  | None => (Normal 0, d)
  | Some e =>
      (Normal 1,
       if seconds <=? 0 then delete key d
       else <[key := {| val := val e; expireAt := Some (t + seconds * 1000) |}]> d)
  end.

(** The least score of a set ([None] when it is empty). *)
Definition min_score (m : gmap string Z) : option Z :=
  match (map_to_list m).*2 with
  | [] => None
  | x :: xs => Some (foldr Z.min x xs)
  end.

(** [ZRANGE key 0 0 WITHSCORES], reduced to the score of the element it
    returns: the first element in score order. *)
Definition ZRANGE_first_score (t : Z) (key : string) : M db (option Z) := fun d =>
  match zset_at t key d with
  | Some m => (Normal (min_score m), d)
  | None => (Throw WRONGTYPE, d)
  end.

End Redis.

(** ** The world the server runs in *)

Module Runtime.

Inductive Level : Type := LError | LWarn | LInfo | LDebug.

Record LogEvent : Type :=
  { level : Level; text : string; context : list (string * json) }.

(** An HTTP request of the OAuth client: a form-encoded POST with HTTP
    Basic credentials. *)
Record HttpRequest : Type :=
  { url : string;
    form : list (string * string);
    username : string;
    password : string }.

(** What axios makes of the exchange: a 2xx response, an error that carries
    the server's response, or an error without one (no connection, timeout). *)
Inductive HttpOutcome : Type :=
| Http2xx (data : json)
| HttpErrorResponse (data : json)
| HttpNoResponse.

Record World : Type :=
  { redis : gmap string Redis.entry;
    (** connection faults: one flag per coming Redis client call, [true]
        when that call fails before it reaches the server *)
    faults : list bool;
    (** the bytes [crypto.randomBytes] will return, and how many are used *)
    entropy : nat -> byte;
    drawn : nat;
    (** the authorization server, and the requests sent to it so far *)
    remote : HttpRequest -> HttpOutcome;
    sent : list HttpRequest;
    log : list LogEvent }.

Definition set_redis (d : gmap string Redis.entry) (w : World) : World :=
  {| redis := d; faults := faults w; entropy := entropy w; drawn := drawn w;
     remote := remote w; sent := sent w; log := log w |}.

Definition set_faults (fs : list bool) (w : World) : World :=
  {| redis := redis w; faults := fs; entropy := entropy w; drawn := drawn w;
     remote := remote w; sent := sent w; log := log w |}.

Definition set_drawn (n : nat) (w : World) : World :=
  {| redis := redis w; faults := faults w; entropy := entropy w; drawn := n;
     remote := remote w; sent := sent w; log := log w |}.

Definition set_sent (rs : list HttpRequest) (w : World) : World :=
  {| redis := redis w; faults := faults w; entropy := entropy w; drawn := drawn w;
     remote := remote w; sent := rs; log := log w |}.

Definition set_log (l : list LogEvent) (w : World) : World :=
  {| redis := redis w; faults := faults w; entropy := entropy w; drawn := drawn w;
     remote := remote w; sent := sent w; log := l |}.

(** A call of the Redis client: it throws when the connection fails, and
    otherwise runs the command on the server, which may reply with an error. *)
Definition redis_call {A} (cmd : M (gmap string Redis.entry) A) : M World A :=
  fun w =>
    match faults w with
    | true :: rest =>
        (Throw (RedisError "The client is closed"), set_faults rest w)
    | _ =>
        let '(r, d) := cmd (redis w) in
        (r, set_redis d (set_faults (tail (faults w)) w))
    end.

(** [logger.<level>(message, context)] *)
Definition logger (l : Level) (message : string) (ctx : list (string * json))
  : M World unit :=
  fun w => (Normal tt,
            set_log (log w ++ [{| level := l; text := message; context := ctx |}]) w).

(** [crypto.randomBytes(n)] *)
Definition randomBytes (n : nat) : M World (list byte) :=
  fun w => (Normal (map (entropy w) (seq (drawn w) n)), set_drawn (drawn w + n)%nat w).

(** [httpClient.post(url, form, { auth })] *)
Definition http_post (r : HttpRequest) : M World json :=
  fun w =>
    let w' := set_sent (sent w ++ [r]) w in
    match remote w r with
    | Http2xx data => (Normal data, w')
    | HttpErrorResponse data =>
        (Throw (AxiosError "Request failed" (Some data)), w')
    | HttpNoResponse => (Throw (AxiosError "Network Error" None), w')
    end.

End Runtime.
Export Runtime.

(** ** RateLimiter (src/middleware/rate-limiter.ts, first class) *)

Module RateLimiter.

Record RateLimitConfig : Type :=
  { windowMs : Z;
    maxRequests : Z;
    skipSuccessfulRequests : bool;
    skipFailedRequests : bool }.

(** [Partial<RateLimitConfig>] *)
Record PartialConfig : Type :=
  { windowMs' : option Z;
    maxRequests' : option Z;
    skipSuccessfulRequests' : option bool;
    skipFailedRequests' : option bool }.

Record RateLimitResult : Type :=
  { allowed : bool;
    limit : Z;
    current : Z;
    remaining : Z;
    resetTime : Z;
    retryAfter : option Z }.

(** The instance: [this.defaultConfig], read from [config.rateLimit]. *)
Record RateLimiter : Type := { defaultConfig : RateLimitConfig }.

(** [{ ...this.defaultConfig, ...customConfig }] *)
Definition spread (d : RateLimitConfig) (customConfig : option PartialConfig)
  : RateLimitConfig :=
  match customConfig with
  | None => d
  | Some c =>
      {| windowMs := default (windowMs d) (windowMs' c);
         maxRequests := default (maxRequests d) (maxRequests' c);
         skipSuccessfulRequests :=
           default (skipSuccessfulRequests d) (skipSuccessfulRequests' c);
         skipFailedRequests :=
           default (skipFailedRequests d) (skipFailedRequests' c) |}
  end.

Definition generateKey (userId clientId endpoint : string) : string :=
  "rate_limit:" +:+ clientId +:+ ":" +:+ userId +:+ ":" +:+ endpoint.

(** The Lua script of [checkRateLimit], which Redis runs as one command.
    [ARGV] carries the decimal texts of [window_start], [now],
    [max_requests] and [window_ms]; the set member added is the text of
    [now], and its score the number it denotes. *)
Definition script (t : Z) (key : string)
    (window_start now max_requests window_ms : Z)
  : M (gmap string Redis.entry) (list Z) :=
  (* Remove expired entries *)
  do Redis.ZREMRANGEBYSCORE t key window_start ;;
  (* Count current requests in window *)
  current <- Redis.ZCARD t key ;;
  if current <? max_requests then
    (* Add current request *)
    do Redis.ZADD t key now (pretty now) ;;
    do Redis.EXPIRE t key (ceil_div window_ms 1000) ;;
    ret [1; current + 1; max_requests - current - 1; now + window_ms]
  else
    (* Rate limit exceeded *)
    oldest <- Redis.ZRANGE_first_score t key ;;
    let reset_time :=
      match oldest with
      | Some score => score + window_ms
      | None => now + window_ms
      end in
    ret [0; current; 0; reset_time].

(** [x || d] for a number that may be [undefined]: [0] is falsy too. *)
Definition or_default (x : option Z) (d : Z) : Z :=
  match x with
  | Some v => if v =? 0 then d else v
  | None => d
  end.

(** A number in a condition: [undefined] and [0] are falsy. *)
Definition truthy (x : option Z) : bool :=
  match x with
  | Some v => negb (v =? 0)
  | None => false
  end.

Definition checkRateLimit (self : RateLimiter)
    (userId clientId endpoint : string) (customConfig : option PartialConfig)
    (now : Z) : M World RateLimitResult :=
  let rateLimitConfig := spread (defaultConfig self) customConfig in
  let key := generateKey userId clientId endpoint in
  let windowStart := now - windowMs rateLimitConfig in
  try_catch
    (result <- redis_call
                 (script now key windowStart now
                    (maxRequests rateLimitConfig) (windowMs rateLimitConfig)) ;;
     let allowed_ := result !! 0%nat in
     let current_ := result !! 1%nat in
     let remaining_ := result !! 2%nat in
     let resetTime_ := result !! 3%nat in
     let is_allowed := bool_decide (allowed_ = Some 1) in
     let rateLimitResult :=
       {| allowed := is_allowed;
          limit := maxRequests rateLimitConfig;
          current := or_default current_ 0;
          remaining := or_default remaining_ 0;
          resetTime := or_default resetTime_ (now + windowMs rateLimitConfig);
          (* Add retry after if rate limited *)
          retryAfter :=
            if negb is_allowed && truthy resetTime_
            then Some (ceil_div (default 0 resetTime_ - now) 1000)
            else None |} in
     do logger (if negb is_allowed then LWarn else LDebug)
          (if negb is_allowed then "Rate limit exceeded" else "Rate limit check")
          [("user_id", JStr userId); ("endpoint", JStr endpoint);
           ("blocked", JBool (negb is_allowed)); ("event_type", JStr "rate_limit");
           ("clientId", JStr clientId);
           ("limit", JNum (limit rateLimitResult));
           ("current", JNum (current rateLimitResult));
           ("remaining", JNum (remaining rateLimitResult));
           ("resetTime", JNum (resetTime rateLimitResult))] ;;
     ret rateLimitResult)
    (fun error =>
       do logger LError "Rate limit check failed"
            [("error", JStr (message_of error)); ("userId", JStr userId);
             ("clientId", JStr clientId); ("endpoint", JStr endpoint)] ;;
       (* Fail open - allow request if Redis is unavailable *)
       ret {| allowed := true;
              limit := maxRequests rateLimitConfig;
              current := 0;
              remaining := maxRequests rateLimitConfig;
              resetTime := now + windowMs rateLimitConfig;
              retryAfter := None |}).

(** Get current rate limit status without incrementing *)
Definition getRateLimitStatus (self : RateLimiter)
    (userId clientId endpoint : string) (now : Z) : M World RateLimitResult :=
  let key := generateKey userId clientId endpoint in
  let windowStart := now - windowMs (defaultConfig self) in
  try_catch
    (do redis_call (Redis.ZREMRANGEBYSCORE now key windowStart) ;;
     current_ <- redis_call (Redis.ZCARD now key) ;;
     let remaining_ := Z.max 0 (maxRequests (defaultConfig self) - current_) in
     ret {| allowed := 0 <? remaining_;
            limit := maxRequests (defaultConfig self);
            current := current_;
            remaining := remaining_;
            resetTime := now + windowMs (defaultConfig self);
            retryAfter := None |})
    (fun error =>
       do logger LError "Failed to get rate limit status"
            [("error", JStr (message_of error)); ("userId", JStr userId);
             ("clientId", JStr clientId); ("endpoint", JStr endpoint)] ;;
       (* Return default status if Redis is unavailable *)
       ret {| allowed := true;
              limit := maxRequests (defaultConfig self);
              current := 0;
              remaining := maxRequests (defaultConfig self);
              resetTime := now + windowMs (defaultConfig self);
              retryAfter := None |}).

(** Reset rate limit for a user/endpoint (admin function) *)
Definition resetRateLimit (self : RateLimiter)
    (userId clientId endpoint : string) (now : Z) : M World unit :=
  let key := generateKey userId clientId endpoint in
  try_catch
    (do redis_call (Redis.DEL now key) ;;
     logger LInfo "Rate limit reset"
       [("userId", JStr userId); ("clientId", JStr clientId);
        ("endpoint", JStr endpoint)])
    (fun error =>
       do logger LError "Failed to reset rate limit"
            [("error", JStr (message_of error)); ("userId", JStr userId);
             ("clientId", JStr clientId); ("endpoint", JStr endpoint)] ;;
       throw (Error "Failed to reset rate limit")).

End RateLimiter.

(** ** zod schemas: the checks of [z.string()], [z.number()], [.optional()] *)

Module Zod.

(** [z.string()] on a required key *)
Definition string_ (v : option json) : option string :=
  match v with Some (JStr s) => Some s | _ => None end.

(** [z.string().optional()]: the key may be missing, not [null] *)
Definition string_optional (v : option json) : option (option string) :=
  match v with
  | None => Some None
  | Some (JStr s) => Some (Some s)
  | Some _ => None
  end.

(** [z.number()] on a required key *)
Definition number_ (v : option json) : option Z :=
  match v with Some (JNum n) => Some n | _ => None end.

(** [z.number().optional()] *)
Definition number_optional (v : option json) : option (option Z) :=
  match v with
  | None => Some None
  | Some (JNum n) => Some (Some n)
  | Some _ => None
  end.

(** [z.array(z.string())] on a required key *)
Definition string_array (v : option json) : option (list string) :=
  match v with
  | Some (JArr items) =>
      mapM (fun item => match item with JStr s => Some s | _ => None end) items
  | _ => None
  end.

(** [schema.parse]: a value that fails the schema throws a [ZodError]. *)
Definition parse_or_throw {A} (r : option A) : Completion A :=
  match r with
  | Some a => Normal a
  | None => Throw (ZodError "Invalid input")
  end.

End Zod.

(** ** AuthMiddleware (src/middleware/rate-limiter.ts, second class) *)

Module AuthMiddleware.

(** [AuthContext] (types/auth.ts) *)
Record AuthContext : Type :=
  { userId : string;
    scopes : list string;
    tokenType : string;
    issuedAt : Z;
    expiresAt : Z;
    clientId : string;
    email : option string;
    name : option string }.

(** [JWTClaims] (types/auth.ts) *)
Record JWTClaims : Type :=
  { sub : string;
    iss : string;
    aud : string + list string;
    exp : Z;
    iat : Z;
    nbf : option Z;
    jti : option string;
    scope : option string;
    claim_email : option string;
    claim_name : option string;
    preferred_username : option string }.

Record AuthenticatedRequest : Type :=
  { auth : option AuthContext; headers : gmap string string }.

Record AuthenticationResult : Type :=
  { success : bool; context : option AuthContext; error : option string }.

(** The instance: [this.jwtSecret] and [this.issuer]. *)
Record AuthMiddleware : Type := { jwtSecret : string; issuer : string }.

(** *** The regular expression [/^Bearer\s+(.+)$/] *)

(** [\s]: the white space and line terminator characters (of one byte). *)
Definition is_space (c : ascii) : bool :=
  match N_of_ascii c with
  | 9%N | 10%N | 11%N | 12%N | 13%N | 32%N | 160%N => true
  | _ => false
  end.

(** [.]: any character but a line terminator. *)
Definition is_dot (c : ascii) : bool :=
  match N_of_ascii c with
  | 10%N | 13%N => false
  | _ => true
  end.

(** The literal head of the pattern: what follows [p] in [s]. *)
Fixpoint after_literal (p s : string) : option string :=
  match p, s with
  | EmptyString, _ => Some s
  | String a p', String b s' =>
      if Ascii.eqb a b then after_literal p' s' else None
  | String _ _, EmptyString => None
  end.

(** The longest run of [\s] at the head of [s]. *)
Fixpoint space_run (s : string) : nat :=
  match s with
  | String c rest => if is_space c then S (space_run rest) else O
  | EmptyString => O
  end.

(** [(.+)$] at the head of [s]: all of [s], not empty, no line terminator. *)
Definition dots_to_end (s : string) : bool :=
  negb (is_empty s) && all_chars is_dot s.

(** [\s+(.+)$] with [\s+] holding [k] characters: the quantifier is
    greedy, and backtracks one character at a time down to one. *)
Fixpoint spaces_then_dots (k : nat) (s : string) : option string :=
  match k with
  | O => None
  | S k' =>
      if dots_to_end (drop_chars k s) then Some (drop_chars k s)
      else spaces_then_dots k' s
  end.

(** [authHeader.match(/^Bearer\s+(.+)$/)?.[1]] *)
Definition match_bearer (authHeader : string) : option string :=
  match after_literal "Bearer" authHeader with
  | None => None
  | Some rest => spaces_then_dots (space_run rest) rest
  end.

(** [a || b] on strings that may be [undefined] *)
Definition or_else (a b : option string) : option string :=
  match a with
  | Some s => if is_empty s then b else Some s
  | None => b
  end.

(** Extract Bearer token from Authorization header *)
Definition extractBearerToken (headers : gmap string string) : option string :=
  let authHeader := or_else (headers !! "authorization") (headers !! "Authorization") in
  match or_else_empty authHeader with
  | None => None
  | Some authHeader => or_else_empty (match_bearer authHeader)
  end.

(** Authorize request against required scopes *)
Definition authorize (context : AuthContext) (requiredScopes : list string) : bool :=
  if (length requiredScopes =? 0)%nat then true
  (* Check if user has admin scope (grants all permissions) *)
  else if includes (scopes context) "admin:financial-data" then true
  (* Check if user has 'read:financial-data' scope (grants all read permissions) *)
  else if includes (scopes context) "read:financial-data"
          && forallb (fun scope => startsWith scope "read:") requiredScopes
  then true
  (* Check individual scopes *)
  else forallb (fun scope => includes (scopes context) scope) requiredScopes.

(** Check if token is expired *)
Definition isTokenExpired (context : AuthContext) (now : Z) : bool :=
  expiresAt context <=? floor_div now 1000.

(** Get remaining token lifetime in seconds *)
Definition getTokenLifetime (context : AuthContext) (now : Z) : Z :=
  Z.max 0 (expiresAt context - floor_div now 1000).

(** Check if token needs refresh (expires within threshold) *)
Definition shouldRefreshToken (context : AuthContext) (thresholdSeconds now : Z) : bool :=
  getTokenLifetime context now <=? thresholdSeconds.

Section WithJwtLibrary.

(** [jwt.verify(token, secret, { issuer, algorithms: ['HS256','RS256'] })]
    of the jsonwebtoken package: the payload, or a throw. *)
Variable jwt_verify : string -> string -> string -> Completion json.

(** [z.string().email()] *)
Variable is_email : string -> bool.

Definition email_optional (v : option json) : option (option string) :=
  match v with
  | None => Some None
  | Some (JStr s) => if is_email s then Some (Some s) else None
  | Some _ => None
  end.

(** [z.union([z.string(), z.array(z.string())])] *)
Definition audience (v : option json) : option (string + list string) :=
  match Zod.string_ v with
  | Some s => Some (inl s)
  | None => inr <$> Zod.string_array v
  end.

(** [JWTClaimsSchema.parse] *)
Definition JWTClaimsSchema_parse (payload : json) : Completion JWTClaims :=
  Zod.parse_or_throw
    match payload with
    | JObj o =>
        sub_ ← Zod.string_ (get_field "sub" o);
        iss_ ← Zod.string_ (get_field "iss" o);
        aud_ ← audience (get_field "aud" o);
        exp_ ← Zod.number_ (get_field "exp" o);
        iat_ ← Zod.number_ (get_field "iat" o);
        nbf_ ← Zod.number_optional (get_field "nbf" o);
        jti_ ← Zod.string_optional (get_field "jti" o);
        scope_ ← Zod.string_optional (get_field "scope" o);
        email_ ← email_optional (get_field "email" o);
        name_ ← Zod.string_optional (get_field "name" o);
        preferred_ ← Zod.string_optional (get_field "preferred_username" o);
        Some {| sub := sub_; iss := iss_; aud := aud_; exp := exp_; iat := iat_;
                nbf := nbf_; jti := jti_; scope := scope_; claim_email := email_;
                claim_name := name_; preferred_username := preferred_ |}
    | _ => None
    end.

(** [error instanceof jwt.JsonWebTokenError]: in jsonwebtoken the classes
    [TokenExpiredError] and [NotBeforeError] extend [JsonWebTokenError]. *)
Definition instanceof_JsonWebTokenError (e : Exn) : bool :=
  match e with
  | JsonWebTokenError _ | TokenExpiredError _ | NotBeforeError _ => true
  | _ => false
  end.

(** Validate JWT token and extract claims *)
Definition validateJWT (self : AuthMiddleware) (token : string) : Completion JWTClaims :=
  let attempt :=
    match jwt_verify token (jwtSecret self) (issuer self) with
    | Throw e => Throw e
    | Normal (JStr _) => Throw (Error "Invalid token payload")
    | Normal payload => JWTClaimsSchema_parse payload
    end in
  match attempt with
  | Normal claims => Normal claims
  | Throw e =>
      if instanceof_JsonWebTokenError e
      then Throw (Error ("Invalid token: " +:+ message_of e))
      else match e with
           | TokenExpiredError _ => Throw (Error "Token has expired")
           | NotBeforeError _ => Throw (Error "Token not yet valid")
           | ZodError m => Throw (Error ("Invalid token claims: " +:+ m))
           | _ => Throw e
           end
  end.

(** Build authentication context from JWT claims; [AuthContextSchema.parse]
    rejects an audience that is an array, because [clientId] must be a
    string. *)
Definition buildAuthContext (claims : JWTClaims) : Completion AuthContext :=
  let scopes_ :=
    match scope claims with
    | Some s =>
        if is_empty s then []
        else filter (fun piece => piece ≠ EmptyString) (split " " s)
    | None => []
    end in
  Zod.parse_or_throw
    match aud claims with
    | inl client =>
        Some {| userId := sub claims;
                scopes := scopes_;
                tokenType := "Bearer";
                issuedAt := iat claims;
                expiresAt := exp claims;
                clientId := client;
                email := claim_email claims;
                name := claim_name claims |}
    | inr _ => None
    end.

(** Authenticate request using Bearer token *)
Definition authenticate (self : AuthMiddleware) (request : AuthenticatedRequest)
  : M World AuthenticationResult :=
  try_catch
    (match or_else_empty (extractBearerToken (headers request)) with
     | None =>
         ret {| success := false; context := None;
                error := Some "Missing or invalid Authorization header" |}
     | Some token =>
         claims <- lift (validateJWT self token) ;;
         context_ <- lift (buildAuthContext claims) ;;
         do logger LDebug "Authentication successful"
              [("userId", JStr (userId context_));
               ("clientId", JStr (clientId context_));
               ("scopes", JArr (JStr <$> scopes context_))] ;;
         ret {| success := true; context := Some context_; error := None |}
     end)
    (fun e =>
       do logger LWarn "Authentication failed" [("error", JStr (message_of e))] ;;
       ret {| success := false; context := None; error := Some (message_of e) |}).

End WithJwtLibrary.

End AuthMiddleware.

(** ** Buffer encodings: hex and base64 *)

Module Buffer.

(** One hexadecimal digit, lower case. *)
Definition hex_digit (n : N) : ascii :=
  match n with
  | 0%N => "0" | 1%N => "1" | 2%N => "2" | 3%N => "3" | 4%N => "4"
  | 5%N => "5" | 6%N => "6" | 7%N => "7" | 8%N => "8" | 9%N => "9"
  | 10%N => "a" | 11%N => "b" | 12%N => "c" | 13%N => "d" | 14%N => "e"
  | _ => "f"
  end%char.

(** [buffer.toString('hex')] *)
Fixpoint toString_hex (buffer : list byte) : string :=
  match buffer with
  | [] => EmptyString
  | b :: rest =>
      String (hex_digit (Byte.to_N b / 16))
        (String (hex_digit (Byte.to_N b mod 16)) (toString_hex rest))
  end.

(** The base64 alphabet of RFC 4648, by 6-bit value. *)
Definition base64_alphabet : string :=
  "ABCDEFGHIJKLMNOPQRSTUVWXYZabcdefghijklmnopqrstuvwxyz0123456789+/".

Definition base64_char (sextet : N) : ascii :=
  match String.get (N.to_nat sextet) base64_alphabet with
  | Some c => c
  | None => "="%char
  end.

(** [buffer.toString('base64')]: three bytes make four characters; one or
    two bytes left over make two or three characters and ['='] padding. *)
Fixpoint toString_base64 (buffer : list byte) : string :=
  match buffer with
  | [] => EmptyString
  | [a] =>
      let a := Byte.to_N a in
      String (base64_char (a / 4))
        (String (base64_char (a mod 4 * 16)) "==")
  | [a; b] =>
      let a := Byte.to_N a in
      let b := Byte.to_N b in
      String (base64_char (a / 4))
        (String (base64_char (a mod 4 * 16 + b / 16))
           (String (base64_char (b mod 16 * 4)) "="))
  | a :: b :: c :: rest =>
      let a := Byte.to_N a in
      let b := Byte.to_N b in
      let c := Byte.to_N c in
      String (base64_char (a / 4))
        (String (base64_char (a mod 4 * 16 + b / 16))
           (String (base64_char (b mod 16 * 4 + c / 64))
              (String (base64_char (c mod 64)) (toString_base64 rest))))
  end%N.

End Buffer.

(** ** OAuthClient (src/auth/oauth-client.ts) *)

Module OAuthClient.

(** [OAuthConfig] (types/auth.ts) *)
Record OAuthConfig : Type :=
  { clientId : string;
    clientSecret : string;
    issuerUrl : string;
    redirectUri : string;
    scopes : list string;
    tokenEndpoint : option string;
    authorizationEndpoint : option string;
    userinfoEndpoint : option string;
    jwksUri : option string }.

(** [AccessToken] (types/auth.ts): the token endpoint's response *)
Record AccessToken : Type :=
  { access_token : string;
    token_type : string;
    expires_in : Z;
    refresh_token : option string;
    scope : option string }.

Inductive ChallengeMethod : Type := S256 | plain.

(** [PKCE] (types/auth.ts) *)
Record PKCE : Type :=
  { code_verifier : string;
    code_challenge : string;
    code_challenge_method : ChallengeMethod;
    state : string }.

(** [OAuthError] (types/auth.ts) *)
Record OAuthError : Type :=
  { error : string;
    error_description : option string;
    error_uri : option string;
    error_state : option string }.

(** The instance: [this.config]. *)
Record OAuthClient : Type := { config : OAuthConfig }.

(** Base64 URL encode (RFC 4648) *)
Definition base64URLEncode (buffer : list byte) : string :=
  remove_all "=" (replace_all "/" "_" (replace_all "+" "-" (Buffer.toString_base64 buffer))).

(** The UTF-8 bytes of a string of one-byte code units, as [hash.update]
    takes them: a code unit below 128 is itself, any other takes two bytes. *)
Fixpoint utf8 (s : string) : list byte :=
  match s with
  | EmptyString => []
  | String c rest =>
      let n := N_of_ascii c in
      if (n <? 128)%N then byte_of_ascii c :: utf8 rest
      else default x00 (Byte.of_N (192 + n / 64))
           :: default x00 (Byte.of_N (128 + n mod 64)) :: utf8 rest
  end.

(** [PKCESchema.parse] *)
Definition PKCESchema_parse (pkce : PKCE) : Completion PKCE :=
  let len s := String.length s in
  if (43 <=? len (code_verifier pkce))%nat && (len (code_verifier pkce) <=? 128)%nat
     && (43 <=? len (code_challenge pkce))%nat && (len (code_challenge pkce) <=? 128)%nat
     && (1 <=? len (state pkce))%nat
  then Normal pkce
  else Throw (ZodError "Invalid input").

(** [AccessTokenSchema.parse] *)
Definition AccessTokenSchema_parse (data : json) : Completion AccessToken :=
  Zod.parse_or_throw
    match data with
    | JObj o =>
        access_token_ ← Zod.string_ (get_field "access_token" o);
        token_type_ ← Zod.string_optional (get_field "token_type" o);
        expires_in_ ← Zod.number_ (get_field "expires_in" o);
        refresh_token_ ← Zod.string_optional (get_field "refresh_token" o);
        scope_ ← Zod.string_optional (get_field "scope" o);
        if 0 <? expires_in_ then
          Some {| access_token := access_token_;
                  token_type := default "Bearer" token_type_;
                  expires_in := expires_in_;
                  refresh_token := refresh_token_;
                  scope := scope_ |}
        else None
    | _ => None
    end.

Definition oauth_error_codes : list string :=
  ["invalid_request"; "invalid_client"; "invalid_grant"; "unauthorized_client";
   "unsupported_grant_type"; "invalid_scope"; "access_denied";
   "unsupported_response_type"; "server_error"; "temporarily_unavailable"].

Section WithLibraries.

(** [crypto.createHash('sha256').update(bytes).digest()] *)
Variable sha256 : list byte -> list byte.

(** [z.string().url()] *)
Variable is_url : string -> bool.

(** Generate PKCE code verifier and challenge *)
Definition generatePKCE (self : OAuthClient) : M World PKCE :=
  (* Generate code verifier (43-128 characters) *)
  verifierBytes <- randomBytes 32 ;;
  let codeVerifier := base64URLEncode verifierBytes in
  (* Generate code challenge using S256 method *)
  let codeChallenge := base64URLEncode (sha256 (utf8 codeVerifier)) in
  (* Generate state parameter *)
  stateBytes <- randomBytes 16 ;;
  let state_ := base64URLEncode stateBytes in
  let pkce :=
    {| code_verifier := codeVerifier;
       code_challenge := codeChallenge;
       code_challenge_method := S256;
       state := state_ |} in
  lift (PKCESchema_parse pkce).

(** [OAuthErrorSchema.parse] *)
Definition OAuthErrorSchema_parse (errorData : json) : option OAuthError :=
  match errorData with
  | JObj o =>
      error_ ← Zod.string_ (get_field "error" o);
      description_ ← Zod.string_optional (get_field "error_description" o);
      uri_ ← Zod.string_optional (get_field "error_uri" o);
      state_ ← Zod.string_optional (get_field "state" o);
      if includes oauth_error_codes error_
         && match uri_ with Some u => is_url u | None => true end
      then Some {| error := error_; error_description := description_;
                   error_uri := uri_; error_state := state_ |}
      else None
  | _ => None
  end.

(** Parse OAuth error response *)
Definition parseOAuthError (errorData : json) : OAuthError :=
  match OAuthErrorSchema_parse errorData with
  | Some e => e
  | None =>
      {| error := "server_error";
         error_description := Some "Unknown OAuth error occurred";
         error_uri := None;
         error_state := None |}
  end.

(** [TokenRequestSchema.parse] of the authorization-code request: the
    fields are strings already; [redirect_uri] must be a URL.  The result
    is the form that [URLSearchParams] sends. *)
Definition TokenRequestSchema_parse_code_grant
    (code redirect_uri client_id code_verifier_ : string)
  : Completion (list (string * string)) :=
  if is_url redirect_uri
  then Normal [("grant_type", "authorization_code"); ("code", code);
               ("redirect_uri", redirect_uri); ("client_id", client_id);
               ("code_verifier", code_verifier_)]
  else Throw (ZodError "Invalid url").

(** Exchange authorization code for access token *)
Definition exchangeCodeForToken (self : OAuthClient)
    (code codeVerifier state_ : string) : M World AccessToken :=
  let tokenEndpoint_ :=
    default (issuerUrl (config self) +:+ "/oauth2/token")
            (or_else_empty (tokenEndpoint (config self))) in
  validatedRequest <-
    lift (TokenRequestSchema_parse_code_grant code (redirectUri (config self))
            (clientId (config self)) codeVerifier) ;;
  try_catch
    (do logger LDebug "Exchanging authorization code for token"
          [("endpoint", JStr tokenEndpoint_);
           ("clientId", JStr (clientId (config self)));
           ("state", JStr state_)] ;;
     response_data <-
       http_post {| url := tokenEndpoint_;
                    form := validatedRequest;
                    username := clientId (config self);
                    password := clientSecret (config self) |} ;;
     tokenData <- lift (AccessTokenSchema_parse response_data) ;;
     do logger LInfo "Successfully exchanged code for token"
          [("tokenType", JStr (token_type tokenData));
           ("expiresIn", JNum (expires_in tokenData));
           ("hasRefreshToken",
            JBool (bool_decide (or_else_empty (refresh_token tokenData) ≠ None)))] ;;
     ret tokenData)
    (fun e =>
       match e with
       | AxiosError _ (Some data) =>
           let oauthError := parseOAuthError data in
           do logger LError "OAuth token exchange failed"
                [("error", JStr (error oauthError))] ;;
           throw (Error ("OAuth error: " +:+ error oauthError +:+ " - "
                         +:+ default "Unknown error"
                               (or_else_empty (error_description oauthError))))
       | _ =>
           do logger LError "Token exchange request failed"
                [("error", JStr (message_of e))] ;;
           throw (Error "Failed to exchange authorization code for token")
       end).

End WithLibraries.

End OAuthClient.

(** ** TokenStorage (src/auth/token-storage.ts) *)

Module TokenStorage.

(** [StoredToken] *)
Record StoredToken : Type :=
  { accessToken : string;
    refreshToken : option string;
    tokenType : string;
    expiresAt : Z;
    scopes : list string;
    clientId : string;
    userId : string }.

(** A key whose value is [undefined] is a key that is not there. *)
Definition optional_field (key : string) (v : option string) : list (string * json) :=
  match v with
  | Some s => [(key, JStr s)]
  | None => []
  end.

(** The [StoredToken] object as a JavaScript value. *)
Definition StoredToken_value (t : StoredToken) : json :=
  JObj ([("accessToken", JStr (accessToken t))]
        ++ optional_field "refreshToken" (refreshToken t)
        ++ [("tokenType", JStr (tokenType t));
            ("expiresAt", JNum (expiresAt t));
            ("scopes", JArr (JStr <$> scopes t));
            ("clientId", JStr (clientId t));
            ("userId", JStr (userId t))]).

(** [StoredTokenSchema.parse] *)
Definition StoredTokenSchema_parse (tokenData : json) : Completion StoredToken :=
  Zod.parse_or_throw
    match tokenData with
    | JObj o =>
        accessToken_ ← Zod.string_ (get_field "accessToken" o);
        refreshToken_ ← Zod.string_optional (get_field "refreshToken" o);
        tokenType_ ← Zod.string_ (get_field "tokenType" o);
        expiresAt_ ← Zod.number_ (get_field "expiresAt" o);
        scopes_ ← Zod.string_array (get_field "scopes" o);
        clientId_ ← Zod.string_ (get_field "clientId" o);
        userId_ ← Zod.string_ (get_field "userId" o);
        Some {| accessToken := accessToken_; refreshToken := refreshToken_;
                tokenType := tokenType_; expiresAt := expiresAt_;
                scopes := scopes_; clientId := clientId_; userId := userId_ |}
    | _ => None
    end.

(** The instance: [this.encryptionKey]. *)
Record TokenStorage : Type := { encryptionKey : string }.

(** Generate Redis key for access token *)
Definition generateAccessTokenKey (userId clientId : string) : string :=
  "auth:access_token:" +:+ clientId +:+ ":" +:+ userId.

(** Generate Redis key for refresh token *)
Definition generateRefreshTokenKey (userId clientId : string) : string :=
  "auth:refresh_token:" +:+ clientId +:+ ":" +:+ userId.

(** [await Promise.all([a, b])]: both calls are made; the first rejection,
    if any, is thrown. *)
Definition promise_all2 {St A B} (a : M St A) (b : M St B) : M St (A * B) :=
  fun s =>
    let '(ra, s1) := a s in
    let '(rb, s2) := b s1 in
    match ra, rb with
    | Normal x, Normal y => (Normal (x, y), s2)
    | Throw e, _ => (Throw e, s2)
    | _, Throw e => (Throw e, s2)
    end.

Section WithCryptoAndJSON.

(** [crypto.createCipher('aes-256-cbc', password)], then [update(text,
    'utf8', 'hex') + final('hex')]: the hex text of the ciphertext.  The
    cipher object is made from the password alone. *)
Variable createCipher : string -> string -> string.

(** [crypto.createDecipher('aes-256-cbc', password)], then [update(data,
    'hex', 'utf8') + final('utf8')]; [final] throws on bad padding. *)
Variable createDecipher : string -> string -> Completion string.

Variable JSON_stringify : json -> string.
Variable JSON_parse : string -> Completion json.

(** Encrypt sensitive data *)
Definition encrypt (self : TokenStorage) (text : string) : M World string :=
  iv <- randomBytes 16 ;;
  let cipher := createCipher (encryptionKey self) in
  let encrypted := cipher text in
  (* Combine IV and encrypted data *)
  ret (Buffer.toString_hex iv +:+ ":" +:+ encrypted).

(** Decrypt sensitive data *)
Definition decrypt (self : TokenStorage) (encryptedData : string) : Completion string :=
  match split ":" encryptedData with
  | [iv; encrypted] =>
      if is_empty iv || is_empty encrypted
      then Throw (Error "Invalid encrypted data format")
      else
        let decipher := createDecipher (encryptionKey self) in
        decipher encrypted
  | _ => Throw (Error "Invalid encrypted data format")
  end.

(** Store encrypted access token and refresh token *)
Definition storeToken (self : TokenStorage) (userId_ clientId_ : string)
    (accessToken_ : OAuthClient.AccessToken) (authContext : AuthMiddleware.AuthContext)
    (now : Z) : M World unit :=
  try_catch
    (let storedToken :=
       {| accessToken := OAuthClient.access_token accessToken_;
          refreshToken := OAuthClient.refresh_token accessToken_;
          tokenType := OAuthClient.token_type accessToken_;
          expiresAt := AuthMiddleware.expiresAt authContext;
          scopes := AuthMiddleware.scopes authContext;
          clientId := clientId_;
          userId := userId_ |} in
     (* Validate token data *)
     validatedToken <- lift (StoredTokenSchema_parse (StoredToken_value storedToken)) ;;
     (* Encrypt the token data *)
     encryptedData <- encrypt self (JSON_stringify (StoredToken_value validatedToken)) ;;
     (* Generate Redis keys *)
     let accessTokenKey := generateAccessTokenKey userId_ clientId_ in
     let refreshTokenKey := generateRefreshTokenKey userId_ clientId_ in
     (* Calculate TTL (with buffer for refresh) *)
     let ttlSeconds :=
       Z.max 60 (AuthMiddleware.expiresAt authContext - floor_div now 1000) in
     (* Store encrypted token data *)
     do redis_call (Redis.SETEX now accessTokenKey ttlSeconds encryptedData) ;;
     (* Store refresh token mapping if available *)
     do match or_else_empty (OAuthClient.refresh_token accessToken_) with
        | Some _ =>
            let refreshTTL := ttlSeconds + 24 * 60 * 60 in
            redis_call (Redis.SETEX now refreshTokenKey refreshTTL encryptedData)
        | None => ret tt
        end ;;
     logger LDebug "Token stored successfully"
       [("userId", JStr userId_); ("clientId", JStr clientId_);
        ("expiresAt", JNum (AuthMiddleware.expiresAt authContext));
        ("hasRefreshToken",
         JBool (bool_decide (or_else_empty (OAuthClient.refresh_token accessToken_) ≠ None)));
        ("ttlSeconds", JNum ttlSeconds)])
    (fun error =>
       do logger LError "Failed to store token"
            [("error", JStr (message_of error)); ("userId", JStr userId_);
             ("clientId", JStr clientId_)] ;;
       throw (Error "Failed to store authentication token")).

(** Delete stored token (logout/revoke) *)
Definition deleteToken (self : TokenStorage) (userId_ clientId_ : string)
    (now : Z) : M World unit :=
  try_catch
    (let accessTokenKey := generateAccessTokenKey userId_ clientId_ in
     let refreshTokenKey := generateRefreshTokenKey userId_ clientId_ in
     (* Delete both access and refresh token data *)
     do promise_all2
          (redis_call (Redis.DEL now accessTokenKey))
          (redis_call (Redis.DEL now refreshTokenKey)) ;;
     logger LInfo "Token deleted successfully"
       [("userId", JStr userId_); ("clientId", JStr clientId_)])
    (fun error =>
       do logger LError "Failed to delete token"
            [("error", JStr (message_of error)); ("userId", JStr userId_);
             ("clientId", JStr clientId_)] ;;
       throw (Error "Failed to delete authentication token")).

(** Retrieve and decrypt stored token *)
Definition getToken (self : TokenStorage) (userId_ clientId_ : string)
    (now : Z) : M World (option StoredToken) :=
  try_catch
    (let accessTokenKey := generateAccessTokenKey userId_ clientId_ in
     encryptedData <- redis_call (Redis.GET now accessTokenKey) ;;
     match or_else_empty encryptedData with
     | None =>
         do logger LDebug "Token not found"
              [("userId", JStr userId_); ("clientId", JStr clientId_)] ;;
         ret None
     | Some encryptedData =>
         (* Decrypt and parse token data *)
         decryptedData <- lift (decrypt self encryptedData) ;;
         tokenData <- lift (JSON_parse decryptedData) ;;
         storedToken <- lift (StoredTokenSchema_parse tokenData) ;;
         (* Check if token is expired *)
         let now_ := floor_div now 1000 in
         if expiresAt storedToken <=? now_ then
           do logger LDebug "Stored token is expired"
                [("userId", JStr userId_); ("clientId", JStr clientId_);
                 ("expiresAt", JNum (expiresAt storedToken))] ;;
           do deleteToken self userId_ clientId_ now ;;
           ret None
         else
           do logger LDebug "Token retrieved successfully"
                [("userId", JStr userId_); ("clientId", JStr clientId_);
                 ("expiresAt", JNum (expiresAt storedToken));
                 ("hasRefreshToken",
                  JBool (bool_decide (or_else_empty (refreshToken storedToken) ≠ None)))] ;;
           ret (Some storedToken)
     end)
    (fun error =>
       do logger LError "Failed to retrieve token"
            [("error", JStr (message_of error)); ("userId", JStr userId_);
             ("clientId", JStr clientId_)] ;;
       ret None).

(** Get refresh token for user *)
Definition getRefreshToken (self : TokenStorage) (userId_ clientId_ : string)
    (now : Z) : M World (option string) :=
  storedToken <- getToken self userId_ clientId_ now ;;
  ret (or_else_empty (storedToken ≫= refreshToken)).

(** Check if token exists and is valid *)
Definition isTokenValid (self : TokenStorage) (userId_ clientId_ : string)
    (now : Z) : M World bool :=
  token <- getToken self userId_ clientId_ now ;;
  match token with
  | None => ret false
  | Some token => ret (floor_div now 1000 <? expiresAt token)
  end.

End WithCryptoAndJSON.

End TokenStorage.

(** ** Further methods of the four classes, and what they call *)

(** ** The configuration the classes read (config/environment.ts) *)

Module Environment.

(** [rateLimitConfig], which the classes read as [config.rateLimit]. *)
Record rateLimitConfig : Type :=
  { windowMs : Z; maxRequests : Z; perUser : Z }.

End Environment.

(** ** RateLimiter: the constructor and the checks built on [checkRateLimit] *)

Module RateLimiterPolicies.
Import RateLimiter.

(** [new RateLimiter(redis, logger)] *)
Definition new_RateLimiter (config : Environment.rateLimitConfig) : RateLimiter :=
  {| defaultConfig :=
       {| windowMs := Environment.windowMs config;
          maxRequests := Environment.maxRequests config;
          skipSuccessfulRequests := false;
          skipFailedRequests := false |} |}.

(** [{ maxRequests: n }] as a [Partial<RateLimitConfig>] *)
Definition only_maxRequests (n : Z) : PartialConfig :=
  {| windowMs' := None; maxRequests' := Some n;
     skipSuccessfulRequests' := None; skipFailedRequests' := None |}.

(** What the middleware returns. *)
Record MiddlewareResult : Type :=
  { mw_allowed : bool; rateLimitResult : RateLimitResult }.

(** Middleware factory for rate limiting *)
Definition createMiddleware (self : RateLimiter) (customConfig : option PartialConfig)
    (authContext : AuthMiddleware.AuthContext) (endpoint : string) (now : Z)
  : M World MiddlewareResult :=
  result <- checkRateLimit self (AuthMiddleware.userId authContext)
              (AuthMiddleware.clientId authContext) endpoint customConfig now ;;
  ret {| mw_allowed := allowed result; rateLimitResult := result |}.

Inductive UserTier : Type := free | premium | enterprise.

(** Different limits based on user tier *)
Definition tierLimits (config : Environment.rateLimitConfig) (userTier : UserTier) : Z :=
  match userTier with
  | free => Environment.perUser config
  | premium => Environment.perUser config * 5
  | enterprise => Environment.perUser config * 20
  end.

(** Per-user rate limiting with custom limits based on user tier; the tier
    is [free] when the argument is left out. *)
Definition checkUserRateLimit (config : Environment.rateLimitConfig) (self : RateLimiter)
    (authContext : AuthMiddleware.AuthContext) (endpoint : string)
    (userTier : option UserTier) (now : Z) : M World RateLimitResult :=
  let customConfig := only_maxRequests (tierLimits config (default free userTier)) in
  checkRateLimit self (AuthMiddleware.userId authContext)
    (AuthMiddleware.clientId authContext) endpoint (Some customConfig) now.

(** Global rate limiting (across all users) *)
Definition checkGlobalRateLimit (config : Environment.rateLimitConfig) (self : RateLimiter)
    (endpoint : string) (now : Z) : M World RateLimitResult :=
  let globalKey := "global:" +:+ endpoint in
  checkRateLimit self "global" "system" globalKey
    (Some (only_maxRequests (Environment.maxRequests config * 10))) now.

End RateLimiterPolicies.

(** ** Arrays ([Array.prototype]) *)

Module ArrayPrototype.

(** [xs.join(sep)] on an array of strings *)
Fixpoint join (sep : string) (xs : list string) : string :=
  match xs with
  | [] => EmptyString
  | [x] => x
  | x :: rest => x +:+ sep +:+ join sep rest
  end.

End ArrayPrototype.

(** ** AuthMiddleware: the middleware factory *)

Module AuthMiddlewareFactory.

(** [AuthMiddlewareOptions] (types/auth.ts); every key may be left out. *)
Record AuthMiddlewareOptions : Type :=
  { required : option bool;
    scopes : option (list string);
    skipPaths : option (list string);
    validateScopes : option bool }.

(** What the middleware returns. *)
Record MiddlewareResult : Type :=
  { authorized : bool;
    context : option AuthMiddleware.AuthContext;
    error : option string }.

(** [this.authorize(context, requiredScopes)] as a call: the verdict of
    [authorize], and the debug event that the check of the individual
    scopes writes. *)
Definition authorize_call (context : AuthMiddleware.AuthContext)
    (requiredScopes : list string) : M World bool :=
  if (length requiredScopes =? 0)%nat then ret true
  else if includes (AuthMiddleware.scopes context) "admin:financial-data" then ret true
  else if includes (AuthMiddleware.scopes context) "read:financial-data"
          && forallb (fun scope => startsWith scope "read:") requiredScopes
  then ret true
  else
    let hasRequiredScopes :=
      forallb (fun scope => includes (AuthMiddleware.scopes context) scope)
        requiredScopes in
    do logger LDebug "Authorization check"
         [("userId", JStr (AuthMiddleware.userId context));
          ("requiredScopes", JArr (JStr <$> requiredScopes));
          ("userScopes", JArr (JStr <$> AuthMiddleware.scopes context));
          ("authorized", JBool hasRequiredScopes)] ;;
    ret hasRequiredScopes.

Section WithJwtLibrary.

Variable jwt_verify : string -> string -> string -> Completion json.
Variable is_email : string -> bool.

(** Middleware factory for MCP request authentication *)
Definition createMiddleware (self : AuthMiddleware.AuthMiddleware)
    (options : AuthMiddlewareOptions) (request : AuthMiddleware.AuthenticatedRequest)
    (now : Z) : M World MiddlewareResult :=
  let required_ := default true (required options) in
  let scopes_ := default [] (scopes options) in
  let validateScopes_ := default true (validateScopes options) in
  (* Skip authentication for non-required endpoints *)
  if negb required_ then
    ret {| authorized := true; context := None; error := None |}
  else
    (* Authenticate the request *)
    authResult <- AuthMiddleware.authenticate jwt_verify is_email self request ;;
    match (if AuthMiddleware.success authResult
           then AuthMiddleware.context authResult else None) with
    | None =>
        ret {| authorized := false; context := None;
               error := Some (default "Authentication required"
                                (or_else_empty (AuthMiddleware.error authResult))) |}
    | Some context_ =>
        (* Check token expiration *)
        if AuthMiddleware.isTokenExpired context_ now then
          ret {| authorized := false; context := None;
                 error := Some "Token has expired" |}
        else
          (* Validate scopes if required *)
          authorized_ <-
            (if validateScopes_ && (0 <? length scopes_)%nat
             then authorize_call context_ scopes_
             else ret true) ;;
          if negb authorized_ then
            ret {| authorized := false; context := None;
                   error := Some ("Insufficient permissions. Required scopes: "
                                  +:+ ArrayPrototype.join ", " scopes_) |}
          else
            ret {| authorized := true; context := Some context_; error := None |}
    end.

End WithJwtLibrary.

End AuthMiddlewareFactory.

(** ** TokenStorage: the methods built on [storeToken] and [getToken] *)

Module TokenStorageUpdates.
Import TokenStorage.

Section WithCryptoAndJSON.

Variable createCipher : string -> string -> string.
Variable createDecipher : string -> string -> Completion string.
Variable JSON_stringify : json -> string.
Variable JSON_parse : string -> Completion json.

(** Update stored token (e.g., after refresh) *)
Definition updateToken (self : TokenStorage) (userId_ clientId_ : string)
    (newAccessToken : OAuthClient.AccessToken)
    (newAuthContext : AuthMiddleware.AuthContext) (now : Z) : M World unit :=
  (* Store updated token *)
  do storeToken createCipher JSON_stringify self userId_ clientId_ newAccessToken
       newAuthContext now ;;
  logger LInfo "Token updated successfully"
    [("userId", JStr userId_); ("clientId", JStr clientId_);
     ("expiresAt", JNum (AuthMiddleware.expiresAt newAuthContext))].

(** Get token expiration time; [token?.expiresAt || null], and [0] is
    falsy. *)
Definition getTokenExpiration (self : TokenStorage) (userId_ clientId_ : string)
    (now : Z) : M World (option Z) :=
  token <- getToken createDecipher JSON_parse self userId_ clientId_ now ;;
  ret match token with
      | Some token => if expiresAt token =? 0 then None else Some (expiresAt token)
      | None => None
      end.

(** Clean up expired tokens (maintenance task) *)
Definition cleanupExpiredTokens (self : TokenStorage) : M World unit :=
  try_catch
    (logger LDebug "Token cleanup completed" [])
    (fun error => logger LError "Token cleanup failed" [("error", JStr (message_of error))]).

End WithCryptoAndJSON.

End TokenStorageUpdates.

(** ** URLSearchParams: the application/x-www-form-urlencoded serializer *)

Module URLSearchParams.

(** One hexadecimal digit, upper case. *)
Definition HEX_digit (n : N) : ascii :=
  match n with
  | 0%N => "0" | 1%N => "1" | 2%N => "2" | 3%N => "3" | 4%N => "4"
  | 5%N => "5" | 6%N => "6" | 7%N => "7" | 8%N => "8" | 9%N => "9"
  | 10%N => "A" | 11%N => "B" | 12%N => "C" | 13%N => "D" | 14%N => "E"
  | _ => "F"
  end%char.

(** The bytes that the serializer leaves as they are: ASCII letters and
    digits, [*], [-], [.] and [_]. *)
Definition form_safe (c : ascii) : bool :=
  let n := N_of_ascii c in
  ((65 <=? n) && (n <=? 90) || (97 <=? n) && (n <=? 122)
   || (48 <=? n) && (n <=? 57)
   || (n =? 42) || (n =? 45) || (n =? 46) || (n =? 95))%N.

(** One byte: a space becomes [+], a safe byte stays, any other becomes
    [%XX]. *)
Definition serialize_byte (b : byte) : string :=
  let c := ascii_of_byte b in
  if Ascii.eqb c " " then "+"
  else if form_safe c then String c EmptyString
  else String "%" (String (HEX_digit (Byte.to_N b / 16))
                     (String (HEX_digit (Byte.to_N b mod 16)) EmptyString)).

Fixpoint serialize_bytes (bytes : list byte) : string :=
  match bytes with
  | [] => EmptyString
  | b :: rest => serialize_byte b +:+ serialize_bytes rest
  end.

(** A name or a value: the serialization of its UTF-8 bytes. *)
Definition serialize (s : string) : string := serialize_bytes (OAuthClient.utf8 s).

(** [params.toString()] *)
Definition toString (params : list (string * string)) : string :=
  ArrayPrototype.join "&"
    (map (fun pair : string * string => serialize pair.1 +:+ "=" +:+ serialize pair.2)
       params).

End URLSearchParams.

(** ** OAuthClient: the authorization URL, refresh and revocation *)

Module OAuthClientRequests.
Import OAuthClient.

(** The [OAuthError] object as a JavaScript value. *)
Definition OAuthError_value (e : OAuthError) : json :=
  JObj ([("error", JStr (error e))]
        ++ TokenStorage.optional_field "error_description" (error_description e)
        ++ TokenStorage.optional_field "error_uri" (error_uri e)
        ++ TokenStorage.optional_field "state" (error_state e)).

Definition ChallengeMethod_text (m : ChallengeMethod) : string :=
  match m with S256 => "S256" | plain => "plain" end.



Section WithLibraries.

(** [z.string().url()] *)
Variable is_url : string -> bool.

(** [AuthorizationRequestSchema.parse]: the fields are strings already;
    [redirect_uri] must be a URL.  The result holds the keys in the order
    of the schema. *)
Definition AuthorizationRequestSchema_parse
    (client_id redirect_uri scope_ state_ code_challenge_ : string)
    (code_challenge_method_ : ChallengeMethod)
  : Completion (list (string * string)) :=
  if is_url redirect_uri
  then Normal [("response_type", "code"); ("client_id", client_id);
               ("redirect_uri", redirect_uri); ("scope", scope_);
               ("state", state_); ("code_challenge", code_challenge_);
               ("code_challenge_method", ChallengeMethod_text code_challenge_method_)]
  else Throw (ZodError "Invalid url").

(** Generate authorization URL with PKCE *)
Definition generateAuthorizationUrl (self : OAuthClient) (pkce : PKCE) : M World string :=
  validatedRequest <-
    lift (AuthorizationRequestSchema_parse (clientId (config self))
            (redirectUri (config self))
            (ArrayPrototype.join " " (scopes (config self)))
            (state pkce) (code_challenge pkce) (code_challenge_method pkce)) ;;
  let authEndpoint :=
    default (issuerUrl (config self) +:+ "/oauth2/authorize")
            (or_else_empty (authorizationEndpoint (config self))) in
  let params := URLSearchParams.toString validatedRequest in
  let url_ := authEndpoint +:+ "?" +:+ params in
  do logger LDebug "Generated authorization URL"
       [("endpoint", JStr authEndpoint);
        ("clientId", JStr (clientId (config self)));
        ("state", JStr (state pkce))] ;;
  ret url_.

(** [TokenRequestSchema.parse] of the refresh request: every field is a
    string already.  The result holds the keys in the order of the
    schema. *)
Definition TokenRequestSchema_parse_refresh_grant (refresh_token_ client_id : string)
  : Completion (list (string * string)) :=
  Normal [("grant_type", "refresh_token"); ("client_id", client_id);
          ("refresh_token", refresh_token_)].

(** Refresh access token using refresh token *)
Definition refreshToken (self : OAuthClient) (refreshToken_ : string)
  : M World AccessToken :=
  let tokenEndpoint_ :=
    default (issuerUrl (config self) +:+ "/oauth2/token")
            (or_else_empty (tokenEndpoint (config self))) in
  validatedRequest <-
    lift (TokenRequestSchema_parse_refresh_grant refreshToken_ (clientId (config self))) ;;
  try_catch
    (do logger LDebug "Refreshing access token"
          [("endpoint", JStr tokenEndpoint_);
           ("clientId", JStr (clientId (config self)))] ;;
     response_data <-
       http_post {| url := tokenEndpoint_;
                    form := validatedRequest;
                    username := clientId (config self);
                    password := clientSecret (config self) |} ;;
     tokenData <- lift (AccessTokenSchema_parse response_data) ;;
     do logger LInfo "Successfully refreshed token"
          [("tokenType", JStr (token_type tokenData));
           ("expiresIn", JNum (expires_in tokenData));
           ("hasRefreshToken",
            JBool (bool_decide (or_else_empty (refresh_token tokenData) ≠ None)))] ;;
     ret tokenData)
    (fun e =>
       match e with
       | AxiosError _ (Some data) =>
           let oauthError := parseOAuthError is_url data in
           do logger LError "OAuth token refresh failed"
                [("error", OAuthError_value oauthError)] ;;
           throw (Error ("OAuth error: " +:+ error oauthError +:+ " - "
                         +:+ default "Unknown error"
                               (or_else_empty (error_description oauthError))))
       | _ =>
           do logger LError "Token refresh request failed"
                [("error", JStr (message_of e))] ;;
           throw (Error "Failed to refresh access token")
       end).


End WithLibraries.

End OAuthClientRequests.

(** ** Logger (src/utils/logger.ts): what becomes of a log context *)

Module Logger.

(** [c.toLowerCase()] for a one-byte code unit: the letters [A-Z] and the
    Latin-1 capitals [U+00C0-U+00DE] but the multiplication sign. *)
Definition toLowerCase_char (c : ascii) : ascii :=
  let n := N_of_ascii c in
  if ((65 <=? n) && (n <=? 90)
      || (192 <=? n) && (n <=? 222) && negb (n =? 215))%N
  then ascii_of_N (n + 32) else c.

(** [s.toLowerCase()] *)
Fixpoint toLowerCase (s : string) : string :=
  match s with
  | EmptyString => EmptyString
  | String c rest => String (toLowerCase_char c) (toLowerCase rest)
  end.




End Logger.

(* ================================================================== *)
(** * Part II.  Properties                                              *)
(* ================================================================== *)

(** ** Sample worlds *)

Module Samples.

(** A reachable store that holds nothing; the entropy is the byte count
    itself, and the authorization server does not answer. *)
Definition empty_store : World :=
  {| redis := ∅; faults := [];
     entropy := fun i => default x00 (Byte.of_N (N.of_nat i mod 256));
     drawn := 0;
     remote := fun _ => HttpNoResponse; sent := []; log := [] |}.

(** The same, with the connection to the store down for the next call. *)
Definition unreachable_store : World := set_faults [true] empty_store.

End Samples.
Export Samples.

(** ** The Redis client *)

Module RuntimeFacts.

(** With no connection fault ahead, a client call is the command. *)
Lemma redis_call_reachable {A} (cmd : M (gmap string Redis.entry) A) (w : World) :
  faults w = [] ->
  redis_call cmd w
  = let '(r, d) := cmd (redis w) in (r, set_redis d (set_faults [] w)).
Proof. intros Hf. unfold redis_call. now rewrite Hf. Qed.

End RuntimeFacts.

(** ** Strings *)

Module StringFacts.

Lemma includes_In (xs : list string) (s : string) :
  includes xs s = true <-> In s xs.
Proof.
  unfold includes. rewrite existsb_exists. split.
  - intros (x & Hx & Heq). apply String.eqb_eq in Heq. now subst.
  - intros Hin. exists s. split; [assumption | apply String.eqb_refl].
Qed.

Lemma prefix_append (p rest : string) : String.prefix p (p +:+ rest) = true.
Proof.
  induction p as [|c p IH]; simpl.
  - now destruct rest.
  - destruct (ascii_dec c c) as [_|Hne]; [exact IH | now destruct Hne].
Qed.

Lemma prefix_split (p s : string) :
  String.prefix p s = true -> exists rest, s = p +:+ rest.
Proof.
  revert s. induction p as [|c p IH]; intros s H.
  - now exists s.
  - destruct s as [|d s]; simpl in H; [discriminate|].
    destruct (ascii_dec c d) as [->|_]; [|discriminate].
    destruct (IH s H) as [rest ->]. now exists rest.
Qed.

Lemma startsWith_spec (s p : string) :
  startsWith s p = true <-> exists rest, s = p +:+ rest.
Proof.
  unfold startsWith. split.
  - apply prefix_split.
  - intros [rest ->]. apply prefix_append.
Qed.

End StringFacts.

(** ** AuthMiddleware.authorize *)

Module AuthorizeFacts.
Import AuthMiddleware StringFacts.

Definition admin_scope : string := "admin:financial-data".
Definition read_all_scope : string := "read:financial-data".

(** A scope of the shape [read:*]. *)
Definition read_shaped (scope : string) : Prop :=
  exists rest, scope = "read:" +:+ rest.

Lemma forallb_includes (have required : list string) :
  forallb (fun scope => includes have scope) required = true
  <-> Forall (fun scope => In scope have) required.
Proof.
  rewrite forallb_forall, List.Forall_forall.
  split; intros H x Hx; apply includes_In, H, Hx.
Qed.

Lemma forallb_read_shaped (required : list string) :
  forallb (fun scope => startsWith scope "read:") required = true
  <-> Forall read_shaped required.
Proof.
  rewrite forallb_forall, List.Forall_forall.
  split; intros H x Hx; apply startsWith_spec, H, Hx.
Qed.

(** C6.  [authorize(ctx, S)] is true exactly when [S] is empty, or the
    context holds the admin scope, or it holds the read-all scope and every
    member of [S] starts with [read:], or every member of [S] is among the
    context's scopes.  A context whose only scope is the admin scope
    authorizes [read:sec-filings] together with [read:earnings]. *)
Theorem authorize_decision_table :
  (forall (ctx : AuthContext) (S : list string),
      authorize ctx S = true <->
      S = []
      \/ In admin_scope (scopes ctx)
      \/ (In read_all_scope (scopes ctx) /\ Forall read_shaped S)
      \/ Forall (fun scope => In scope (scopes ctx)) S)
  /\ (forall user type issued expires client mail nm,
         authorize
           {| userId := user; scopes := ["admin:financial-data"];
              tokenType := type; issuedAt := issued; expiresAt := expires;
              clientId := client; email := mail; name := nm |}
           ["read:sec-filings"; "read:earnings"] = true).
Proof.
  split; [|reflexivity].
  intros ctx S. unfold authorize.
  destruct S as [|s0 S']; [simpl; tauto|].
  change ((length (s0 :: S') =? 0)%nat) with false. cbv iota.
  destruct (includes (scopes ctx) "admin:financial-data") eqn:Hadmin.
  { apply includes_In in Hadmin. unfold admin_scope. tauto. }
  assert (Hna : ~ In admin_scope (scopes ctx)).
  { intros Hin. apply includes_In in Hin. unfold admin_scope in Hin. congruence. }
  destruct (includes (scopes ctx) "read:financial-data"
            && forallb (fun scope => startsWith scope "read:") (s0 :: S')) eqn:Hread.
  { apply andb_true_iff in Hread as [Hin Hall].
    apply includes_In in Hin. apply forallb_read_shaped in Hall.
    unfold read_all_scope. tauto. }
  rewrite forallb_includes. split; [tauto|].
  intros [Hnil | [Hin | [[Hin Hall] | Hall]]];
    [discriminate | contradiction | | assumption].
  apply includes_In in Hin. apply forallb_read_shaped in Hall.
  unfold read_all_scope in Hin. rewrite Hin, Hall in Hread. discriminate.
Qed.

End AuthorizeFacts.

(** ** AuthMiddleware.authenticate: reading the [Authorization] header *)

Module BearerFacts.
Import AuthMiddleware StringFacts.

Lemma after_literal_spec (p s rest : string) :
  after_literal p s = Some rest <-> s = p +:+ rest.
Proof.
  revert s. induction p as [|a p IH]; intros s; simpl.
  - split; [now intros [= ->] | now intros ->].
  - destruct s as [|b s].
    + split; discriminate.
    + destruct (Ascii.eqb_spec a b) as [->|Hne].
      * rewrite IH. split; [now intros -> | now intros [= ->]].
      * split; [discriminate | intros [= Hab _]; congruence].
Qed.

Lemma drop_chars_append (spaces token : string) :
  drop_chars (String.length spaces) (spaces +:+ token) = token.
Proof. induction spaces as [|c sp IH]; simpl; [now destruct token | exact IH]. Qed.

Lemma drop_chars_step (j : nat) (s : string) (c : ascii) (t : string) :
  drop_chars j s = String c t -> drop_chars (S j) s = t.
Proof.
  revert s. induction j as [|j IH]; intros s H; simpl in *.
  - now subst s.
  - destruct s as [|d s]; [discriminate|]. apply IH, H.
Qed.

(** Within the leading run of white space, a split point cuts off a
    string of white space. *)
Lemma space_run_split (j : nat) (s : string) :
  (j <= space_run s)%nat ->
  exists spaces,
    s = spaces +:+ drop_chars j s
    /\ String.length spaces = j
    /\ all_chars is_space spaces = true.
Proof.
  revert s. induction j as [|j IH]; intros s Hj.
  - exists EmptyString. simpl. now destruct s.
  - destruct s as [|c s]; simpl in Hj; [lia|].
    destruct (is_space c) eqn:Hc; [|lia].
    destruct (IH s ltac:(lia)) as (sp & Hs & Hlen & Hall).
    exists (String c sp). simpl. rewrite Hc, Hall.
    split; [|split; [f_equal; exact Hlen | reflexivity]].
    change (String c s = String c (sp +:+ drop_chars j s)). now rewrite <- Hs.
Qed.

(** The run is maximal: what follows it does not start with white space. *)
Lemma space_run_maximal (s : string) (c : ascii) (t : string) :
  drop_chars (space_run s) s = String c t -> is_space c = false.
Proof.
  induction s as [|d s IH]; simpl; [discriminate|].
  destruct (is_space d) eqn:Hd; simpl.
  - exact IH.
  - now intros [= -> _].
Qed.

Lemma space_run_append (spaces token : string) :
  all_chars is_space spaces = true ->
  space_run (spaces +:+ token) = (String.length spaces + space_run token)%nat.
Proof.
  induction spaces as [|c sp IH]; simpl; intros H; [reflexivity|].
  apply andb_true_iff in H as [-> H]. now rewrite IH.
Qed.

(** What the backtracking search returns is a suffix that [(.+)$] accepts,
    cut after at least one and at most [k] characters, and no longer cut
    was acceptable. *)
Lemma spaces_then_dots_some (k : nat) (s token : string) :
  spaces_then_dots k s = Some token ->
  exists j, (0 < j <= k)%nat
            /\ drop_chars j s = token
            /\ dots_to_end token = true
            /\ ((j < k)%nat -> dots_to_end (drop_chars (S j) s) = false).
Proof.
  induction k as [|k IH]; cbn [spaces_then_dots]; [discriminate|].
  destruct (dots_to_end (drop_chars (S k) s)) eqn:Hd.
  - intros [= <-]. exists (S k). repeat split; [lia | lia | assumption | lia].
  - intros H. destruct (IH H) as (j & Hj & Hdrop & Hok & Hnext).
    exists j. repeat split; [lia | lia | assumption | assumption |].
    intros _. destruct (decide (j = k)) as [->|Hne]; [assumption|].
    apply Hnext. lia.
Qed.

(** The shape of a header value that carries a token, as the pattern
    [/^Bearer\s+(.+)$/] with its greedy [\s+] reads it: white space, then a
    token without line terminators that either does not start with white
    space or is one single character. *)
Definition carries (spaces token : string) : Prop :=
  spaces <> EmptyString
  /\ all_chars is_space spaces = true
  /\ token <> EmptyString
  /\ all_chars is_dot token = true
  /\ ((exists c rest, token = String c rest /\ is_space c = false)
      \/ String.length token = 1%nat).

Lemma dots_to_end_spec (s : string) :
  dots_to_end s = true <-> s <> EmptyString /\ all_chars is_dot s = true.
Proof.
  unfold dots_to_end. rewrite andb_true_iff. destruct s; simpl; split.
  - intros [? _]; discriminate.
  - intros [H _]; now destruct H.
  - intros [_ H]. split; [discriminate | exact H].
  - intros [_ H]. split; [reflexivity | exact H].
Qed.

Lemma match_after_spaces (spaces token : string) :
  carries spaces token ->
  spaces_then_dots (space_run (spaces +:+ token)) (spaces +:+ token) = Some token.
Proof.
  intros (Hne & Hsp & Htok & Hdots & Hshape).
  assert (Hlen : exists n, String.length spaces = S n).
  { destruct spaces; [now destruct Hne | simpl; eauto]. }
  destruct Hlen as [n Hn].
  assert (Hok : dots_to_end token = true) by now apply dots_to_end_spec.
  rewrite space_run_append by assumption.
  destruct token as [|c rest]; [now destruct Htok|].
  destruct (is_space c) eqn:Hc.
  - destruct Hshape as [(c' & r' & [= <- <-] & Hc') | Hone]; [congruence|].
    destruct rest; [|discriminate]. simpl space_run. rewrite Hc.
    replace (String.length spaces + 1)%nat with (S (String.length spaces)) by lia.
    cbn [spaces_then_dots].
    rewrite (drop_chars_step _ _ c EmptyString) by apply drop_chars_append.
    cbn [dots_to_end is_empty negb andb].
    rewrite Hn. cbn [spaces_then_dots]. rewrite <- Hn, drop_chars_append.
    now rewrite Hok.
  - simpl space_run. rewrite Hc, Nat.add_0_r, Hn. cbn [spaces_then_dots].
    rewrite <- Hn, drop_chars_append. now rewrite Hok.
Qed.

Lemma match_bearer_spec (value token : string) :
  match_bearer value = Some token <->
  exists spaces, value = "Bearer" +:+ spaces +:+ token /\ carries spaces token.
Proof.
  unfold match_bearer. split.
  - destruct (after_literal "Bearer" value) as [rest|] eqn:Hlit; [|discriminate].
    apply after_literal_spec in Hlit. intros H.
    apply spaces_then_dots_some in H as (j & Hj & Hdrop & Hok & Hnext).
    destruct (space_run_split j rest ltac:(lia)) as (sp & Hrest & Hlen & Hsp).
    apply dots_to_end_spec in Hok as Hok'. destruct Hok' as [Htok Hdots].
    exists sp. split; [now rewrite Hlit, Hrest, Hdrop|].
    repeat split; try assumption.
    + intros ->. simpl in Hlen. lia.
    + destruct token as [|c t]; [now destruct Htok|].
      destruct (decide (j = space_run rest)) as [->|Hlt].
      * left. exists c, t. split; [reflexivity|].
        eapply space_run_maximal, Hdrop.
      * right. specialize (Hnext ltac:(lia)).
        rewrite (drop_chars_step _ _ _ _ Hdrop) in Hnext.
        simpl in Hdots. apply andb_true_iff in Hdots as [_ Hdots].
        destruct t; [reflexivity|].
        unfold dots_to_end in Hnext. simpl in Hnext. simpl in Hdots. congruence.
  - intros (sp & -> & Hc).
    assert (Hlit : after_literal "Bearer" ("Bearer" +:+ sp +:+ token) = Some (sp +:+ token))
      by now apply after_literal_spec.
    rewrite Hlit. now apply match_after_spaces.
Qed.

Lemma or_else_empty_some (o : option string) (s : string) :
  or_else_empty o = Some s <-> o = Some s /\ s <> EmptyString.
Proof.
  destruct o as [x|]; simpl.
  - destruct x; simpl; split.
    + discriminate.
    + intros [[= <-] H]. now destruct H.
    + intros [= <-]. split; [reflexivity | discriminate].
    + now intros [[= <-] _].
  - split; [discriminate | now intros [? _]].
Qed.

(** The header the middleware reads: [headers.authorization ||
    headers.Authorization]. *)
Definition authorization_header (headers : gmap string string) : option string :=
  or_else (headers !! "authorization") (headers !! "Authorization").

Lemma or_else_empty_or_else (a b : option string) (s : string) :
  or_else_empty (or_else a b) = Some s <-> or_else a b = Some s /\ s <> EmptyString.
Proof. apply or_else_empty_some. Qed.

Lemma extractBearerToken_spec (headers : gmap string string) (token : string) :
  extractBearerToken headers = Some token <->
  exists value spaces,
    authorization_header headers = Some value
    /\ value = "Bearer" +:+ spaces +:+ token
    /\ carries spaces token.
Proof.
  unfold extractBearerToken, authorization_header.
  set (h := or_else _ _). split.
  - destruct (or_else_empty h) as [v|] eqn:Hv; [|discriminate].
    apply or_else_empty_some in Hv as [Hv _].
    intros H. apply or_else_empty_some in H as [H _].
    apply match_bearer_spec in H as (sp & -> & Hc).
    exists ("Bearer" +:+ sp +:+ token), sp. auto.
  - intros (v & sp & Hv & -> & Hc).
    assert (Hm : match_bearer ("Bearer" +:+ sp +:+ token) = Some token)
      by (apply match_bearer_spec; now exists sp).
    assert (Hv' : or_else_empty h = Some ("Bearer" +:+ sp +:+ token))
      by (apply or_else_empty_some; split; [exact Hv | discriminate]).
    rewrite Hv'. apply or_else_empty_some. split; [exact Hm | apply Hc].
Qed.

(** The result of a request without a usable bearer token. *)
Definition missing_header : AuthenticationResult :=
  {| success := false; context := None;
     error := Some "Missing or invalid Authorization header" |}.

(** The header as the specification words it: a header whose name is
    [authorization] up to letter case, holding [Bearer], exactly one space,
    and the token. *)
Definition lower (c : ascii) : ascii :=
  let n := N_of_ascii c in
  if ((65 <=? n) && (n <=? 90))%N then ascii_of_N (n + 32) else c.

Fixpoint toLowerCase (s : string) : string :=
  match s with
  | EmptyString => EmptyString
  | String c rest => String (lower c) (toLowerCase rest)
  end.

Definition spec_carries (headers : gmap string string) (token : string) : Prop :=
  exists name,
    toLowerCase name = "authorization"
    /\ headers !! name = Some ("Bearer " +:+ token)
    /\ token <> EmptyString.

Definition spec_extraction : Prop :=
  forall (headers : gmap string string) (token : string),
    extractBearerToken headers = Some token <-> spec_carries headers token.

(** C7, as stated, fails.  A header spelled [AUTHORIZATION] is not read,
    and [Bearer] followed by two spaces is accepted, the token being what
    follows the second space. *)
Lemma header_reading_differs_from_spec :
  extractBearerToken {[ "AUTHORIZATION" := "Bearer abc" ]} = None
  /\ extractBearerToken {[ "authorization" := "Bearer  abc" ]} = Some "abc"
  /\ ~ spec_extraction.
Proof.
  split; [reflexivity|]. split; [reflexivity|].
  intros Hspec.
  assert (H : spec_carries {[ "AUTHORIZATION" := "Bearer abc" ]} "abc").
  { exists "AUTHORIZATION". repeat split; discriminate. }
  apply Hspec in H. discriminate H.
Qed.

(** C7, amended.  The middleware reads the header under the two spellings
    [authorization] (taken first unless missing or empty) and
    [Authorization].  It yields a token exactly when that header's value is
    [Bearer], then one or more white-space characters, then a non-empty
    token without line terminators that runs to the end of the value and
    either does not start with white space or is a single character.  When
    it yields none, [authenticate] returns the failure with the fixed reason
    [Missing or invalid Authorization header] and no context, without
    calling the token verifier, writing a log entry or changing anything. *)
Theorem authenticate_reads_bearer_header :
  forall (jwt_verify : string -> string -> string -> Completion json)
         (is_email : string -> bool) (self : AuthMiddleware)
         (request : AuthenticatedRequest) (w : World),
    (forall token,
        extractBearerToken (headers request) = Some token <->
        exists value spaces,
          authorization_header (headers request) = Some value
          /\ value = "Bearer" +:+ spaces +:+ token
          /\ carries spaces token)
    /\ (extractBearerToken (headers request) = None ->
        authenticate jwt_verify is_email self request w
        = (Normal missing_header, w)).
Proof.
  intros jwt_verify is_email self request w. split.
  - intros token. apply extractBearerToken_spec.
  - intros Hnone. unfold authenticate, try_catch. now rewrite Hnone.
Qed.

End BearerFacts.

(** ** Redis: sorted sets under pruning *)

Module RedisFacts.
Import Redis.

(** The members of a set whose score lies after [window_start]. *)
Definition in_window (window_start : Z) (m : gmap string Z) : gmap string Z :=
  filter (fun kv : string * Z => window_start < kv.2) m.







Lemma lookup_live_Some (t : Z) (key : string) (d : db) (e : entry) :
  lookup_live t key d = Some e <-> d !! key = Some e /\ live t e = true.
Proof.
  unfold lookup_live. destruct (d !! key) as [e'|]; [|split; [discriminate | now intros [? _]]].
  destruct (live t e') eqn:Hl; split.
  - now intros [= <-].
  - now intros [[= <-] _].
  - discriminate.
  - intros [[= <-] ?]. congruence.
Qed.



(** After pruning, the set at [key] is the window of the set before. *)
Lemma ZREMRANGEBYSCORE_window (t : Z) (key : string) (max : Z) (d : db)
    (m : gmap string Z) :
  zset_at t key d = Some m ->
  exists removed d',
    ZREMRANGEBYSCORE t key max d = (Normal removed, d')
    /\ zset_at t key d' = Some (in_window max m).
Proof.
  unfold zset_at, ZREMRANGEBYSCORE.
  destruct (lookup_live t key d) as [e|] eqn:He.
  - apply lookup_live_Some in He as He'. destruct He' as [Hd Hlive].
    destruct e as [[s|m0] ex]; simpl; [discriminate|]. intros [= ->].
    do 2 eexists. split; [reflexivity|].
    fold (in_window max m). case_decide as Hempty.
    + unfold lookup_live. rewrite lookup_delete_eq. now rewrite Hempty.
    + unfold lookup_live. rewrite lookup_insert_eq.
      unfold live in *. simpl in *. now rewrite Hlive.
  - intros [= <-]. do 2 eexists. split; [reflexivity|].
    rewrite He. unfold in_window. now rewrite map_filter_empty.
Qed.

Lemma ZREMRANGEBYSCORE_wrongtype (t : Z) (key : string) (max : Z) (d : db) :
  zset_at t key d = None ->
  ZREMRANGEBYSCORE t key max d = (Throw WRONGTYPE, d).
Proof.
  unfold zset_at, ZREMRANGEBYSCORE.
  destruct (lookup_live t key d) as [e|]; [|discriminate].
  now destruct (val e).
Qed.



End RedisFacts.

(** ** RateLimiter *)

Module RateLimiterFacts.
Import Redis RedisFacts RateLimiter RuntimeFacts.

(** What [checkRateLimit] returns when it cannot consult the store. *)
Definition fail_open (cfg : RateLimitConfig) (now : Z) : RateLimitResult :=
  {| allowed := true;
     limit := maxRequests cfg;
     current := 0;
     remaining := maxRequests cfg;
     resetTime := now + windowMs cfg;
     retryAfter := None |}.

(** The store operation of [checkRateLimit]: [this.redis.eval(script, ...)]. *)
Definition eval_script (self : RateLimiter) (userId clientId endpoint : string)
    (customConfig : option PartialConfig) (now : Z) : M World (list Z) :=
  let cfg := spread (defaultConfig self) customConfig in
  redis_call (script now (generateKey userId clientId endpoint)
                (now - windowMs cfg) now (maxRequests cfg) (windowMs cfg)).

Lemma checkRateLimit_catch (self : RateLimiter) (userId clientId endpoint : string)
    (customConfig : option PartialConfig) (now : Z) (w : World) (e : Exn) :
  (eval_script self userId clientId endpoint customConfig now w).1 = Throw e ->
  (checkRateLimit self userId clientId endpoint customConfig now w).1
  = Normal (fail_open (spread (defaultConfig self) customConfig) now).
Proof.
  unfold eval_script, checkRateLimit, try_catch, bind. cbv zeta.
  destruct (redis_call _ w) as [[reply|e'] w']; simpl; [discriminate|].
  reflexivity.
Qed.

(** C8.  When the store operation of a [checkRateLimit] call throws (the
    connection fails, or the server replies with an error), the call does
    not throw and does not reject: it returns [allowed = true] with
    [current = 0] and [remaining = maxRequests], and the failure goes to the
    log as an error event. *)
Theorem checkRateLimit_fails_open (self : RateLimiter)
    (userId clientId endpoint : string) (customConfig : option PartialConfig)
    (now : Z) (w : World) (e : Exn) :
  (eval_script self userId clientId endpoint customConfig now w).1 = Throw e ->
  let cfg := spread (defaultConfig self) customConfig in
  let outcome := checkRateLimit self userId clientId endpoint customConfig now w in
  outcome.1 = Normal (fail_open cfg now)
  /\ allowed (fail_open cfg now) = true
  /\ current (fail_open cfg now) = 0
  /\ remaining (fail_open cfg now) = maxRequests cfg
  /\ exists event, level event = LError /\ log outcome.2 = log w ++ [event].
Proof.
  intros Hthrow cfg outcome. split; [now apply (checkRateLimit_catch _ _ _ _ _ _ _ e)|].
  do 3 (split; [reflexivity|]).
  subst outcome. revert Hthrow.
  unfold eval_script, checkRateLimit, try_catch, bind. cbv zeta.
  fold cfg. destruct (redis_call _ w) as [[reply|e'] w'] eqn:Hcall; simpl; [discriminate|].
  intros _.
  assert (Hlog : log w' = log w).
  { revert Hcall. unfold redis_call.
    destruct (faults w) as [|[|] fs]; [| now intros [= _ <-] |];
      destruct (script _ _ _ _ _ _ _) as [r d]; now intros [= _ <-]. }
  rewrite Hlog. eexists. split; [|reflexivity]. reflexivity.
Qed.

Definition limiter (max window : Z) : RateLimiter :=
  {| defaultConfig :=
       {| windowMs := window; maxRequests := max;
          skipSuccessfulRequests := false; skipFailedRequests := false |} |}.

Lemma checkRateLimit_fails_open_witness :
  (checkRateLimit (limiter 100 60000) "u1" "c1" "getEarnings" None
     1700000000000 unreachable_store).1
  = Normal {| allowed := true; limit := 100; current := 0; remaining := 100;
              resetTime := 1700000060000; retryAfter := None |}.
Proof.
  apply (checkRateLimit_fails_open (limiter 100 60000) "u1" "c1" "getEarnings" None
           1700000000000 unreachable_store (RedisError "The client is closed")).
  reflexivity.
Defined.

(** *** What the script replies *)

Lemma EXPIRE_normal (t : Z) (key : string) (seconds : Z) (d : db) :
  exists r d', EXPIRE t key seconds d = (Normal r, d').
Proof. unfold EXPIRE. destruct (lookup_live t key d); eauto. Qed.

Lemma ZADD_normal (t : Z) (key : string) (score : Z) (member : string) (d : db)
    (m : gmap string Z) :
  zset_at t key d = Some m ->
  exists r d', ZADD t key score member d = (Normal r, d').
Proof.
  unfold zset_at, ZADD. destruct (lookup_live t key d) as [e|]; [|eauto].
  destruct (val e); [discriminate | eauto].
Qed.

Lemma script_wrongtype (t : Z) (key : string) (ws now max win : Z) (d : db) :
  zset_at t key d = None ->
  script t key ws now max win d = (Throw WRONGTYPE, d).
Proof.
  intros H. unfold script, bind. now rewrite ZREMRANGEBYSCORE_wrongtype.
Qed.


Lemma eval_script_run (self : RateLimiter) (userId clientId endpoint : string)
    (customConfig : option PartialConfig) (now : Z) (w : World) :
  let cfg := spread (defaultConfig self) customConfig in
  match faults w with
  | true :: _ =>
      (eval_script self userId clientId endpoint customConfig now w).1
      = Throw (RedisError "The client is closed")
  | _ =>
      (eval_script self userId clientId endpoint customConfig now w).1
      = (script now (generateKey userId clientId endpoint) (now - windowMs cfg)
           now (maxRequests cfg) (windowMs cfg) (redis w)).1
  end.
Proof.
  unfold eval_script, redis_call. cbv zeta.
  destruct (faults w) as [|[|] fs]; try reflexivity;
    now destruct (script _ _ _ _ _ _ _).
Qed.




(** *** Status queries *)









(** *** Concurrent checks

    A call reads the clock and then hands its script to Redis, which runs
    the scripts of concurrent calls one at a time.  [serve] takes the clock
    readings of the calls in the order in which Redis runs their scripts,
    and gives the results in that order. *)
Fixpoint serve (self : RateLimiter) (userId clientId endpoint : string)
    (customConfig : option PartialConfig) (nows : list Z) (w : World)
  : list (Completion RateLimitResult) :=
  match nows with
  | [] => []
  | now :: rest =>
      let '(r, w') := checkRateLimit self userId clientId endpoint customConfig now w in
      r :: serve self userId clientId endpoint customConfig rest w'
  end.

Definition is_admitted (r : Completion RateLimitResult) : bool :=
  match r with
  | Normal result => allowed result
  | Throw _ => false
  end.

Definition admissions (results : list (Completion RateLimitResult)) : nat :=
  length (List.filter is_admitted results).

(** *** The commands on a key that is absent or expired *)

Lemma ZREMRANGEBYSCORE_absent (t : Z) (key : string) (max : Z) (d : db) :
  lookup_live t key d = None -> ZREMRANGEBYSCORE t key max d = (Normal 0, d).
Proof. intros H. unfold ZREMRANGEBYSCORE. now rewrite H. Qed.

Lemma ZCARD_absent (t : Z) (key : string) (d : db) :
  lookup_live t key d = None -> ZCARD t key d = (Normal 0, d).
Proof. intros H. unfold ZCARD, zset_at. now rewrite H, map_size_empty. Qed.

Lemma ZADD_absent (t : Z) (key : string) (score : Z) (member : string) (d : db) :
  lookup_live t key d = None ->
  ZADD t key score member d
  = (Normal 1, <[key := {| val := VZSet {[ member := score ]}; expireAt := None |}]> d).
Proof. intros H. unfold ZADD. now rewrite H. Qed.

Lemma ZRANGE_first_score_absent (t : Z) (key : string) (d : db) :
  lookup_live t key d = None -> ZRANGE_first_score t key d = (Normal None, d).
Proof.
  intros H. unfold ZRANGE_first_score, zset_at, min_score.
  now rewrite H, map_to_list_empty.
Qed.

(** *** The commands on a live sorted set *)

Lemma ZREMRANGEBYSCORE_zset (t : Z) (key : string) (max : Z) (d : db)
    (m : gmap string Z) (e : option Z) :
  lookup_live t key d = Some {| val := VZSet m; expireAt := e |} ->
  ZREMRANGEBYSCORE t key max d
  = (Normal (Z.of_nat (size m) - Z.of_nat (size (in_window max m))),
     if decide (in_window max m = ∅) then delete key d
     else <[key := {| val := VZSet (in_window max m); expireAt := e |}]> d).
Proof. intros H. unfold ZREMRANGEBYSCORE. now rewrite H. Qed.

Lemma ZCARD_zset (t : Z) (key : string) (d : db) (m : gmap string Z) (e : option Z) :
  lookup_live t key d = Some {| val := VZSet m; expireAt := e |} ->
  ZCARD t key d = (Normal (Z.of_nat (size m)), d).
Proof. intros H. unfold ZCARD, zset_at. now rewrite H. Qed.

Lemma ZADD_zset (t : Z) (key : string) (score : Z) (member : string) (d : db)
    (m : gmap string Z) (e : option Z) :
  lookup_live t key d = Some {| val := VZSet m; expireAt := e |} ->
  ZADD t key score member d
  = (Normal (match m !! member with Some _ => 0 | None => 1 end),
     <[key := {| val := VZSet (<[member := score]> m); expireAt := e |}]> d).
Proof. intros H. unfold ZADD. now rewrite H. Qed.

Lemma EXPIRE_live (t : Z) (key : string) (seconds : Z) (d : db) (e : entry) :
  lookup_live t key d = Some e ->
  0 < seconds ->
  EXPIRE t key seconds d
  = (Normal 1, <[key := {| val := val e; expireAt := Some (t + seconds * 1000) |}]> d).
Proof.
  intros H Hs. unfold EXPIRE. rewrite H.
  apply Z.leb_gt in Hs. now rewrite Hs.
Qed.

Lemma ZRANGE_first_score_zset (t : Z) (key : string) (d : db)
    (m : gmap string Z) (e : option Z) :
  lookup_live t key d = Some {| val := VZSet m; expireAt := e |} ->
  ZRANGE_first_score t key d = (Normal (min_score m), d).
Proof. intros H. unfold ZRANGE_first_score, zset_at. now rewrite H. Qed.

Lemma lookup_live_insert (t : Z) (key : string) (d : db) (e : entry) :
  live t e = true -> lookup_live t key (<[key := e]> d) = Some e.
Proof. intros H. unfold lookup_live. now rewrite lookup_insert_eq, H. Qed.

Lemma lookup_live_missing (t : Z) (key : string) (d : db) :
  d !! key = None -> lookup_live t key d = None.
Proof. intros H. unfold lookup_live. now rewrite H. Qed.

(** The script on a key that is not there. *)
Lemma script_on_missing (t : Z) (key : string) (ws now max win : Z) (d : db) :
  d !! key = None ->
  0 < ceil_div win 1000 ->
  exists reply d',
    script t key ws now max win d = (Normal reply, d')
    /\ reply !! 0%nat = Some (if 0 <? max then 1 else 0)
    /\ d' !! key
       = (if 0 <? max
          then Some {| val := VZSet {[ pretty now := now ]};
                       expireAt := Some (t + ceil_div win 1000 * 1000) |}
          else None).
Proof.
  intros Hd Hc. apply (lookup_live_missing t) in Hd as Hl.
  unfold script, bind.
  rewrite (ZREMRANGEBYSCORE_absent _ _ _ _ Hl), (ZCARD_absent _ _ _ Hl).
  destruct (0 <? max).
  - rewrite (ZADD_absent _ _ _ _ _ Hl).
    erewrite EXPIRE_live; [|apply lookup_live_insert; reflexivity | exact Hc].
    do 2 eexists. split; [reflexivity|]. split; [reflexivity|].
    apply lookup_insert_eq.
  - rewrite (ZRANGE_first_score_absent _ _ _ Hl).
    do 2 eexists. split; [reflexivity|]. split; [reflexivity|]. exact Hd.
Qed.

(** The script on a live window entry none of whose members is due for
    pruning. *)
Lemma script_on_live (t : Z) (key : string) (ws now max win : Z) (d : db)
    (m : gmap string Z) (deadline : Z) :
  d !! key = Some {| val := VZSet m; expireAt := Some deadline |} ->
  t < deadline ->
  m <> ∅ ->
  (forall k v, m !! k = Some v -> ws < v) ->
  0 < ceil_div win 1000 ->
  let n := Z.of_nat (size m) in
  exists reply d',
    script t key ws now max win d = (Normal reply, d')
    /\ reply !! 0%nat = Some (if n <? max then 1 else 0)
    /\ d' !! key
       = Some (if n <? max
               then {| val := VZSet (<[pretty now := now]> m);
                       expireAt := Some (t + ceil_div win 1000 * 1000) |}
               else {| val := VZSet m; expireAt := Some deadline |}).
Proof.
  intros Hd Hlive Hne Hfresh Hc n.
  assert (Hkept : in_window ws m = m).
  { apply map_filter_id. intros k v Hkv. apply (Hfresh k v Hkv). }
  assert (Hl : live t {| val := VZSet m; expireAt := Some deadline |} = true).
  { now apply Z.ltb_lt. }
  assert (Hlook : lookup_live t key d
                  = Some {| val := VZSet m; expireAt := Some deadline |}).
  { now apply lookup_live_Some. }
  unfold script, bind.
  rewrite (ZREMRANGEBYSCORE_zset _ _ _ _ _ _ Hlook), Hkept.
  rewrite decide_False by exact Hne.
  rewrite (ZCARD_zset _ _ _ _ _ (lookup_live_insert t key d _ Hl)). fold n.
  destruct (n <? max).
  - rewrite (ZADD_zset _ _ _ _ _ _ _ (lookup_live_insert t key d _ Hl)).
    erewrite EXPIRE_live; [|apply lookup_live_insert; exact Hl | exact Hc].
    do 2 eexists. split; [reflexivity|]. split; [reflexivity|].
    apply lookup_insert_eq.
  - rewrite (ZRANGE_first_score_zset _ _ _ _ _ (lookup_live_insert t key d _ Hl)).
    do 2 eexists. split; [reflexivity|]. split; [reflexivity|].
    apply lookup_insert_eq.
Qed.

(** A check that reaches the store: the verdict is the first number of the
    script's reply, and the store is as the script leaves it. *)
Lemma checkRateLimit_reachable (self : RateLimiter) (userId clientId endpoint : string)
    (customConfig : option PartialConfig) (now : Z) (w : World)
    (reply : list Z) (d' : db) :
  let cfg := spread (defaultConfig self) customConfig in
  faults w = [] ->
  script now (generateKey userId clientId endpoint) (now - windowMs cfg) now
    (maxRequests cfg) (windowMs cfg) (redis w) = (Normal reply, d') ->
  exists r w',
    checkRateLimit self userId clientId endpoint customConfig now w = (Normal r, w')
    /\ allowed r = bool_decide (reply !! 0%nat = Some 1)
    /\ redis w' = d'
    /\ faults w' = [].
Proof.
  intros cfg Hf Hscript. unfold checkRateLimit, try_catch, bind.
  fold cfg. rewrite (redis_call_reachable _ w Hf), Hscript.
  unfold logger. do 2 eexists. split; [reflexivity|]. now repeat split.
Qed.

(** *** Calls with distinct clock readings inside one window *)

(** The time to live that the script gives the key, in milliseconds. *)
Definition period (window : Z) : Z := ceil_div window 1000 * 1000.

Lemma period_covers_window (window : Z) :
  0 < window -> 0 < ceil_div window 1000 /\ window <= period window.
Proof.
  unfold period, ceil_div. intros H.
  split; Z.to_euclidean_division_equations; lia.
Qed.

(** The window entry after some of the calls: nothing yet, or [a] members,
    each the text of a clock reading of [all] that is not among the
    readings still to come, the key to expire one period after one of the
    readings. *)
Definition window_holds (key : string) (window : Z) (all rest : list Z)
    (a : nat) (d : db) : Prop :=
  (a = 0%nat /\ d !! key = None)
  \/ exists m t0,
       d !! key = Some {| val := VZSet m; expireAt := Some (t0 + period window) |}
       /\ In t0 all /\ size m = a /\ a <> 0%nat
       /\ forall k v, m !! k = Some v -> k = pretty v /\ In v all /\ ~ In v rest.

Lemma admissions_cons (r : Completion RateLimitResult)
    (results : list (Completion RateLimitResult)) :
  admissions (r :: results)
  = ((if is_admitted r then 1 else 0) + admissions results)%nat.
Proof. unfold admissions. simpl. now destruct (is_admitted r). Qed.

Lemma serve_within_window (self : RateLimiter) (userId clientId endpoint : string)
    (customConfig : option PartialConfig) (all : list Z) :
  let cfg := spread (defaultConfig self) customConfig in
  let key := generateKey userId clientId endpoint in
  0 < windowMs cfg ->
  (forall t t', In t all -> In t' all -> t' - windowMs cfg < t) ->
  forall (nows : list Z) (w : World) (a : nat),
    faults w = [] ->
    List.NoDup nows ->
    (forall t, In t nows -> In t all) ->
    window_holds key (windowMs cfg) all nows a (redis w) ->
    admissions (serve self userId clientId endpoint customConfig nows w)
    = Nat.min (length nows) (Z.to_nat (maxRequests cfg - Z.of_nat a)).
Proof.
  intros cfg key Hwin Hclose.
  destruct (period_covers_window _ Hwin) as [Hceil Hperiod].
  induction nows as [|now rest IH]; intros w a Hf Hnodup Hall Hinv.
  { reflexivity. }
  apply List.NoDup_cons_iff in Hnodup as [Hnew Hnodup].
  assert (Hnow : In now all) by (apply Hall; now left).
  assert (Hrest : forall t, In t rest -> In t all) by (intros t Ht; apply Hall; now right).
  cbn [serve].
  destruct Hinv as [[-> Hnone] | (m & t0 & Hentry & Ht0 & Hsize & Ha & Hmem)].
  - destruct (script_on_missing now key (now - windowMs cfg) now (maxRequests cfg)
                (windowMs cfg) (redis w) Hnone Hceil) as (reply & d' & Hscript & H0 & Hd').
    destruct (checkRateLimit_reachable self userId clientId endpoint customConfig now w
                reply d' Hf Hscript) as (r & w' & -> & Hallowed & Hredis & Hf').
    rewrite admissions_cons. cbn [is_admitted]. rewrite Hallowed, H0.
    destruct (Z.ltb_spec 0 (maxRequests cfg)) as [Hpos|Hneg].
    + rewrite bool_decide_true by reflexivity.
      rewrite (IH w' 1%nat Hf' Hnodup Hrest).
      * cbn [length]. lia.
      * right. exists {[ pretty now := now ]}, now. rewrite Hredis, Hd'.
        split; [reflexivity|]. split; [exact Hnow|].
        split; [apply map_size_singleton|]. split; [lia|].
        intros k v Hkv. apply lookup_singleton_Some in Hkv as [<- <-]. auto.
    + rewrite bool_decide_false by discriminate.
      rewrite (IH w' 0%nat Hf' Hnodup Hrest).
      * cbn [length]. lia.
      * left. rewrite Hredis, Hd'. auto.
  - assert (Hm : m <> ∅).
    { apply map_size_non_empty_iff. lia. }
    assert (Hlive : now < t0 + period (windowMs cfg)).
    { pose proof (Hclose t0 now Ht0 Hnow). lia. }
    assert (Hfresh : forall k v, m !! k = Some v -> now - windowMs cfg < v).
    { intros k v Hkv. destruct (Hmem k v Hkv) as (_ & Hv & _). now apply Hclose. }
    destruct (script_on_live now key (now - windowMs cfg) now (maxRequests cfg)
                (windowMs cfg) (redis w) m _ Hentry Hlive Hm Hfresh Hceil)
      as (reply & d' & Hscript & H0 & Hd').
    destruct (checkRateLimit_reachable self userId clientId endpoint customConfig now w
                reply d' Hf Hscript) as (r & w' & -> & Hallowed & Hredis & Hf').
    rewrite admissions_cons. cbn [is_admitted]. rewrite Hallowed, H0.
    rewrite Hsize in Hd' |- *.
    destruct (Z.ltb_spec (Z.of_nat a) (maxRequests cfg)) as [Hroom|Hfull].
    + rewrite bool_decide_true by reflexivity.
      assert (Habsent : m !! pretty now = None).
      { destruct (m !! pretty now) as [v|] eqn:Hv; [|reflexivity].
        destruct (Hmem _ _ Hv) as (Hp & _ & Hnot).
        apply (inj pretty) in Hp. subst v. destruct Hnot. now left. }
      rewrite (IH w' (S a) Hf' Hnodup Hrest).
      * cbn [length]. lia.
      * right. exists (<[pretty now := now]> m), now. rewrite Hredis, Hd'.
        split; [reflexivity|]. split; [exact Hnow|].
        split; [rewrite map_size_insert_None by exact Habsent; lia|].
        split; [lia|].
        intros k v Hkv. apply lookup_insert_Some in Hkv as [[<- <-]|[_ Hkv]]; [auto|].
        destruct (Hmem k v Hkv) as (Hp & Hv & Hnot).
        split; [exact Hp|]. split; [exact Hv|]. intros Hin. apply Hnot. now right.
    + rewrite bool_decide_false by discriminate.
      rewrite (IH w' a Hf' Hnodup Hrest).
      * cbn [length]. lia.
      * right. exists m, t0. rewrite Hredis, Hd'.
        split; [reflexivity|]. split; [exact Ht0|]. split; [exact Hsize|].
        split; [exact Ha|].
        intros k v Hkv. destruct (Hmem k v Hkv) as (Hp & Hv & Hnot).
        split; [exact Hp|]. split; [exact Hv|]. intros Hin. apply Hnot. now right.
Qed.

(** Concurrent calls whose clock readings are pairwise distinct and lie
    within one window of each other, on a reachable store with no entry for
    the key: as many are admitted as there are calls, up to [maxRequests],
    in whatever order their scripts run. *)
Theorem distinct_readings_admit_exactly (self : RateLimiter)
    (userId clientId endpoint : string) (customConfig : option PartialConfig)
    (nows : list Z) (w : World) :
  let cfg := spread (defaultConfig self) customConfig in
  faults w = [] ->
  redis w !! generateKey userId clientId endpoint = None ->
  0 < windowMs cfg ->
  List.NoDup nows ->
  (forall t t', In t nows -> In t' nows -> t' - windowMs cfg < t) ->
  admissions (serve self userId clientId endpoint customConfig nows w)
  = Nat.min (length nows) (Z.to_nat (maxRequests cfg)).
Proof.
  intros cfg Hf Hnone Hwin Hnodup Hclose.
  rewrite (serve_within_window self userId clientId endpoint customConfig nows
             Hwin Hclose nows w 0%nat Hf Hnodup (fun t H => H)).
  - fold cfg. now rewrite Z.sub_0_r.
  - left. auto.
Qed.

(** X1.  With distinct clock readings the count is exact.  Of [N]
    concurrent calls for one key whose clock readings are pairwise distinct
    and lie within one window of each other, on a reachable store with no
    entry for the key and with [0 <= K = maxRequests < N], exactly [K] are
    admitted and [N - K] rejected, in whatever order their scripts run. *)
Corollary distinct_readings_split (self : RateLimiter)
    (userId clientId endpoint : string) (customConfig : option PartialConfig)
    (nows : list Z) (w : World) :
  let cfg := spread (defaultConfig self) customConfig in
  let results := serve self userId clientId endpoint customConfig nows w in
  faults w = [] ->
  redis w !! generateKey userId clientId endpoint = None ->
  0 < windowMs cfg ->
  List.NoDup nows ->
  (forall t t', In t nows -> In t' nows -> t' - windowMs cfg < t) ->
  0 <= maxRequests cfg < Z.of_nat (length nows) ->
  Z.of_nat (admissions results) = maxRequests cfg
  /\ Z.of_nat (length results - admissions results) = Z.of_nat (length nows) - maxRequests cfg.
Proof.
  intros cfg results Hf Hnone Hwin Hnodup Hclose HK.
  assert (Hlen : length results = length nows).
  { subst results. clear. revert w.
    induction nows as [|now rest IH]; intros w; [reflexivity|].
    cbn [serve]. destruct (checkRateLimit _ _ _ _ _ _ _) as [r w'].
    cbn [length]. now rewrite IH. }
  subst results.
  rewrite Hlen, (distinct_readings_admit_exactly self userId clientId endpoint
                   customConfig nows w Hf Hnone Hwin Hnodup Hclose).
  fold cfg. lia.
Qed.

(** *** Calls that read the same millisecond *)

Lemma serve_same_reading (self : RateLimiter) (userId clientId endpoint : string)
    (customConfig : option PartialConfig) (now : Z) :
  let cfg := spread (defaultConfig self) customConfig in
  let key := generateKey userId clientId endpoint in
  0 < windowMs cfg ->
  2 <= maxRequests cfg ->
  forall (n : nat) (w : World),
    faults w = [] ->
    redis w !! key
    = Some {| val := VZSet {[ pretty now := now ]};
              expireAt := Some (now + period (windowMs cfg)) |} ->
    admissions (serve self userId clientId endpoint customConfig (repeat now n) w) = n.
Proof.
  intros cfg key Hwin HK.
  destruct (period_covers_window _ Hwin) as [Hceil Hperiod].
  induction n as [|n IH]; intros w Hf Hentry; [reflexivity|].
  cbn [repeat serve].
  destruct (script_on_live now key (now - windowMs cfg) now (maxRequests cfg)
              (windowMs cfg) (redis w) {[ pretty now := now ]} _ Hentry)
    as (reply & d' & Hscript & H0 & Hd'); try assumption.
  { lia. }
  { apply map_non_empty_singleton. }
  { intros k v Hkv. apply lookup_singleton_Some in Hkv as [_ <-]. lia. }
  destruct (checkRateLimit_reachable self userId clientId endpoint customConfig now w
              reply d' Hf Hscript) as (r & w' & -> & Hallowed & Hredis & Hf').
  rewrite map_size_singleton in H0, Hd'.
  assert (Hroom : (Z.of_nat 1 <? maxRequests cfg) = true) by (apply Z.ltb_lt; lia).
  rewrite Hroom in H0, Hd'. rewrite insert_singleton_eq in Hd'.
  rewrite admissions_cons. cbn [is_admitted].
  rewrite Hallowed, H0, bool_decide_true by reflexivity.
  rewrite (IH w' Hf'); [reflexivity|]. now rewrite Hredis, Hd'.
Qed.

(** X2.  With [maxRequests] at least 2, every one of any number of
    concurrent calls for one key that read the same millisecond is admitted,
    on a reachable store with no entry for the key: the limit does not hold
    them back. *)
Lemma same_reading_all_admitted (self : RateLimiter)
    (userId clientId endpoint : string) (customConfig : option PartialConfig)
    (now : Z) (n : nat) (w : World) :
  let cfg := spread (defaultConfig self) customConfig in
  faults w = [] ->
  redis w !! generateKey userId clientId endpoint = None ->
  0 < windowMs cfg ->
  2 <= maxRequests cfg ->
  admissions (serve self userId clientId endpoint customConfig (repeat now n) w) = n.
Proof.
  intros cfg Hf Hnone Hwin HK.
  destruct (period_covers_window _ Hwin) as [Hceil Hperiod].
  destruct n as [|n]; [reflexivity|]. cbn [repeat serve].
  destruct (script_on_missing now (generateKey userId clientId endpoint)
              (now - windowMs cfg) now (maxRequests cfg) (windowMs cfg) (redis w)
              Hnone Hceil) as (reply & d' & Hscript & H0 & Hd').
  destruct (checkRateLimit_reachable self userId clientId endpoint customConfig now w
              reply d' Hf Hscript) as (r & w' & -> & Hallowed & Hredis & Hf').
  assert (Hroom : (0 <? maxRequests cfg) = true) by (apply Z.ltb_lt; lia).
  rewrite Hroom in H0, Hd'.
  rewrite admissions_cons. cbn [is_admitted].
  rewrite Hallowed, H0, bool_decide_true by reflexivity.
  rewrite (serve_same_reading self userId clientId endpoint customConfig now Hwin HK n w' Hf');
    [reflexivity|].
  now rewrite Hredis, Hd'.
Qed.

(** *** The failing input of the exact-count claim *)

(** C1 at a failing input.  Three concurrent calls for one key read the
    same millisecond from the clock, the window is empty and [maxRequests]
    is 2: all three are admitted.  The script adds the text of [now] as the
    set member, so the second call adds nothing new and the count that the
    third call reads is still 1. *)
Theorem same_millisecond_calls_exceed_limit :
  let now := 1700000000000 in
  let results :=
    serve (limiter 2 60000) "u1" "c1" "getEarnings" None [now; now; now] empty_store in
  map is_admitted results = [true; true; true]
  /\ admissions results = 3%nat.
Proof. vm_compute. split; reflexivity. Qed.

End RateLimiterFacts.

(** ** TokenStorage *)

Module TokenStorageFacts.
Import Redis TokenStorage StringFacts RuntimeFacts.

Section WithCryptoAndJSON.

Variable createCipher : string -> string -> string.
Variable createDecipher : string -> string -> Completion string.
Variable JSON_stringify : json -> string.
Variable JSON_parse : string -> Completion json.

(** The initialization vector that [encrypt] draws in the world [w]. *)
Definition drawn_iv (w : World) : list byte :=
  map (entropy w) (seq (drawn w) 16).

(** C2 at work.  [encrypt] draws 16 random bytes and prints them before the
    colon, but the ciphertext after the colon is the cipher's output for
    the key and the text alone: two encryptions of one text carry the same
    ciphertext body, whatever vectors were drawn. *)
Theorem encrypt_body_ignores_iv (self : TokenStorage) (text : string) (w1 w2 : World) :
  exists body,
    (encrypt createCipher self text w1).1
    = Normal (Buffer.toString_hex (drawn_iv w1) +:+ ":" +:+ body)
    /\ (encrypt createCipher self text w2).1
       = Normal (Buffer.toString_hex (drawn_iv w2) +:+ ":" +:+ body)
    /\ body = createCipher (encryptionKey self) text.
Proof. exists (createCipher (encryptionKey self) text). now repeat split. Qed.

(** *** Reading a record back *)

(** What [getToken] makes of a stored blob: decrypt, parse, validate. *)
Definition read_record (self : TokenStorage) (blob : string) : Completion StoredToken :=
  match decrypt createDecipher self blob with
  | Normal text =>
      match JSON_parse text with
      | Normal tokenData => StoredTokenSchema_parse tokenData
      | Throw e => Throw e
      end
  | Throw e => Throw e
  end.

(** The reply of the store to the [GET] of [getToken]. *)
Definition stored_blob (userId clientId : string) (now : Z) (w : World)
  : Completion (option string) :=
  (redis_call (GET now (generateAccessTokenKey userId clientId)) w).1.

Lemma redis_call_GET_world (now : Z) (key : string) (w : World) :
  (redis_call (GET now key) w).2 = set_faults (tail (faults w)) w.
Proof.
  unfold redis_call, GET.
  destruct (faults w) as [|[|] fs] eqn:Hf; simpl.
  - destruct (lookup_live now key (redis w)) as [e|]; [destruct (val e)|];
      destruct w; simpl in *; now subst.
  - reflexivity.
  - destruct (lookup_live now key (redis w)) as [e|]; [destruct (val e)|];
      destruct w; simpl in *; now subst.
Qed.

Lemma DEL_run (t : Z) (key : string) (d : db) :
  exists n, DEL t key d = (Normal n, delete key d).
Proof. unfold DEL. destruct (lookup_live t key d); eauto. Qed.

(** With the store reachable, [deleteToken] removes both keys. *)
Lemma deleteToken_reachable (self : TokenStorage) (userId clientId : string)
    (now : Z) (w : World) :
  faults w = [] ->
  exists w',
    deleteToken self userId clientId now w = (Normal tt, w')
    /\ redis w' = delete (generateRefreshTokenKey userId clientId)
                    (delete (generateAccessTokenKey userId clientId) (redis w))
    /\ faults w' = [].
Proof.
  intros Hf. unfold deleteToken, try_catch, bind, promise_all2.
  rewrite (redis_call_reachable _ w Hf).
  destruct (DEL_run now (generateAccessTokenKey userId clientId) (redis w)) as [n1 ->].
  rewrite redis_call_reachable by reflexivity.
  cbn [redis set_redis set_faults].
  destruct (DEL_run now (generateRefreshTokenKey userId clientId)
              (delete (generateAccessTokenKey userId clientId) (redis w))) as [n2 ->].
  eexists. split; [reflexivity|]. split; reflexivity.
Qed.

Lemma lookup_delete_both (d : db) (k1 k2 : string) :
  delete k2 (delete k1 d) !! k1 = None /\ delete k2 (delete k1 d) !! k2 = None.
Proof.
  split; [|apply lookup_delete_eq].
  destruct (decide (k2 = k1)) as [->|Hne]; [apply lookup_delete_eq|].
  rewrite lookup_delete_ne by exact Hne. apply lookup_delete_eq.
Qed.

(** [getToken] according to what the store replies and what the blob
    reads as. *)
Lemma getToken_outcome (self : TokenStorage) (userId clientId : string)
    (now : Z) (w : World) :
  let w1 := set_faults (tail (faults w)) w in
  match stored_blob userId clientId now w with
  | Throw _ => (getToken createDecipher JSON_parse self userId clientId now w).1 = Normal None
  | Normal reply =>
      match or_else_empty reply with
      | None =>
          (getToken createDecipher JSON_parse self userId clientId now w).1 = Normal None
      | Some blob =>
          match read_record self blob with
          | Throw _ =>
              (getToken createDecipher JSON_parse self userId clientId now w).1
              = Normal None
          | Normal t =>
              if expiresAt t <=? floor_div now 1000 then
                (getToken createDecipher JSON_parse self userId clientId now w).1
                = Normal None
                /\ exists w2,
                     redis w2 = redis w /\ faults w2 = tail (faults w)
                     /\ redis (getToken createDecipher JSON_parse self userId clientId now w).2
                        = redis (deleteToken self userId clientId now w2).2
              else
                (getToken createDecipher JSON_parse self userId clientId now w).1
                = Normal (Some t)
          end
      end
  end.
Proof.
  cbv zeta. unfold stored_blob, getToken, try_catch, bind.
  pose proof (redis_call_GET_world now (generateAccessTokenKey userId clientId) w) as Hw.
  destruct (redis_call (GET now (generateAccessTokenKey userId clientId)) w)
    as [[reply|e] w1]; simpl in *; [|reflexivity].
  destruct (or_else_empty reply) as [blob|]; [|reflexivity].
  unfold read_record, lift.
  destruct (decrypt createDecipher self blob) as [text|e]; [|reflexivity].
  destruct (JSON_parse text) as [tokenData|e]; [|reflexivity].
  destruct (StoredTokenSchema_parse tokenData) as [t|e]; [|reflexivity].
  destruct (expiresAt t <=? floor_div now 1000); [|reflexivity].
  match goal with
  | |- context [deleteToken self userId clientId now ?x] => set (w2 := x)
  end.
  split.
  - destruct (deleteToken self userId clientId now w2) as [[[]|e] w3]; reflexivity.
  - exists w2. subst w2 w1. split; [reflexivity|]. split; [reflexivity|].
    destruct (deleteToken self userId clientId now _) as [[[]|e] w3]; reflexivity.
Qed.

Lemma read_record_empty (self : TokenStorage) :
  exists e, read_record self EmptyString = Throw e.
Proof. unfold read_record, decrypt. simpl. eauto. Qed.

(** C4.  [getToken] never throws.  A record it returns is one that the
    store holds under the access-token key, that decrypts, parses and
    passes the schema, and whose [expiresAt] lies after [now].  When the
    store has no blob, or the blob does not decrypt, parse or validate, the
    result is [null].  When the record's [expiresAt] is at or before [now]
    while the store still holds it, the result is [null] and, the store
    being reachable for the two deletions, both keys of the pair are
    gone afterwards. *)
Theorem getToken_fails_closed (self : TokenStorage) (userId clientId : string)
    (now : Z) (w : World) :
  let outcome := getToken createDecipher JSON_parse self userId clientId now w in
  let reply := stored_blob userId clientId now w in
  (exists r, outcome.1 = Normal r)
  /\ (forall t, outcome.1 = Normal (Some t) ->
        exists blob,
          reply = Normal (Some blob)
          /\ read_record self blob = Normal t
          /\ floor_div now 1000 < expiresAt t)
  /\ (forall e, reply = Throw e -> outcome.1 = Normal None)
  /\ (reply = Normal None -> outcome.1 = Normal None)
  /\ (forall blob e,
        reply = Normal (Some blob) -> read_record self blob = Throw e ->
        outcome.1 = Normal None)
  /\ (forall blob t,
        reply = Normal (Some blob) -> read_record self blob = Normal t ->
        expiresAt t <= floor_div now 1000 ->
        outcome.1 = Normal None
        /\ (tail (faults w) = [] ->
            redis outcome.2 !! generateAccessTokenKey userId clientId = None
            /\ redis outcome.2 !! generateRefreshTokenKey userId clientId = None)).
Proof.
  intros outcome reply.
  pose proof (getToken_outcome self userId clientId now w) as H.
  cbv zeta in H. fold outcome reply in H. clearbody outcome reply.
  assert (Hnonempty : forall blob t,
             read_record self blob = Normal t -> or_else_empty (Some blob) = Some blob).
  { intros [|c b] t Hr; [|reflexivity].
    destruct (read_record_empty self) as [e He]. congruence. }
  destruct reply as [[blob|]|e0].
  - destruct (read_record self blob) as [t|e] eqn:Hread.
    + rewrite (Hnonempty blob t Hread), Hread in H.
      destruct (Z.leb_spec (expiresAt t) (floor_div now 1000)) as [Hexp|Hlive].
      * destruct H as [Hnone (w2 & Hr2 & Hf2 & Hredis)].
        split; [eauto|]. split; [intros t'; rewrite Hnone; discriminate|].
        split; [discriminate|]. split; [discriminate|].
        split; [intros b e [= <-]; congruence|].
        intros b t' [= <-] _ _. split; [exact Hnone|].
        intros Hreach. rewrite Hredis.
        destruct (deleteToken_reachable self userId clientId now w2)
          as (w3 & Hdel & Hredis3 & _); [congruence|].
        rewrite Hdel. cbn [snd]. rewrite Hredis3.
        apply lookup_delete_both.
      * split; [eauto|].
        split; [intros t'; rewrite H; intros [= <-]; eauto|].
        split; [discriminate|]. split; [discriminate|].
        split; [intros b e [= <-]; congruence|].
        intros b t' [= <-] Hr Hle. rewrite Hread in Hr. injection Hr as <-. lia.
    + assert (Hnone : outcome.1 = Normal None).
      { unfold or_else_empty in H.
        destruct (is_empty blob); [exact H|]. now rewrite Hread in H. }
      split; [eauto|]. split; [intros t'; rewrite Hnone; discriminate|].
      split; [discriminate|]. split; [discriminate|].
      split; [auto|]. intros b t' [= <-]. congruence.
  - simpl in H.
    split; [eauto|]. split; [intros t'; rewrite H; discriminate|].
    split; [discriminate|]. split; [auto|].
    split; intros; discriminate.
  - split; [eauto|]. split; [intros t'; rewrite H; discriminate|].
    split; [auto|]. split; [discriminate|].
    split; intros; discriminate.
Qed.

(** *** Storing a record and reading it back *)

Definition no_colon (c : ascii) : bool := negb (Ascii.eqb c ":").

Lemma split_no_colon (s : string) :
  all_chars no_colon s = true -> split ":" s = [s].
Proof.
  induction s as [|c s IH]; simpl; [reflexivity|].
  unfold no_colon at 1. intros H. apply andb_true_iff in H as [Hc Hs].
  apply negb_true_iff in Hc. rewrite Hc, (IH Hs). reflexivity.
Qed.

Lemma split_one_colon (a b : string) :
  all_chars no_colon a = true -> all_chars no_colon b = true ->
  split ":" (a +:+ ":" +:+ b) = [a; b].
Proof.
  intros Ha Hb. induction a as [|c a IH].
  - change (split ":" (String ":" b) = [EmptyString; b]).
    simpl. now rewrite (split_no_colon b Hb).
  - change (split ":" (String c (a +:+ ":" +:+ b)) = [String c a; b]).
    simpl in Ha. apply andb_true_iff in Ha as [Hc Ha].
    unfold no_colon in Hc. apply negb_true_iff in Hc.
    simpl. now rewrite Hc, (IH Ha).
Qed.

Lemma hex_digit_no_colon (n : N) : no_colon (Buffer.hex_digit n) = true.
Proof.
  destruct n as [|p]; [reflexivity|].
  do 4 (destruct p as [p|p|]; try reflexivity).
Qed.

Lemma toString_hex_no_colon (buffer : list byte) :
  all_chars no_colon (Buffer.toString_hex buffer) = true.
Proof.
  induction buffer as [|b rest IH]; simpl; [reflexivity|].
  now rewrite !hex_digit_no_colon, IH.
Qed.

Lemma string_array_round_trip (items : list string) :
  Zod.string_array (Some (JArr (JStr <$> items))) = Some items.
Proof.
  unfold Zod.string_array. induction items as [|x xs IH]; [reflexivity|].
  cbn [fmap list_fmap mapM]. rewrite IH. reflexivity.
Qed.

(** The schema accepts the value of every [StoredToken], and gives the
    token back. *)
Lemma StoredTokenSchema_round_trip (t : StoredToken) :
  StoredTokenSchema_parse (StoredToken_value t) = Normal t.
Proof.
  destruct t as [a r ty ex sc cl us].
  unfold StoredTokenSchema_parse, StoredToken_value.
  cbn [accessToken refreshToken tokenType expiresAt scopes clientId userId].
  pose proof (string_array_round_trip sc) as Hsc.
  destruct r as [r|]; cbn -[Zod.string_array]; rewrite Hsc; reflexivity.
Qed.

(** The record that [storeToken] writes for a token response and a
    context. *)
Definition record_of (userId_ clientId_ : string) (accessToken_ : OAuthClient.AccessToken)
    (authContext : AuthMiddleware.AuthContext) : StoredToken :=
  {| accessToken := OAuthClient.access_token accessToken_;
     refreshToken := OAuthClient.refresh_token accessToken_;
     tokenType := OAuthClient.token_type accessToken_;
     expiresAt := AuthMiddleware.expiresAt authContext;
     scopes := AuthMiddleware.scopes authContext;
     clientId := clientId_;
     userId := userId_ |}.

(** The time to live of the access-token key, in seconds. *)
Definition ttl_seconds (authContext : AuthMiddleware.AuthContext) (now : Z) : Z :=
  Z.max 60 (AuthMiddleware.expiresAt authContext - floor_div now 1000).

Lemma token_keys_differ (userId clientId : string) :
  generateRefreshTokenKey userId clientId <> generateAccessTokenKey userId clientId.
Proof.
  unfold generateRefreshTokenKey, generateAccessTokenKey. intros H.
  apply (f_equal (String.get 5)) in H. cbv in H. discriminate H.
Qed.

(** With the store reachable, [storeToken] leaves the encrypted record
    under the access-token key, to expire [ttl_seconds] after [now]. *)
Lemma storeToken_reachable (self : TokenStorage) (userId clientId : string)
    (accessToken_ : OAuthClient.AccessToken) (authContext : AuthMiddleware.AuthContext)
    (now : Z) (w : World) :
  faults w = [] ->
  let text := JSON_stringify (StoredToken_value (record_of userId clientId accessToken_ authContext)) in
  let blob := Buffer.toString_hex (drawn_iv w) +:+ ":" +:+ createCipher (encryptionKey self) text in
  exists w',
    storeToken createCipher JSON_stringify self userId clientId accessToken_ authContext now w
    = (Normal tt, w')
    /\ faults w' = []
    /\ redis w' !! generateAccessTokenKey userId clientId
       = Some {| val := VString blob;
                 expireAt := Some (now + ttl_seconds authContext now * 1000) |}.
Proof.
  intros Hf text blob. unfold storeToken, try_catch, bind.
  fold (record_of userId clientId accessToken_ authContext).
  rewrite StoredTokenSchema_round_trip. unfold lift at 1. cbv iota beta.
  unfold encrypt, bind, randomBytes, ret. cbv iota beta.
  fold (drawn_iv w). fold text. fold blob. fold (ttl_seconds authContext now).
  rewrite redis_call_reachable by exact Hf.
  unfold SETEX at 1.
  assert (Httl : (ttl_seconds authContext now <=? 0) = false).
  { apply Z.leb_gt. unfold ttl_seconds. lia. }
  rewrite Httl. cbv iota beta.
  destruct (or_else_empty (OAuthClient.refresh_token accessToken_)) as [rt|].
  - rewrite redis_call_reachable by reflexivity. unfold SETEX.
    assert (Httl' : (ttl_seconds authContext now + 24 * 60 * 60 <=? 0) = false).
    { apply Z.leb_gt. unfold ttl_seconds. lia. }
    rewrite Httl'. cbv iota beta. unfold logger.
    eexists. split; [reflexivity|]. split; [reflexivity|].
    cbn [redis set_redis set_faults set_drawn set_log].
    rewrite lookup_insert_ne by apply token_keys_differ.
    apply lookup_insert_eq.
  - unfold logger. eexists. split; [reflexivity|]. split; [reflexivity|].
    cbn [redis set_redis set_faults set_drawn set_log]. apply lookup_insert_eq.
Qed.

Lemma iv_hex_not_empty (w : World) :
  is_empty (Buffer.toString_hex (drawn_iv w)) = false.
Proof. reflexivity. Qed.

Lemma blob_not_empty (w : World) (rest : string) :
  or_else_empty (Some (Buffer.toString_hex (drawn_iv w) +:+ rest))
  = Some (Buffer.toString_hex (drawn_iv w) +:+ rest).
Proof. reflexivity. Qed.

Lemma is_empty_false (s : string) : s <> EmptyString -> is_empty s = false.
Proof. destruct s; [intros H; now destruct H | reflexivity]. Qed.

(** The reply to [GET] when the store is reachable and holds a string
    under the access-token key. *)
Lemma stored_blob_reachable (userId clientId : string) (now : Z) (w : World)
    (blob : string) (deadline : Z) :
  faults w = [] ->
  redis w !! generateAccessTokenKey userId clientId
  = Some {| val := VString blob; expireAt := Some deadline |} ->
  stored_blob userId clientId now w
  = Normal (if now <? deadline then Some blob else None).
Proof.
  intros Hf Hlookup. unfold stored_blob.
  rewrite redis_call_reachable by exact Hf.
  unfold GET, lookup_live. rewrite Hlookup. unfold live. cbn [expireAt].
  now destruct (now <? deadline).
Qed.

(** A blob that [encrypt] made reads back as the record, when the cipher
    and the JSON text can be inverted at it. *)
Lemma read_record_encrypted (self : TokenStorage) (w : World) (record : StoredToken) :
  let text := JSON_stringify (StoredToken_value record) in
  let body := createCipher (encryptionKey self) text in
  body <> EmptyString ->
  all_chars no_colon body = true ->
  createDecipher (encryptionKey self) body = Normal text ->
  JSON_parse text = Normal (StoredToken_value record) ->
  read_record self (Buffer.toString_hex (drawn_iv w) +:+ ":" +:+ body) = Normal record.
Proof.
  intros text body Hbody Hcolon Hdecipher Hparse.
  unfold read_record, decrypt.
  rewrite split_one_colon by (apply toString_hex_no_colon || exact Hcolon).
  rewrite iv_hex_not_empty, (is_empty_false body Hbody).
  cbn [orb]. rewrite Hdecipher, Hparse.
  apply StoredTokenSchema_round_trip.
Qed.

(** C5.  Store a record and read it back, the store being reachable, the
    cipher and the JSON text of the record being invertible at this record.
    The write succeeds.  A read before the key's time to live has run out,
    and while [expiresAt] is still ahead of the clock, returns the record:
    the fields of the token response and of the context that [storeToken]
    keeps, unchanged.  A read once the time to live has run out returns
    [null]; so does a read within the time to live once [expiresAt] has
    passed, which the floor of 60 seconds on the time to live allows. *)
Theorem store_then_get_round_trip (self : TokenStorage) (userId clientId : string)
    (accessToken_ : OAuthClient.AccessToken) (authContext : AuthMiddleware.AuthContext)
    (stored_at read_at : Z) (w : World) :
  let record := record_of userId clientId accessToken_ authContext in
  let text := JSON_stringify (StoredToken_value record) in
  let body := createCipher (encryptionKey self) text in
  let ttl := ttl_seconds authContext stored_at in
  let stored :=
    storeToken createCipher JSON_stringify self userId clientId accessToken_
      authContext stored_at w in
  let read := getToken createDecipher JSON_parse self userId clientId read_at stored.2 in
  faults w = [] ->
  body <> EmptyString ->
  all_chars no_colon body = true ->
  createDecipher (encryptionKey self) body = Normal text ->
  JSON_parse text = Normal (StoredToken_value record) ->
  stored.1 = Normal tt
  /\ (read_at < stored_at + ttl * 1000 ->
      floor_div read_at 1000 < AuthMiddleware.expiresAt authContext ->
      read.1 = Normal (Some record))
  /\ (stored_at + ttl * 1000 <= read_at -> read.1 = Normal None)
  /\ (read_at < stored_at + ttl * 1000 ->
      AuthMiddleware.expiresAt authContext <= floor_div read_at 1000 ->
      read.1 = Normal None).
Proof.
  intros record text body ttl stored read Hf Hbody Hcolon Hdecipher Hparse.
  destruct (storeToken_reachable self userId clientId accessToken_ authContext
              stored_at w Hf) as (w' & Hstore & Hf' & Hlookup).
  subst read stored ttl body text. fold record in Hlookup.
  rewrite Hstore. cbn [fst snd].
  split; [reflexivity|].
  pose proof (getToken_outcome self userId clientId read_at w') as Hget.
  cbv zeta in Hget.
  rewrite (stored_blob_reachable _ _ _ _ _ _ Hf' Hlookup) in Hget.
  split; [|split].
  - intros Hlive Hfresh. apply Z.ltb_lt in Hlive. rewrite Hlive in Hget.
    rewrite blob_not_empty in Hget.
    rewrite (read_record_encrypted self w record Hbody Hcolon Hdecipher Hparse) in Hget.
    assert (Hexp : (expiresAt record <=? floor_div read_at 1000) = false).
    { apply Z.leb_gt. exact Hfresh. }
    rewrite Hexp in Hget. exact Hget.
  - intros Hdead. apply Z.ltb_ge in Hdead. rewrite Hdead in Hget. exact Hget.
  - intros Hlive Hstale. apply Z.ltb_lt in Hlive. rewrite Hlive in Hget.
    rewrite blob_not_empty in Hget.
    rewrite (read_record_encrypted self w record Hbody Hcolon Hdecipher Hparse) in Hget.
    assert (Hexp : (expiresAt record <=? floor_div read_at 1000) = true).
    { apply Z.leb_le. exact Hstale. }
    rewrite Hexp in Hget. apply Hget.
Qed.

End WithCryptoAndJSON.

End TokenStorageFacts.

(** *** A sample round trip *)

Module RoundTripSample.
Import TokenStorage TokenStorageFacts.

Definition storage : TokenStorage.TokenStorage :=
  {| encryptionKey := "0123456789abcdef0123456789abcdef" |}.

Definition sample_token : OAuthClient.AccessToken :=
  {| OAuthClient.access_token := "tok1";
     OAuthClient.token_type := "Bearer";
     OAuthClient.expires_in := 3600;
     OAuthClient.refresh_token := Some "ref1";
     OAuthClient.scope := Some "read:earnings" |}.

Definition sample_context : AuthMiddleware.AuthContext :=
  {| AuthMiddleware.userId := "u1";
     AuthMiddleware.scopes := ["read:earnings"];
     AuthMiddleware.tokenType := "Bearer";
     AuthMiddleware.issuedAt := 1700000000;
     AuthMiddleware.expiresAt := 1700003600;
     AuthMiddleware.clientId := "c1";
     AuthMiddleware.email := None;
     AuthMiddleware.name := None |}.

Definition sample_record : StoredToken :=
  record_of "u1" "c1" sample_token sample_context.

(** Stand-ins for the libraries, good for the sample record only: the text
    of the record, a cipher that prints the bytes of the text in hex, and
    their inverses at that one text. *)
Definition sample_text : string :=
  "{accessToken:tok1,refreshToken:ref1,tokenType:Bearer,expiresAt:1700003600,scopes:[read:earnings],clientId:c1,userId:u1}".

Definition toy_stringify (v : json) : string := sample_text.

Definition toy_parse (s : string) : Completion json :=
  if String.eqb s sample_text then Normal (StoredToken_value sample_record)
  else Throw (SyntaxError "Unexpected token").

Definition toy_cipher (key text : string) : string :=
  Buffer.toString_hex (list_byte_of_string text).

Definition toy_decipher (key data : string) : Completion string :=
  if String.eqb data (toy_cipher key sample_text) then Normal sample_text
  else Throw (Error "bad decrypt").

Lemma store_then_get_round_trip_witness :
  (getToken toy_decipher toy_parse storage "u1" "c1" 1700000030000
     (storeToken toy_cipher toy_stringify storage "u1" "c1" sample_token
        sample_context 1700000000000 empty_store).2).1
  = Normal (Some sample_record).
Proof.
  apply (store_then_get_round_trip toy_cipher toy_decipher toy_stringify toy_parse
           storage "u1" "c1" sample_token sample_context
           1700000000000 1700000030000 empty_store).
  - reflexivity.
  - discriminate.
  - vm_compute. reflexivity.
  - vm_compute. reflexivity.
  - vm_compute. reflexivity.
  - vm_compute. reflexivity.
  - vm_compute. reflexivity.
Defined.

End RoundTripSample.

(** ** Base64 *)

Module Base64Facts.
Import Buffer OAuthClient.
Local Open Scope N_scope.

Ltac div_lia := zify; Z.to_euclidean_division_equations; lia.

(** The 6-bit groups of a buffer, as [toString('base64')] cuts them. *)
Fixpoint sextets (buffer : list byte) : list N :=
  match buffer with
  | [] => []
  | [a] =>
      let a := Byte.to_N a in
      [a / 4; a mod 4 * 16]
  | [a; b] =>
      let a := Byte.to_N a in
      let b := Byte.to_N b in
      [a / 4; a mod 4 * 16 + b / 16; b mod 16 * 4]
  | a :: b :: c :: rest =>
      let a := Byte.to_N a in
      let b := Byte.to_N b in
      let c := Byte.to_N c in
      a / 4 :: (a mod 4 * 16 + b / 16) :: (b mod 16 * 4 + c / 64) :: c mod 64
        :: sextets rest
  end.

(** A character after the two replacements of [base64URLEncode]. *)
Definition url_of (c : ascii) : ascii :=
  let c1 := if Ascii.eqb c "+" then "-"%char else c in
  if Ascii.eqb c1 "/" then "_"%char else c1.

Definition url_char (sextet : N) : ascii := url_of (base64_char sextet).

(** The characters [A-Z a-z 0-9 - _]. *)
Definition is_base64url (c : ascii) : bool :=
  let n := N_of_ascii c in
  ((65 <=? n) && (n <=? 90)) || ((97 <=? n) && (n <=? 122))
  || ((48 <=? n) && (n <=? 57)) || (n =? 45) || (n =? 95).

Definition range64 : list N := map N.of_nat (seq 0 64).

Lemma below_64 (P : N -> bool) :
  forallb P range64 = true -> forall s, s < 64 -> P s = true.
Proof.
  intros H s Hs. rewrite forallb_forall in H. apply H.
  unfold range64. apply in_map_iff. exists (N.to_nat s).
  split; [apply N2Nat.id | apply in_seq; lia].
Qed.

Lemma url_char_not_padding (s : N) :
  s < 64 -> Ascii.eqb (url_char s) "=" = false.
Proof.
  intros Hs. apply negb_true_iff.
  now apply (below_64 (fun s => negb (Ascii.eqb (url_char s) "="))).
Qed.

Lemma url_char_in_alphabet (s : N) : s < 64 -> is_base64url (url_char s) = true.
Proof. now apply (below_64 (fun s => is_base64url (url_char s))). Qed.

Lemma url_char_inj (s1 s2 : N) :
  s1 < 64 -> s2 < 64 -> url_char s1 = url_char s2 -> s1 = s2.
Proof.
  intros H1 H2 Heq.
  pose proof (below_64
                (fun i => forallb
                            (fun j => implb (Ascii.eqb (url_char i) (url_char j)) (i =? j))
                            range64)
                ltac:(vm_compute; reflexivity) s1 H1) as H.
  cbv beta in H.
  pose proof (below_64 _ H s2 H2) as H'. cbv beta in H'.
  rewrite Heq, Ascii.eqb_refl in H'. now apply N.eqb_eq.
Qed.

(** The three passes of [base64URLEncode] over one character. *)
Lemma base64URLEncode_String (c : ascii) (rest : string) :
  remove_all "=" (replace_all "/" "_" (replace_all "+" "-" (String c rest)))
  = if Ascii.eqb (url_of c) "="
    then remove_all "=" (replace_all "/" "_" (replace_all "+" "-" rest))
    else String (url_of c)
           (remove_all "=" (replace_all "/" "_" (replace_all "+" "-" rest))).
Proof. reflexivity. Qed.

Lemma list_ind3 {A} (P : list A -> Prop) :
  P [] -> (forall a, P [a]) -> (forall a b, P [a; b]) ->
  (forall a b c rest, P rest -> P (a :: b :: c :: rest)) ->
  forall l, P l.
Proof.
  intros H0 H1 H2 H3. fix IH 1.
  intros [|a [|b [|c rest]]];
    [exact H0 | apply H1 | apply H2 | apply H3, IH].
Qed.

Lemma sextets_bounded (buffer : list byte) : Forall (fun s => s < 64) (sextets buffer).
Proof.
  induction buffer as [|a|a b|a b c rest IH] using list_ind3; cbn [sextets].
  - constructor.
  - pose proof (Byte.to_N_bounded a). repeat constructor; div_lia.
  - pose proof (Byte.to_N_bounded a). pose proof (Byte.to_N_bounded b).
    repeat constructor; div_lia.
  - pose proof (Byte.to_N_bounded a). pose proof (Byte.to_N_bounded b).
    pose proof (Byte.to_N_bounded c).
    repeat (constructor; [div_lia|]). exact IH.
Qed.

Lemma url_of_sextet (s : N) (rest : string) :
  s < 64 ->
  (if Ascii.eqb (url_of (base64_char s)) "=" then rest
   else String (url_of (base64_char s)) rest)
  = String (url_char s) rest.
Proof. intros Hs. fold (url_char s). now rewrite url_char_not_padding. Qed.

(** [base64URLEncode] writes one character of the URL alphabet for each
    6-bit group, and nothing else. *)
Lemma base64URLEncode_sextets (buffer : list byte) :
  base64URLEncode buffer = string_of_list_ascii (map url_char (sextets buffer)).
Proof.
  pose proof (sextets_bounded buffer) as Hb. revert Hb. unfold base64URLEncode.
  induction buffer as [|a|a b|a b c rest IH] using list_ind3;
    cbn [sextets toString_base64 map string_of_list_ascii]; intros Hb.
  - reflexivity.
  - apply Forall_cons_iff in Hb as [H1 Hb]. apply Forall_cons_iff in Hb as [H2 _].
    rewrite !base64URLEncode_String, !url_of_sextet by assumption. reflexivity.
  - apply Forall_cons_iff in Hb as [H1 Hb]. apply Forall_cons_iff in Hb as [H2 Hb].
    apply Forall_cons_iff in Hb as [H3 _].
    rewrite !base64URLEncode_String, !url_of_sextet by assumption. reflexivity.
  - apply Forall_cons_iff in Hb as [H1 Hb]. apply Forall_cons_iff in Hb as [H2 Hb].
    apply Forall_cons_iff in Hb as [H3 Hb]. apply Forall_cons_iff in Hb as [H4 Hb].
    rewrite !base64URLEncode_String, !url_of_sextet by assumption.
    now rewrite (IH Hb).
Qed.

Lemma length_string_of_list_ascii (l : list ascii) :
  String.length (string_of_list_ascii l) = length l.
Proof. induction l as [|c l IH]; simpl; [reflexivity | now rewrite IH]. Qed.

Lemma sextets_length (buffer : list byte) :
  length (sextets buffer) = ((4 * length buffer + 2) / 3)%nat.
Proof.
  induction buffer as [|a|a b|a b c rest IH] using list_ind3; try reflexivity.
  cbn [sextets length]. rewrite IH.
  replace (4 * S (S (S (length rest))) + 2)%nat
    with (4 * length rest + 2 + 4 * 3)%nat by lia.
  rewrite Nat.div_add by lia. lia.
Qed.

(** The length of the encoding: four characters for three bytes, rounded
    up, without padding. *)
Lemma base64URLEncode_length (buffer : list byte) :
  String.length (base64URLEncode buffer) = ((4 * length buffer + 2) / 3)%nat.
Proof.
  now rewrite base64URLEncode_sextets, length_string_of_list_ascii,
    length_map, sextets_length.
Qed.

Lemma all_chars_string_of_list (p : ascii -> bool) (l : list ascii) :
  all_chars p (string_of_list_ascii l) = forallb p l.
Proof. induction l as [|c l IH]; simpl; [reflexivity | now rewrite IH]. Qed.

Lemma base64URLEncode_alphabet (buffer : list byte) :
  all_chars is_base64url (base64URLEncode buffer) = true.
Proof.
  rewrite base64URLEncode_sextets, all_chars_string_of_list.
  apply forallb_forall. intros c Hc. apply in_map_iff in Hc as (s & <- & Hs).
  apply url_char_in_alphabet.
  pose proof (sextets_bounded buffer) as Hb. rewrite List.Forall_forall in Hb. auto.
Qed.

Lemma byte_to_N_inj (x y : byte) : Byte.to_N x = Byte.to_N y -> x = y.
Proof.
  intros H. pose proof (Byte.of_to_N x) as Hx. rewrite H, Byte.of_to_N in Hx.
  now injection Hx.
Qed.

Lemma map_url_char_inj (l1 l2 : list N) :
  Forall (fun s => s < 64) l1 -> Forall (fun s => s < 64) l2 ->
  map url_char l1 = map url_char l2 -> l1 = l2.
Proof.
  intros H1. revert l2. induction H1 as [|s1 l1 Hs1 _ IH]; intros l2 H2 Heq.
  - now destruct l2.
  - destruct H2 as [|s2 l2 Hs2 H2]; [discriminate|].
    injection Heq as Hc Hrest.
    f_equal; [now apply url_char_inj | now apply IH].
Qed.

Lemma div_mod_eq (n n' k : N) :
  k <> 0 -> n / k = n' / k -> n mod k = n' mod k -> n = n'.
Proof.
  intros Hk Hd Hm. rewrite (N.div_mod n k Hk), (N.div_mod n' k Hk). congruence.
Qed.

(** Two digits in one 6-bit group: the high digit scaled by [k], the low
    digit below [k]. *)
Lemma digits_eq (k hi lo hi' lo' : N) :
  lo < k -> lo' < k -> hi * k + lo = hi' * k + lo' -> hi = hi' /\ lo = lo'.
Proof.
  intros Hlo Hlo' H. rewrite !(N.mul_comm _ k) in H.
  now apply (N.div_mod_unique k).
Qed.

Lemma scaled_eq (k x y : N) : k <> 0 -> x * k = y * k -> x = y.
Proof. intros Hk H. now apply N.mul_cancel_r in H. Qed.

Lemma byte_high_bounds (x : byte) : Byte.to_N x / 16 < 16 /\ Byte.to_N x / 64 < 4.
Proof. pose proof (Byte.to_N_bounded x). split; div_lia. Qed.

Lemma sextets_inj (b1 b2 : list byte) :
  length b1 = length b2 -> sextets b1 = sextets b2 -> b1 = b2.
Proof.
  revert b2.
  induction b1 as [|a|a b|a b c rest IH] using list_ind3;
    intros [|a' [|b' [|c' rest']]] Hlen; try discriminate Hlen;
    cbn [sextets]; intros Heq.
  - reflexivity.
  - injection Heq as H1 H2.
    apply scaled_eq in H2; [|lia].
    f_equal. apply byte_to_N_inj. now apply (div_mod_eq _ _ 4).
  - injection Heq as H1 H2 H3.
    apply digits_eq in H2 as [H2 H2']; [|apply byte_high_bounds..].
    apply scaled_eq in H3; [|lia].
    f_equal; [|f_equal]; apply byte_to_N_inj.
    + now apply (div_mod_eq _ _ 4).
    + now apply (div_mod_eq _ _ 16).
  - injection Heq as H1 H2 H3 H4 Hrest.
    apply digits_eq in H2 as [H2 H2']; [|apply byte_high_bounds..].
    apply digits_eq in H3 as [H3 H3']; [|apply byte_high_bounds..].
    f_equal; [|f_equal; [|f_equal]]; try apply byte_to_N_inj.
    + now apply (div_mod_eq _ _ 4).
    + now apply (div_mod_eq _ _ 16).
    + now apply (div_mod_eq _ _ 64).
    + apply IH; [simpl in Hlen; lia | exact Hrest].
Qed.

(** Buffers of one length with one encoding are one buffer. *)
Lemma base64URLEncode_inj (b1 b2 : list byte) :
  length b1 = length b2 -> base64URLEncode b1 = base64URLEncode b2 -> b1 = b2.
Proof.
  intros Hlen Heq. rewrite !base64URLEncode_sextets in Heq.
  apply (f_equal list_ascii_of_string) in Heq.
  rewrite !list_ascii_of_string_of_list_ascii in Heq.
  apply sextets_inj; [exact Hlen|].
  apply map_url_char_inj; auto using sextets_bounded.
Qed.

End Base64Facts.

(** ** OAuthClient.generatePKCE *)

Module PKCEFacts.
Import OAuthClient Base64Facts.

Definition is_ascii (c : ascii) : bool := (N_of_ascii c <? 128)%N.

(** The random bytes that [generatePKCE] draws in the world [w]: 32 for the
    verifier, then 16 for the state. *)
Definition verifier_bytes (w : World) : list byte :=
  map (entropy w) (seq (drawn w) 32).

Definition state_bytes (w : World) : list byte :=
  map (entropy w) (seq (drawn w + 32) 16).

Lemma all_chars_impl (p q : ascii -> bool) (s : string) :
  (forall c, p c = true -> q c = true) ->
  all_chars p s = true -> all_chars q s = true.
Proof.
  intros Hpq. induction s as [|c s IH]; simpl; [reflexivity|].
  intros H. apply andb_true_iff in H as [Hc Hs].
  now rewrite (Hpq c Hc), (IH Hs).
Qed.

Lemma base64url_is_ascii (c : ascii) : is_base64url c = true -> is_ascii c = true.
Proof.
  unfold is_base64url, is_ascii. cbv zeta. intros H. apply N.ltb_lt.
  repeat (apply orb_true_iff in H as [H|H]);
    repeat (apply andb_true_iff in H as [? H]);
    repeat match goal with
           | H : (_ <=? _)%N = true |- _ => apply N.leb_le in H
           | H : (_ =? _)%N = true |- _ => apply N.eqb_eq in H
           end; lia.
Qed.

(** A string of ASCII characters is its own UTF-8 encoding. *)
Lemma utf8_ascii (s : string) :
  all_chars is_ascii s = true -> utf8 s = list_byte_of_string s.
Proof.
  induction s as [|c s IH]; [reflexivity|].
  cbn [all_chars utf8]. unfold is_ascii at 1. intros H.
  apply andb_true_iff in H as [Hc Hs]. rewrite Hc, (IH Hs). reflexivity.
Qed.




Section WithSha256.

Variable sha256 : list byte -> list byte.

(** A SHA-256 digest has 32 bytes. *)
Hypothesis sha256_length : forall input, length (sha256 input) = 32%nat.

(** What [generatePKCE] builds from the bytes it draws. *)
Definition pkce_of (w : World) : PKCE :=
  {| code_verifier := base64URLEncode (verifier_bytes w);
     code_challenge := base64URLEncode (sha256 (utf8 (base64URLEncode (verifier_bytes w))));
     code_challenge_method := S256;
     state := base64URLEncode (state_bytes w) |}.



End WithSha256.

(** A stand-in for SHA-256 with digests of the right length. *)
Definition toy_sha256 (input : list byte) : list byte :=
  map (fun i => nth i input x00) (seq 0 32).

Definition sample_client : OAuthClient :=
  {| config :=
       {| clientId := "financial-data-server";
          clientSecret := "s3cret";
          issuerUrl := "https://auth.example.com";
          redirectUri := "https://app.example.com/callback";
          scopes := ["read:financial-data"];
          tokenEndpoint := None;
          authorizationEndpoint := None;
          userinfoEndpoint := None;
          jwksUri := None |} |}.


End PKCEFacts.

(** ** OAuthClient.exchangeCodeForToken *)

Module ExchangeFacts.
Import OAuthClient PKCEFacts.

(** The token request of an authorization-code exchange. *)
Definition token_request (self : OAuthClient) (code codeVerifier : string)
  : HttpRequest :=
  {| url := default (issuerUrl (config self) +:+ "/oauth2/token")
                    (or_else_empty (tokenEndpoint (config self)));
     form := [("grant_type", "authorization_code"); ("code", code);
              ("redirect_uri", redirectUri (config self));
              ("client_id", clientId (config self));
              ("code_verifier", codeVerifier)];
     username := clientId (config self);
     password := clientSecret (config self) |}.

(** An authorization server that grants every request. *)
Definition granting_server : World :=
  {| redis := ∅; faults := [];
     entropy := entropy empty_store; drawn := 0;
     remote := fun _ =>
                 Http2xx (JObj [("access_token", JStr "tok1");
                                ("token_type", JStr "Bearer");
                                ("expires_in", JNum 3600)]);
     sent := []; log := [] |}.

(** C3, as stated, fails.  A client generates its PKCE parameters, and the
    exchange is then called with another state than the generated one: the
    token request is sent, and the exchange returns the token. *)
Lemma exchange_proceeds_on_state_mismatch :
  exists pkce token w1 w2,
    generatePKCE toy_sha256 sample_client granting_server = (Normal pkce, w1)
    /\ state pkce <> "forged-state"
    /\ exchangeCodeForToken (fun _ => true) sample_client "AUTHCODE123"
         (code_verifier pkce) "forged-state" w1
       = (Normal token, w2)
    /\ access_token token = "tok1"
    /\ sent w2 = [token_request sample_client "AUTHCODE123" (code_verifier pkce)].
Proof.
  do 4 eexists. split; [vm_compute; reflexivity|].
  split; [cbn [state]; discriminate|].
  split; [vm_compute; reflexivity|].
  split; reflexivity.
Qed.

Section WithUrlSyntax.

Variable is_url : string -> bool.

(** C3, amended.  [exchangeCodeForToken] compares its [state] argument with
    nothing; the client keeps no PKCE state to compare it with.  Whatever
    the state, the call returns or throws the same, sends the same
    requests, and leaves the same store; the state only goes into a debug
    log entry.  The token request is sent whenever the configured redirect
    URI passes the request schema. *)
Theorem exchange_does_not_depend_on_state (self : OAuthClient)
    (code codeVerifier state1 state2 : string) (w : World) :
  let run1 := exchangeCodeForToken is_url self code codeVerifier state1 w in
  let run2 := exchangeCodeForToken is_url self code codeVerifier state2 w in
  run1.1 = run2.1
  /\ sent run1.2 = sent run2.2
  /\ redis run1.2 = redis run2.2
  /\ (is_url (redirectUri (config self)) = true ->
      sent run1.2 = sent w ++ [token_request self code codeVerifier]).
Proof.
  cbv zeta.
  unfold exchangeCodeForToken, TokenRequestSchema_parse_code_grant, bind, lift,
    try_catch.
  destruct (is_url (redirectUri (config self))).
  2: { repeat split; try reflexivity. discriminate. }
  fold (token_request self code codeVerifier).
  unfold logger, http_post. cbn [remote sent set_log set_sent].
  destruct (remote w (token_request self code codeVerifier)) as [data|data|].
  - destruct (AccessTokenSchema_parse data) as [token|e].
    + repeat split; intros; reflexivity.
    + destruct e as [m|m|m|m|m [response|]|m|m|m];
        repeat split; intros; reflexivity.
  - repeat split; intros; reflexivity.
  - repeat split; intros; reflexivity.
Qed.

End WithUrlSyntax.

End ExchangeFacts.

(* ================================================================== *)
(** * Part III.  Properties of the further methods                      *)
(* ================================================================== *)

(** ** Which keys a call touches *)

Module FrameFacts.
Import Redis.

(** A command that leaves every key but [key] as it was. *)
Definition touches_only {A} (key : string) (cmd : M db A) : Prop :=
  forall (d : db) (k : string), k <> key -> (cmd d).2 !! k = d !! k.

Lemma touches_only_bind {A B} (key : string) (c : M db A) (f : A -> M db B) :
  touches_only key c -> (forall a, touches_only key (f a)) ->
  touches_only key (bind c f).
Proof.
  intros Hc Hf d k Hk. unfold bind. specialize (Hc d k Hk).
  destruct (c d) as [[a|e] d1]; cbn [snd] in *; [|exact Hc].
  now rewrite (Hf a d1 k Hk).
Qed.

Lemma touches_only_ret {A} (key : string) (a : A) : touches_only key (ret a : M db A).
Proof. now intros d k _. Qed.

Lemma ZREMRANGEBYSCORE_touches (t : Z) (key : string) (max : Z) :
  touches_only key (ZREMRANGEBYSCORE t key max).
Proof.
  intros d k Hk. unfold ZREMRANGEBYSCORE.
  destruct (lookup_live t key d) as [e|]; [|reflexivity].
  destruct (val e); [reflexivity|]. cbn [snd]. case_decide.
  - now apply lookup_delete_ne.
  - now apply lookup_insert_ne.
Qed.

Lemma ZCARD_touches (t : Z) (key : string) : touches_only key (ZCARD t key).
Proof. intros d k _. unfold ZCARD. now destruct (zset_at t key d). Qed.

Lemma ZADD_touches (t : Z) (key : string) (score : Z) (member : string) :
  touches_only key (ZADD t key score member).
Proof.
  intros d k Hk. unfold ZADD.
  destruct (lookup_live t key d) as [e|]; [destruct (val e)|]; cbn [snd];
    try reflexivity; now apply lookup_insert_ne.
Qed.

Lemma EXPIRE_touches (t : Z) (key : string) (seconds : Z) :
  touches_only key (EXPIRE t key seconds).
Proof.
  intros d k Hk. unfold EXPIRE.
  destruct (lookup_live t key d) as [e|]; [|reflexivity]. cbn [snd].
  destruct (seconds <=? 0); [now apply lookup_delete_ne | now apply lookup_insert_ne].
Qed.

Lemma ZRANGE_first_score_touches (t : Z) (key : string) :
  touches_only key (ZRANGE_first_score t key).
Proof. intros d k _. unfold ZRANGE_first_score. now destruct (zset_at t key d). Qed.

Lemma redis_call_touches {A} (key : string) (cmd : M db A) (w : World) (k : string) :
  touches_only key cmd -> k <> key ->
  redis (redis_call cmd w).2 !! k = redis w !! k.
Proof.
  intros Hcmd Hk. unfold redis_call. specialize (Hcmd (redis w) k Hk).
  destruct (cmd (redis w)) as [r d].
  destruct (faults w) as [|[|] fs]; cbn [snd redis set_redis set_faults] in *;
    auto.
Qed.

Lemma SETEX_touches (t : Z) (key : string) (seconds : Z) (v : string) :
  touches_only key (SETEX t key seconds v).
Proof.
  intros d k Hk. unfold SETEX.
  destruct (seconds <=? 0); [reflexivity | now apply lookup_insert_ne].
Qed.

Lemma GET_touches (t : Z) (key : string) : touches_only key (GET t key).
Proof.
  intros d k _. unfold GET.
  destruct (lookup_live t key d) as [e|]; [destruct (val e)|]; reflexivity.
Qed.

Lemma DEL_touches (t : Z) (key : string) : touches_only key (DEL t key).
Proof.
  intros d k Hk. unfold DEL.
  destruct (lookup_live t key d); now apply lookup_delete_ne.
Qed.

(** A call that leaves the key [k] of the store as it was. *)
Definition keeps {A} (k : string) (c : M World A) : Prop :=
  forall w : World, redis (c w).2 !! k = redis w !! k.

Lemma keeps_ret {A} (k : string) (a : A) : keeps k (ret a).
Proof. now intros w. Qed.

Lemma keeps_throw {A} (k : string) (e : Exn) : keeps k (throw e : M World A).
Proof. now intros w. Qed.

Lemma keeps_lift {A} (k : string) (c : Completion A) : keeps k (lift c).
Proof. now intros w. Qed.

Lemma keeps_logger (k : string) (l : Level) (message : string)
    (ctx : list (string * json)) : keeps k (logger l message ctx).
Proof. now intros w. Qed.

Lemma keeps_randomBytes (k : string) (n : nat) : keeps k (randomBytes n).
Proof. now intros w. Qed.

Lemma keeps_http_post (k : string) (r : HttpRequest) : keeps k (http_post r).
Proof. intros w. unfold http_post. now destruct (remote w r). Qed.

Lemma keeps_redis_call {A} (k key : string) (cmd : M db A) :
  touches_only key cmd -> k <> key -> keeps k (redis_call cmd).
Proof. intros Hcmd Hk w. now apply (redis_call_touches key). Qed.

Lemma keeps_bind {A B} (k : string) (c : M World A) (f : A -> M World B) :
  keeps k c -> (forall a, keeps k (f a)) -> keeps k (bind c f).
Proof.
  intros Hc Hf w. unfold bind. specialize (Hc w).
  destruct (c w) as [[a|e] w1]; cbn [snd] in *; [|exact Hc].
  now rewrite (Hf a w1).
Qed.

Lemma keeps_try_catch {A} (k : string) (body : M World A) (handler : Exn -> M World A) :
  keeps k body -> (forall e, keeps k (handler e)) -> keeps k (try_catch body handler).
Proof.
  intros Hb Hh w. unfold try_catch. specialize (Hb w).
  destruct (body w) as [[a|e] w1]; cbn [snd] in *; [exact Hb|].
  now rewrite (Hh e w1).
Qed.

Lemma keeps_promise_all2 {A B} (k : string) (a : M World A) (b : M World B) :
  keeps k a -> keeps k b -> keeps k (TokenStorage.promise_all2 a b).
Proof.
  intros Ha Hb w. unfold TokenStorage.promise_all2. specialize (Ha w).
  destruct (a w) as [ra w1]. specialize (Hb w1). destruct (b w1) as [rb w2].
  cbn [snd] in *. destruct ra, rb; cbn [snd]; congruence.
Qed.

End FrameFacts.

(** ** Keys made of parts between colons *)

Module KeyFacts.
Import TokenStorageFacts.

Lemma colon_separated_inj (a a' rest rest' : string) :
  all_chars no_colon a = true -> all_chars no_colon a' = true ->
  a +:+ ":" +:+ rest = a' +:+ ":" +:+ rest' -> a = a' /\ rest = rest'.
Proof.
  revert a'. induction a as [|c a IH]; intros [|c' a'] Ha Ha' H.
  - now injection H.
  - exfalso. change (String ":" rest = String c' (a' +:+ ":" +:+ rest')) in H.
    injection H as <- _. cbn in Ha'. discriminate Ha'.
  - exfalso. change (String c (a +:+ ":" +:+ rest) = String ":" rest') in H.
    injection H as -> _. cbn in Ha. discriminate Ha.
  - change (String c (a +:+ ":" +:+ rest) = String c' (a' +:+ ":" +:+ rest')) in H.
    injection H as -> H.
    cbn in Ha, Ha'. apply andb_true_iff in Ha as [_ Ha], Ha' as [_ Ha'].
    destruct (IH a' Ha Ha' H) as [-> ->]. auto.
Qed.

Lemma append_cancel (p a b : string) : p +:+ a = p +:+ b -> a = b.
Proof.
  induction p as [|c p IH]; [auto|].
  change (String c (p +:+ a) = String c (p +:+ b) -> a = b).
  intros [= H]. auto.
Qed.

End KeyFacts.

(** ** RateLimiter: results, resets, tiers and keys *)

Module RateLimiterVerdicts.
Import Redis RedisFacts RateLimiter RuntimeFacts RateLimiterFacts RateLimiterPolicies
  FrameFacts KeyFacts TokenStorageFacts.

(** *** The reply of the script, in full *)

Lemma script_cases (t : Z) (key : string) (ws now max win : Z) (d : db) :
  match zset_at t key d with
  | None => script t key ws now max win d = (Throw WRONGTYPE, d)
  | Some m =>
      let n := Z.of_nat (size (in_window ws m)) in
      exists d',
        script t key ws now max win d
        = (Normal (if n <? max
                   then [1; n + 1; max - n - 1; now + win]
                   else [0; n; 0;
                         match min_score (in_window ws m) with
                         | Some score => score + win
                         | None => now + win
                         end]), d')
  end.
Proof.
  destruct (zset_at t key d) as [m|] eqn:Hm; [|now apply script_wrongtype].
  intros n.
  destruct (ZREMRANGEBYSCORE_window t key ws d m Hm) as (r & d1 & H1 & Hz).
  unfold script, bind. rewrite H1. unfold ZCARD at 1. rewrite Hz. fold n.
  destruct (n <? max).
  - destruct (ZADD_normal t key now (pretty now) d1 _ Hz) as (r2 & d2 & ->).
    destruct (EXPIRE_normal t key (ceil_div win 1000) d2) as (r3 & d3 & ->).
    now eexists.
  - unfold ZRANGE_first_score. rewrite Hz. now eexists.
Qed.

(** The result that [checkRateLimit] builds from the script's reply. *)
Definition result_of_reply (cfg : RateLimitConfig) (now : Z) (reply : list Z)
  : RateLimitResult :=
  let is_allowed := bool_decide (reply !! 0%nat = Some 1) in
  {| allowed := is_allowed;
     limit := maxRequests cfg;
     current := or_default (reply !! 1%nat) 0;
     remaining := or_default (reply !! 2%nat) 0;
     resetTime := or_default (reply !! 3%nat) (now + windowMs cfg);
     retryAfter :=
       if negb is_allowed && truthy (reply !! 3%nat)
       then Some (ceil_div (default 0 (reply !! 3%nat) - now) 1000)
       else None |}.

Lemma checkRateLimit_result_of_reply (self : RateLimiter)
    (userId clientId endpoint : string) (customConfig : option PartialConfig)
    (now : Z) (w : World) (reply : list Z) :
  (eval_script self userId clientId endpoint customConfig now w).1 = Normal reply ->
  (checkRateLimit self userId clientId endpoint customConfig now w).1
  = Normal (result_of_reply (spread (defaultConfig self) customConfig) now reply).
Proof.
  unfold eval_script, checkRateLimit, try_catch, bind. cbv zeta.
  destruct (redis_call _ w) as [[reply'|e'] w']; simpl; [|discriminate].
  now intros [= ->].
Qed.

(** The result of a check that finds [n] members in the window and admits. *)
Definition admitted (cfg : RateLimitConfig) (now n : Z) : RateLimitResult :=
  {| allowed := true;
     limit := maxRequests cfg;
     current := n + 1;
     remaining := maxRequests cfg - n - 1;
     resetTime := now + windowMs cfg;
     retryAfter := None |}.

(** The result of a check that finds [n] members in the window, the oldest
    of score [oldest], and rejects. *)
Definition rejected (cfg : RateLimitConfig) (now n : Z) (oldest : option Z)
  : RateLimitResult :=
  let reset_time := default now oldest + windowMs cfg in
  {| allowed := false;
     limit := maxRequests cfg;
     current := n;
     remaining := 0;
     resetTime := if reset_time =? 0 then now + windowMs cfg else reset_time;
     retryAfter :=
       if reset_time =? 0 then None
       else Some (ceil_div (reset_time - now) 1000) |}.

Lemma result_of_reply_admitted (cfg : RateLimitConfig) (now n : Z) :
  0 <= n ->
  result_of_reply cfg now [1; n + 1; maxRequests cfg - n - 1; now + windowMs cfg]
  = admitted cfg now n.
Proof.
  intros Hn. unfold result_of_reply, admitted. cbn [lookup list_lookup].
  rewrite bool_decide_true by reflexivity. cbn [negb andb].
  unfold or_default.
  destruct (Z.eqb_spec (n + 1) 0); [lia|].
  f_equal.
  - destruct (Z.eqb_spec (maxRequests cfg - n - 1) 0); lia.
  - now destruct (now + windowMs cfg =? 0).
Qed.

Lemma result_of_reply_rejected (cfg : RateLimitConfig) (now n : Z) (oldest : option Z) :
  result_of_reply cfg now
    [0; n; 0; match oldest with
              | Some score => score + windowMs cfg
              | None => now + windowMs cfg
              end]
  = rejected cfg now n oldest.
Proof.
  unfold result_of_reply, rejected. cbn [lookup list_lookup].
  rewrite bool_decide_false by discriminate. cbn [negb andb].
  replace (match oldest with Some score => score + windowMs cfg
                           | None => now + windowMs cfg end)
    with (default now oldest + windowMs cfg) by now destruct oldest.
  set (reset := default now oldest + windowMs cfg).
  unfold or_default, truthy. cbn [default].
  f_equal.
  - now destruct (n =? 0) eqn:H0; [apply Z.eqb_eq in H0|].
  - now destruct (reset =? 0).
Qed.

(** What a check gets to see of the store: nothing when the connection
    fails or the key holds a string, else the sorted set under the key. *)
Definition seen_by_check (now : Z) (key : string) (w : World) : option (gmap string Z) :=
  match head (faults w) with
  | Some true => None
  | _ => zset_at now key (redis w)
  end.

(** The result of a check, by what it sees. *)
Definition verdict (cfg : RateLimitConfig) (now : Z) (seen : option (gmap string Z))
  : RateLimitResult :=
  match seen with
  | None => fail_open cfg now
  | Some m =>
      let n := Z.of_nat (size (in_window (now - windowMs cfg) m)) in
      if n <? maxRequests cfg then admitted cfg now n
      else rejected cfg now n (min_score (in_window (now - windowMs cfg) m))
  end.

Lemma checkRateLimit_verdict (self : RateLimiter) (userId clientId endpoint : string)
    (customConfig : option PartialConfig) (now : Z) (w : World) :
  (checkRateLimit self userId clientId endpoint customConfig now w).1
  = Normal (verdict (spread (defaultConfig self) customConfig) now
              (seen_by_check now (generateKey userId clientId endpoint) w)).
Proof.
  set (cfg := spread (defaultConfig self) customConfig).
  set (key := generateKey userId clientId endpoint).
  pose proof (eval_script_run self userId clientId endpoint customConfig now w) as Hrun.
  cbv zeta in Hrun. fold cfg key in Hrun. unfold seen_by_check.
  pose proof (script_cases now key (now - windowMs cfg) now (maxRequests cfg)
                (windowMs cfg) (redis w)) as Hs.
  assert (Hopen : forall e,
             (eval_script self userId clientId endpoint customConfig now w).1 = Throw e ->
             (checkRateLimit self userId clientId endpoint customConfig now w).1
             = Normal (fail_open cfg now)).
  { intros e. apply checkRateLimit_catch. }
  assert (Hcount : forall m,
             zset_at now key (redis w) = Some m ->
             (eval_script self userId clientId endpoint customConfig now w).1
             = (script now key (now - windowMs cfg) now (maxRequests cfg)
                  (windowMs cfg) (redis w)).1 ->
             (checkRateLimit self userId clientId endpoint customConfig now w).1
             = Normal (verdict cfg now (Some m))).
  { intros m Hm Heval. rewrite Hm in Hs. cbv zeta in Hs. destruct Hs as [d' Hs].
    rewrite Hs in Heval.
    rewrite (checkRateLimit_result_of_reply _ _ _ _ _ _ _ _ Heval). fold cfg.
    unfold verdict.
    destruct (_ <? maxRequests cfg).
    - rewrite result_of_reply_admitted by lia. reflexivity.
    - now rewrite result_of_reply_rejected. }
  destruct (faults w) as [|[|] fs]; cbn [head].
  - destruct (zset_at now key (redis w)) as [m|] eqn:Hm; [now apply Hcount|].
    rewrite Hs in Hrun. now apply (Hopen WRONGTYPE).
  - now apply (Hopen (RedisError "The client is closed")).
  - destruct (zset_at now key (redis w)) as [m|] eqn:Hm; [now apply Hcount|].
    rewrite Hs in Hrun. now apply (Hopen WRONGTYPE).
Qed.

(** X3.  [checkRateLimit] always returns: [limit] is [maxRequests]; an
    admitting result carries no [retryAfter] and its [current] and
    [remaining] add up to the limit; a rejecting result has nothing
    remaining and a [current] that has reached the limit. *)
Theorem checkRateLimit_result_shape (self : RateLimiter)
    (userId clientId endpoint : string) (customConfig : option PartialConfig)
    (now : Z) (w : World) :
  let cfg := spread (defaultConfig self) customConfig in
  exists r,
    (checkRateLimit self userId clientId endpoint customConfig now w).1 = Normal r
    /\ limit r = maxRequests cfg
    /\ (if allowed r
        then retryAfter r = None
             /\ current r + remaining r = maxRequests cfg
             /\ 0 <= current r
        else remaining r = 0 /\ maxRequests cfg <= current r).
Proof.
  intros cfg. rewrite checkRateLimit_verdict. fold cfg. clearbody cfg.
  eexists. split; [reflexivity|].
  destruct (seen_by_check _ _ _) as [m|]; cbn [verdict].
  - set (n := Z.of_nat _).
    assert (Hn : 0 <= n) by (subst n; lia). clearbody n.
    destruct (Z.ltb_spec n (maxRequests cfg)) as [Hlt|Hge]; cbn.
    + split; [reflexivity|]. split; [reflexivity | lia].
    + split; [reflexivity|]. split; [reflexivity | lia].
  - split; [reflexivity|]. simpl. split; [reflexivity | lia].
Qed.

(** *** The oldest member of a window *)

Lemma foldr_min_In (x : Z) (xs : list Z) : In (foldr Z.min x xs) (x :: xs).
Proof.
  induction xs as [|y ys IH]; [now left|]. cbn [foldr].
  destruct (Z.min_spec y (foldr Z.min x ys)) as [[_ ->]|[_ ->]].
  - right. now left.
  - destruct IH as [IH|IH]; [now left | right; now right].
Qed.

Lemma min_score_member (m : gmap string Z) (score : Z) :
  min_score m = Some score -> exists member, m !! member = Some score.
Proof.
  unfold min_score.
  destruct ((map_to_list m).*2) as [|x xs] eqn:Hl; [discriminate|].
  intros [= <-].
  pose proof (foldr_min_In x xs) as Hin. rewrite <- Hl in Hin.
  apply list_elem_of_In, list_elem_of_fmap in Hin as ([k v] & -> & Hkv).
  exists k. now apply elem_of_map_to_list.
Qed.

Lemma min_score_in_window (ws : Z) (m : gmap string Z) (score : Z) :
  min_score (in_window ws m) = Some score -> ws < score.
Proof.
  intros H. apply min_score_member in H as [k Hk].
  unfold in_window in Hk. apply map_lookup_filter_Some in Hk as [_ Hk]. exact Hk.
Qed.

(** X4.  A rejection tells the caller when to come back.  With a positive
    window and a clock that is not before the epoch, a rejecting result
    carries a [resetTime] after [now] and a [retryAfter] of at least one
    second: the seconds from [now] to [resetTime], rounded up. *)
Theorem rejection_tells_when_to_retry (self : RateLimiter)
    (userId clientId endpoint : string) (customConfig : option PartialConfig)
    (now : Z) (w : World) (r : RateLimitResult) :
  let cfg := spread (defaultConfig self) customConfig in
  0 <= now ->
  0 < windowMs cfg ->
  (checkRateLimit self userId clientId endpoint customConfig now w).1 = Normal r ->
  allowed r = false ->
  now < resetTime r
  /\ retryAfter r = Some (ceil_div (resetTime r - now) 1000)
  /\ 1 <= ceil_div (resetTime r - now) 1000.
Proof.
  intros cfg Hnow Hwin Hr Hrej.
  rewrite checkRateLimit_verdict in Hr. fold cfg in Hr. clearbody cfg.
  injection Hr as <-.
  destruct (seen_by_check _ _ _) as [m|]; cbn [verdict] in *; [|discriminate Hrej].
  set (n := Z.of_nat _) in *.
  destruct (n <? maxRequests cfg); [discriminate Hrej|]. clear Hrej.
  unfold rejected. cbv zeta. cbn [resetTime retryAfter].
  set (reset := default now _ + windowMs cfg).
  assert (Hreset : now < reset).
  { subst reset.
    destruct (min_score _) as [s|] eqn:Hs; cbn [default]; [|lia].
    apply min_score_in_window in Hs. unfold id. lia. }
  clearbody reset.
  destruct (Z.eqb_spec reset 0) as [H0|_]; [lia|].
  split; [exact Hreset|]. split; [reflexivity|].
  unfold ceil_div. Z.to_euclidean_division_equations; lia.
Qed.

Lemma rejection_tells_when_to_retry_witness :
  let now := 1700000000000 in
  let first := checkRateLimit (limiter 1 60000) "u1" "c1" "getEarnings" None now empty_store in
  let r := {| allowed := false; limit := 1; current := 1; remaining := 0;
              resetTime := now + 60000; retryAfter := Some 58 |} in
  (checkRateLimit (limiter 1 60000) "u1" "c1" "getEarnings" None (now + 2500) first.2).1
  = Normal r
  /\ now + 2500 < resetTime r
  /\ retryAfter r = Some (ceil_div (resetTime r - (now + 2500)) 1000)
  /\ 1 <= ceil_div (resetTime r - (now + 2500)) 1000.
Proof.
  intros now first r.
  assert (H : (checkRateLimit (limiter 1 60000) "u1" "c1" "getEarnings" None
                 (now + 2500) first.2).1 = Normal r)
    by (vm_compute; reflexivity).
  split; [exact H|].
  apply (rejection_tells_when_to_retry (limiter 1 60000) "u1" "c1" "getEarnings" None
           (now + 2500) first.2 r); [subst now; lia | cbn; lia | exact H | reflexivity].
Defined.

(** *** Resetting a window *)

Lemma zset_at_lookup (t : Z) (key : string) (d1 d2 : db) :
  d1 !! key = d2 !! key -> zset_at t key d1 = zset_at t key d2.
Proof. intros H. unfold zset_at, lookup_live. now rewrite H. Qed.

Lemma zset_at_deleted (t : Z) (key : string) (d : db) :
  zset_at t key (delete key d) = Some ∅.
Proof. unfold zset_at, lookup_live. now rewrite lookup_delete_eq. Qed.

(** [resetRateLimit] either reaches the store, returns and leaves the
    database without the key of this user, client and endpoint, or it does
    not reach the store, leaves the database as it was and throws
    [Error('Failed to reset rate limit')]. *)
Lemma resetRateLimit_run (self : RateLimiter) (userId clientId endpoint : string)
    (now : Z) (w : World) :
  let run := resetRateLimit self userId clientId endpoint now w in
  match head (faults w) with
  | Some true =>
      run.1 = Throw (Error "Failed to reset rate limit") /\ redis run.2 = redis w
  | _ =>
      run.1 = Normal tt
      /\ redis run.2 = delete (generateKey userId clientId endpoint) (redis w)
  end.
Proof.
  cbv zeta. unfold resetRateLimit, try_catch, bind, redis_call.
  destruct (TokenStorageFacts.DEL_run now (generateKey userId clientId endpoint) (redis w))
    as [n Hdel].
  destruct (faults w) as [|[|] fs]; cbn [head]; rewrite ?Hdel; split; reflexivity.
Qed.

(** X5.  A reset wipes the window.  On a reachable store
    [resetRateLimit] returns and removes the key of this user, client and
    endpoint, and nothing else; the next check for them that reaches the
    store finds an empty window: with a positive limit it admits and counts
    the request as the first. *)
Theorem reset_then_check_admits (self : RateLimiter) (userId clientId endpoint : string)
    (customConfig : option PartialConfig) (reset_at now : Z) (w : World) :
  let cfg := spread (defaultConfig self) customConfig in
  let reset := resetRateLimit self userId clientId endpoint reset_at w in
  faults w = [] ->
  0 < maxRequests cfg ->
  reset.1 = Normal tt
  /\ redis reset.2 = delete (generateKey userId clientId endpoint) (redis w)
  /\ (checkRateLimit self userId clientId endpoint customConfig now reset.2).1
     = Normal {| allowed := true; limit := maxRequests cfg; current := 1;
                 remaining := maxRequests cfg - 1; resetTime := now + windowMs cfg;
                 retryAfter := None |}.
Proof.
  intros cfg reset Hf Hmax.
  pose proof (resetRateLimit_run self userId clientId endpoint reset_at w) as Hreset.
  cbv zeta in Hreset. fold reset in Hreset. rewrite Hf in Hreset. cbn [head] in Hreset.
  destruct Hreset as [Hdone Hredis].
  split; [exact Hdone|]. split; [exact Hredis|].
  rewrite checkRateLimit_verdict. fold cfg.
  assert (Hfaults : faults reset.2 = []).
  { subst reset. unfold resetRateLimit, try_catch, bind.
    rewrite (redis_call_reachable _ w Hf).
    destruct (TokenStorageFacts.DEL_run reset_at (generateKey userId clientId endpoint)
                (redis w)) as [n ->].
    reflexivity. }
  unfold seen_by_check. rewrite Hfaults, Hredis, zset_at_deleted. cbn [head verdict].
  unfold in_window. rewrite map_filter_empty, map_size_empty.
  change (Z.of_nat 0) with 0.
  apply Z.ltb_lt in Hmax. rewrite Hmax. unfold admitted. do 2 f_equal; lia.
Qed.

Lemma reset_then_check_admits_witness :
  let now := 1700000000000 in
  let busy :=
    (checkRateLimit (limiter 1 60000) "u1" "c1" "getEarnings" None now empty_store).2 in
  let after := (resetRateLimit (limiter 1 60000) "u1" "c1" "getEarnings" (now + 10) busy).2 in
  (checkRateLimit (limiter 1 60000) "u1" "c1" "getEarnings" None (now + 20) after).1
  = Normal {| allowed := true; limit := 1; current := 1; remaining := 0;
              resetTime := now + 20 + 60000; retryAfter := None |}.
Proof.
  intros now busy after.
  apply (reset_then_check_admits (limiter 1 60000) "u1" "c1" "getEarnings" None
           (now + 10) (now + 20) busy); [reflexivity | cbn; lia].
Defined.

(** *** Status queries and checks *)

Lemma getRateLimitStatus_reachable (self : RateLimiter)
    (userId clientId endpoint : string) (now : Z) (w : World) :
  faults w = [] ->
  (getRateLimitStatus self userId clientId endpoint now w).1
  = Normal
      match zset_at now (generateKey userId clientId endpoint) (redis w) with
      | None => fail_open (defaultConfig self) now
      | Some m =>
          let n := Z.of_nat (size (in_window (now - windowMs (defaultConfig self)) m)) in
          let left := Z.max 0 (maxRequests (defaultConfig self) - n) in
          {| allowed := 0 <? left;
             limit := maxRequests (defaultConfig self);
             current := n;
             remaining := left;
             resetTime := now + windowMs (defaultConfig self);
             retryAfter := None |}
      end.
Proof.
  intros Hf. unfold getRateLimitStatus, try_catch, bind.
  set (key := generateKey userId clientId endpoint).
  set (ws := now - windowMs (defaultConfig self)).
  rewrite (redis_call_reachable _ w Hf).
  destruct (zset_at now key (redis w)) as [m|] eqn:Hm.
  - destruct (ZREMRANGEBYSCORE_window now key ws (redis w) m Hm) as (r & d1 & -> & Hz).
    rewrite redis_call_reachable by reflexivity.
    cbn [redis set_redis set_faults]. unfold ZCARD. rewrite Hz. reflexivity.
  - rewrite (ZREMRANGEBYSCORE_wrongtype _ _ _ _ Hm). reflexivity.
Qed.

(** X6.  On a store that is reachable, [getRateLimitStatus] reports the
    verdict that [checkRateLimit] with the default configuration gives on
    the same store at the same time: the same [allowed] and [limit]; the
    check counts at most one request more and leaves no more remaining. *)
Theorem status_agrees_with_check (self : RateLimiter)
    (userId clientId endpoint : string) (now : Z) (w : World) :
  faults w = [] ->
  exists s r,
    (getRateLimitStatus self userId clientId endpoint now w).1 = Normal s
    /\ (checkRateLimit self userId clientId endpoint None now w).1 = Normal r
    /\ allowed s = allowed r
    /\ limit s = limit r
    /\ current s <= current r <= current s + 1
    /\ remaining r <= remaining s.
Proof.
  intros Hf.
  rewrite (getRateLimitStatus_reachable _ _ _ _ _ _ Hf), checkRateLimit_verdict.
  unfold seen_by_check. rewrite Hf. cbn [head spread].
  set (cfg := defaultConfig self). clearbody cfg.
  do 2 eexists. split; [reflexivity|]. split; [reflexivity|].
  destruct (zset_at _ _ _) as [m|]; cbn [verdict].
  - set (n := Z.of_nat _).
    assert (Hn : 0 <= n) by (subst n; lia). clearbody n.
    destruct (Z.ltb_spec n (maxRequests cfg)) as [Hlt|Hge]; cbn.
    + split; [apply Z.ltb_lt; lia|]. split; [reflexivity | lia].
    + split; [apply Z.ltb_ge; lia|]. split; [reflexivity | lia].
  - cbn. split; [reflexivity|]. split; [reflexivity | lia].
Qed.

Lemma status_agrees_with_check_witness :
  let now := 1700000000000 in
  let busy :=
    (checkRateLimit (limiter 1 60000) "u1" "c1" "getEarnings" None now empty_store).2 in
  exists s r,
    (getRateLimitStatus (limiter 1 60000) "u1" "c1" "getEarnings" (now + 5) busy).1
    = Normal s
    /\ (checkRateLimit (limiter 1 60000) "u1" "c1" "getEarnings" None (now + 5) busy).1
       = Normal r
    /\ allowed s = allowed r
    /\ limit s = limit r
    /\ current s <= current r <= current s + 1
    /\ remaining r <= remaining s.
Proof.
  intros now busy.
  apply (status_agrees_with_check (limiter 1 60000) "u1" "c1" "getEarnings" (now + 5) busy).
  reflexivity.
Defined.

(** *** Tiers *)

(** The results of a series of [checkUserRateLimit] calls of one user for
    one endpoint, by clock reading, in the order in which Redis runs their
    scripts. *)
Fixpoint serve_user (config : Environment.rateLimitConfig) (self : RateLimiter)
    (authContext : AuthMiddleware.AuthContext) (endpoint : string)
    (userTier : option UserTier) (nows : list Z) (w : World)
  : list (Completion RateLimitResult) :=
  match nows with
  | [] => []
  | now :: rest =>
      let '(r, w') := checkUserRateLimit config self authContext endpoint userTier now w in
      r :: serve_user config self authContext endpoint userTier rest w'
  end.

Lemma serve_user_serve (config : Environment.rateLimitConfig) (self : RateLimiter)
    (authContext : AuthMiddleware.AuthContext) (endpoint : string)
    (userTier : option UserTier) (nows : list Z) (w : World) :
  serve_user config self authContext endpoint userTier nows w
  = serve self (AuthMiddleware.userId authContext) (AuthMiddleware.clientId authContext)
      endpoint (Some (only_maxRequests (tierLimits config (default free userTier))))
      nows w.
Proof.
  revert w. induction nows as [|now rest IH]; intros w; [reflexivity|].
  cbn [serve_user serve]. unfold checkUserRateLimit. cbv zeta.
  destruct (checkRateLimit _ _ _ _ _ _ _) as [r w']. now rewrite IH.
Qed.

(** X7.  The tier sets the quota.  Of the calls of one user for one
    endpoint whose clock readings are pairwise distinct and lie within one
    window of each other, on a reachable store that holds no entry for the
    key, [checkUserRateLimit] admits as many as there are calls, up to
    [perUser] for the free tier (also when no tier is given), five times
    [perUser] for premium and twenty times [perUser] for enterprise. *)
Theorem user_tier_quota (config : Environment.rateLimitConfig)
    (authContext : AuthMiddleware.AuthContext) (endpoint : string)
    (userTier : option UserTier) (nows : list Z) (w : World) :
  let self := new_RateLimiter config in
  let quota :=
    match userTier with
    | None | Some free => Environment.perUser config
    | Some premium => Environment.perUser config * 5
    | Some enterprise => Environment.perUser config * 20
    end in
  faults w = [] ->
  redis w !! generateKey (AuthMiddleware.userId authContext)
               (AuthMiddleware.clientId authContext) endpoint = None ->
  0 < Environment.windowMs config ->
  List.NoDup nows ->
  (forall t t', In t nows -> In t' nows -> t' - Environment.windowMs config < t) ->
  admissions (serve_user config self authContext endpoint userTier nows w)
  = Nat.min (length nows) (Z.to_nat quota).
Proof.
  intros self quota Hf Hnone Hwin Hnodup Hclose.
  rewrite serve_user_serve.
  rewrite (distinct_readings_admit_exactly self (AuthMiddleware.userId authContext)
             (AuthMiddleware.clientId authContext) endpoint
             (Some (only_maxRequests (tierLimits config (default free userTier))))
             nows w Hf Hnone Hwin Hnodup Hclose).
  cbn [spread only_maxRequests maxRequests maxRequests' default from_option id].
  subst quota. now destruct userTier as [[| |]|].
Qed.

Definition sample_settings : Environment.rateLimitConfig :=
  {| Environment.windowMs := 60000; Environment.maxRequests := 100;
     Environment.perUser := 1 |}.

Lemma user_tier_quota_witness :
  let now := 1700000000000 in
  admissions
    (serve_user sample_settings (new_RateLimiter sample_settings)
       RoundTripSample.sample_context "getEarnings" (Some premium)
       [now; now + 1; now + 2; now + 3; now + 4; now + 5; now + 6] empty_store)
  = 5%nat.
Proof.
  intros now.
  apply (user_tier_quota sample_settings RoundTripSample.sample_context "getEarnings"
           (Some premium) [now; now + 1; now + 2; now + 3; now + 4; now + 5; now + 6]
           empty_store).
  - reflexivity.
  - reflexivity.
  - cbn. lia.
  - subst now. repeat (constructor; [cbn; intuition lia|]). constructor.
  - subst now. cbn. intros t t' Ht Ht'. intuition (subst; lia).
Defined.

(** *** What a check touches *)

Lemma script_touches (t : Z) (key : string) (ws now max win : Z) :
  touches_only key (script t key ws now max win).
Proof.
  unfold script.
  apply touches_only_bind; [apply ZREMRANGEBYSCORE_touches|]. intros _.
  apply touches_only_bind; [apply ZCARD_touches|]. intros current.
  destruct (current <? max).
  - apply touches_only_bind; [apply ZADD_touches|]. intros _.
    apply touches_only_bind; [apply EXPIRE_touches|]. intros _.
    apply touches_only_ret.
  - apply touches_only_bind; [apply ZRANGE_first_score_touches|]. intros oldest.
    apply touches_only_ret.
Qed.

(** A check changes no key but its own. *)
Lemma checkRateLimit_touches (self : RateLimiter) (userId clientId endpoint : string)
    (customConfig : option PartialConfig) (now : Z) (w : World) (k : string) :
  k <> generateKey userId clientId endpoint ->
  redis (checkRateLimit self userId clientId endpoint customConfig now w).2 !! k
  = redis w !! k.
Proof.
  intros Hk.
  set (cfg := spread (defaultConfig self) customConfig).
  pose proof (redis_call_touches _ _ w k
                (script_touches now (generateKey userId clientId endpoint)
                   (now - windowMs cfg) now (maxRequests cfg) (windowMs cfg)) Hk) as H.
  unfold checkRateLimit, try_catch, bind. fold cfg.
  destruct (redis_call _ w) as [[reply|e] w1]; exact H.
Qed.

(** *** Keys *)

(** Users and clients whose identifiers hold no colon get keys of their
    own. *)
Lemma generateKey_inj (userId clientId endpoint userId' clientId' endpoint' : string) :
  all_chars no_colon userId = true -> all_chars no_colon clientId = true ->
  all_chars no_colon userId' = true -> all_chars no_colon clientId' = true ->
  generateKey userId clientId endpoint = generateKey userId' clientId' endpoint' ->
  userId = userId' /\ clientId = clientId' /\ endpoint = endpoint'.
Proof.
  intros Hu Hc Hu' Hc' H. unfold generateKey in H.
  apply append_cancel in H.
  apply colon_separated_inj in H as [-> H]; [|assumption..].
  apply colon_separated_inj in H as [-> ->]; [|assumption..].
  auto.
Qed.

(** X8.  One caller's checks do not count against another.  When the user
    and client identifiers hold no colon, a check for one user, client and
    endpoint leaves the result of any later check for a different user,
    client or endpoint as it would have been without it. *)
Theorem rate_limits_are_isolated (self : RateLimiter)
    (userId clientId endpoint userId' clientId' endpoint' : string)
    (customConfig customConfig' : option PartialConfig) (now now' : Z)
    (fs : list bool) (w : World) :
  all_chars no_colon userId = true -> all_chars no_colon clientId = true ->
  all_chars no_colon userId' = true -> all_chars no_colon clientId' = true ->
  (userId, clientId, endpoint) <> (userId', clientId', endpoint') ->
  let after := (checkRateLimit self userId clientId endpoint customConfig now w).2 in
  (checkRateLimit self userId' clientId' endpoint' customConfig' now' (set_faults fs after)).1
  = (checkRateLimit self userId' clientId' endpoint' customConfig' now' (set_faults fs w)).1.
Proof.
  intros Hu Hc Hu' Hc' Hne after.
  rewrite !checkRateLimit_verdict. do 2 f_equal.
  unfold seen_by_check. cbn [faults redis set_faults].
  destruct (head fs) as [[|]|]; [reflexivity | |]; apply zset_at_lookup;
    apply checkRateLimit_touches; intros Hk;
    apply generateKey_inj in Hk as (-> & -> & ->); auto.
Qed.

Lemma rate_limits_are_isolated_witness :
  let now := 1700000000000 in
  let after :=
    (checkRateLimit (limiter 1 60000) "u1" "c1" "getEarnings" None now empty_store).2 in
  (checkRateLimit (limiter 1 60000) "u2" "c1" "getEarnings" None (now + 1)
     (set_faults [] after)).1
  = (checkRateLimit (limiter 1 60000) "u2" "c1" "getEarnings" None (now + 1)
       (set_faults [] empty_store)).1.
Proof.
  intros now after.
  apply (rate_limits_are_isolated (limiter 1 60000) "u1" "c1" "getEarnings"
           "u2" "c1" "getEarnings" None None now (now + 1) [] empty_store);
    try reflexivity.
  discriminate.
Defined.

(** Identifiers with colons can share a key. *)
Lemma generateKey_collision :
  generateKey "u" "c:x" "e" = generateKey "x:u" "c" "e".
Proof. reflexivity. Qed.

(** X9.  The global window is not the callers'.  [checkGlobalRateLimit]
    counts under the key of user [global], client [system] and endpoint
    [global:<endpoint>], with ten times [maxRequests] as its limit; the
    middleware's check for a client whose identifier holds no colon and is
    not [system] leaves the result of any later global check as it would
    have been without it. *)
Theorem global_window_is_separate (config : Environment.rateLimitConfig)
    (customConfig : option PartialConfig) (authContext : AuthMiddleware.AuthContext)
    (endpoint endpoint' : string) (now now' : Z) (fs : list bool) (w : World) :
  let self := new_RateLimiter config in
  all_chars no_colon (AuthMiddleware.clientId authContext) = true ->
  AuthMiddleware.clientId authContext <> "system" ->
  let after := (createMiddleware self customConfig authContext endpoint now w).2 in
  (checkGlobalRateLimit config self endpoint' now' (set_faults fs after)).1
  = (checkGlobalRateLimit config self endpoint' now' (set_faults fs w)).1
  /\ exists r,
       (checkGlobalRateLimit config self endpoint' now' (set_faults fs w)).1 = Normal r
       /\ limit r = Environment.maxRequests config * 10.
Proof.
  intros self Hc Hsys after. split.
  - unfold checkGlobalRateLimit. cbv zeta.
    rewrite !checkRateLimit_verdict. do 2 f_equal.
    unfold seen_by_check. cbn [faults redis set_faults].
    assert (Hafter : redis after
                     = redis (checkRateLimit self (AuthMiddleware.userId authContext)
                                (AuthMiddleware.clientId authContext) endpoint
                                customConfig now w).2).
    { subst after. unfold createMiddleware, bind.
      now destruct (checkRateLimit _ _ _ _ _ _ _) as [[r|e] w1]. }
    rewrite Hafter.
    destruct (head fs) as [[|]|]; [reflexivity | |]; apply zset_at_lookup;
      apply checkRateLimit_touches; intros Hk; unfold generateKey in Hk;
      apply append_cancel in Hk;
      apply (colon_separated_inj "system" (AuthMiddleware.clientId authContext)) in Hk
        as [Hk _]; auto.
  - unfold checkGlobalRateLimit. cbv zeta. rewrite checkRateLimit_verdict.
    eexists. split; [reflexivity|].
    destruct (seen_by_check _ _ _) as [m|]; cbn [verdict]; [|reflexivity].
    now destruct (_ <? _).
Qed.

Lemma global_window_is_separate_witness :
  let now := 1700000000000 in
  let self := new_RateLimiter sample_settings in
  let after :=
    (createMiddleware self None RoundTripSample.sample_context "getEarnings" now
       empty_store).2 in
  (checkGlobalRateLimit sample_settings self "getEarnings" (now + 1)
     (set_faults [] after)).1
  = (checkGlobalRateLimit sample_settings self "getEarnings" (now + 1)
       (set_faults [] empty_store)).1.
Proof.
  intros now self after.
  apply (global_window_is_separate sample_settings None RoundTripSample.sample_context
           "getEarnings" "getEarnings" now (now + 1) [] empty_store).
  - reflexivity.
  - discriminate.
Defined.

(** *** Samples of the counting theorems *)

Lemma distinct_readings_split_witness :
  let now := 1700000000000 in
  let results :=
    serve (limiter 2 60000) "u1" "c1" "getEarnings" None
      [now; now + 1; now + 2; now + 3; now + 4] empty_store in
  Z.of_nat (admissions results) = 2
  /\ Z.of_nat (length results - admissions results) = 3.
Proof.
  intros now results.
  apply (distinct_readings_split (limiter 2 60000) "u1" "c1" "getEarnings" None
           [now; now + 1; now + 2; now + 3; now + 4] empty_store).
  - reflexivity.
  - reflexivity.
  - cbn. lia.
  - subst now. repeat (constructor; [cbn; intuition lia|]). constructor.
  - subst now. cbn. intros t t' Ht Ht'. intuition (subst; lia).
  - cbn. lia.
Defined.

Lemma same_reading_all_admitted_witness :
  admissions
    (serve (limiter 2 60000) "u1" "c1" "getEarnings" None
       (repeat 1700000000000 7) empty_store)
  = 7%nat.
Proof.
  apply (same_reading_all_admitted (limiter 2 60000) "u1" "c1" "getEarnings" None
           1700000000000 7 empty_store).
  - reflexivity.
  - reflexivity.
  - cbn. lia.
  - cbn. lia.
Defined.

End RateLimiterVerdicts.

(** ** AuthMiddleware: authentication, the middleware, scopes and expiry *)

Module AuthMiddlewareFacts.
Import AuthMiddleware StringFacts AuthorizeFacts BearerFacts.

Section WithJwtLibrary.

Variable jwt_verify : string -> string -> string -> Completion json.
Variable is_email : string -> bool.

(** *** authenticate *)

(** What [authenticate] makes of the headers, without the log. *)
Definition authentication (self : AuthMiddleware) (request : AuthenticatedRequest)
  : Completion AuthContext :=
  match or_else_empty (extractBearerToken (headers request)) with
  | None => Throw (Error "Missing or invalid Authorization header")
  | Some token =>
      match validateJWT jwt_verify is_email self token with
      | Normal claims => buildAuthContext claims
      | Throw e => Throw e
      end
  end.

Lemma authenticate_result (self : AuthMiddleware) (request : AuthenticatedRequest)
    (w : World) :
  (authenticate jwt_verify is_email self request w).1
  = Normal match authentication self request with
           | Normal ctx => {| success := true; context := Some ctx; error := None |}
           | Throw e =>
               {| success := false; context := None; error := Some (message_of e) |}
           end.
Proof.
  unfold authenticate, authentication, try_catch, bind, lift.
  destruct (or_else_empty _) as [token|]; [|reflexivity].
  destruct (validateJWT _ _ _ _) as [claims|e]; [|reflexivity].
  destruct (buildAuthContext claims) as [ctx|e]; reflexivity.
Qed.

Lemma authenticate_redis (self : AuthMiddleware) (request : AuthenticatedRequest)
    (w : World) :
  redis (authenticate jwt_verify is_email self request w).2 = redis w
  /\ sent (authenticate jwt_verify is_email self request w).2 = sent w.
Proof.
  unfold authenticate, try_catch, bind, lift.
  destruct (or_else_empty _) as [token|]; [|now split].
  destruct (validateJWT _ _ _ _) as [claims|e]; [|now split].
  destruct (buildAuthContext claims) as [ctx|e]; now split.
Qed.

Lemma authenticate_run (self : AuthMiddleware) (request : AuthenticatedRequest)
    (w : World) :
  exists w1,
    authenticate jwt_verify is_email self request w
    = (Normal match authentication self request with
              | Normal ctx => {| success := true; context := Some ctx; error := None |}
              | Throw e =>
                  {| success := false; context := None; error := Some (message_of e) |}
              end, w1)
    /\ redis w1 = redis w /\ sent w1 = sent w.
Proof.
  pose proof (authenticate_result self request w) as Hres.
  destruct (authenticate_redis self request w) as [Hredis Hsent].
  destruct (authenticate jwt_verify is_email self request w) as [r w1].
  cbn [fst snd] in *. subst r. now exists w1.
Qed.

(** X10.  [authenticate] never throws and touches neither the store nor the
    network.  It succeeds exactly with a context and fails exactly with an
    error message.  A context it returns was built from the claims of a
    bearer token of the request that [jwt.verify] accepted under the
    configured secret and issuer: its user is the [sub] claim, its client
    the [aud] claim (a string), its expiry the [exp] claim. *)
Theorem authenticate_is_sound (self : AuthMiddleware) (request : AuthenticatedRequest)
    (w : World) :
  let run := authenticate jwt_verify is_email self request w in
  exists result,
    run.1 = Normal result
    /\ redis run.2 = redis w
    /\ sent run.2 = sent w
    /\ (if success result
        then error result = None
             /\ exists ctx token payload claims,
                  context result = Some ctx
                  /\ extractBearerToken (headers request) = Some token
                  /\ jwt_verify token (jwtSecret self) (issuer self) = Normal payload
                  /\ JWTClaimsSchema_parse is_email payload = Normal claims
                  /\ userId ctx = sub claims
                  /\ aud claims = inl (clientId ctx)
                  /\ expiresAt ctx = exp claims
                  /\ issuedAt ctx = iat claims
        else context result = None /\ exists reason, error result = Some reason).
Proof.
  intros run. subst run. rewrite authenticate_result.
  destruct (authenticate_redis self request w) as [Hredis Hsent].
  eexists. split; [reflexivity|]. split; [exact Hredis|]. split; [exact Hsent|].
  unfold authentication.
  destruct (or_else_empty (extractBearerToken (headers request))) as [token|] eqn:Htoken;
    [|cbn; eauto].
  assert (Hextract : extractBearerToken (headers request) = Some token).
  { destruct (extractBearerToken (headers request)) as [t|]; [|discriminate].
    cbn in Htoken. destruct (is_empty t); [discriminate | exact Htoken]. }
  destruct (validateJWT jwt_verify is_email self token) as [claims|e] eqn:Hvalid;
    [|cbn; eauto].
  destruct (buildAuthContext claims) as [ctx|e] eqn:Hbuild; [|cbn; eauto].
  cbn. split; [reflexivity|].
  unfold validateJWT in Hvalid.
  destruct (jwt_verify token (jwtSecret self) (issuer self)) as [payload|e] eqn:Hverify.
  - assert (Hparse : JWTClaimsSchema_parse is_email payload = Normal claims).
    { destruct payload; cbn in Hvalid; try discriminate Hvalid;
        match type of Hvalid with
        | context [JWTClaimsSchema_parse is_email ?p] =>
            destruct (JWTClaimsSchema_parse is_email p) as [c|e] eqn:Hp
        end; cbn in Hvalid; try congruence;
        destruct e; cbn in Hvalid; discriminate Hvalid. }
    exists ctx, token, payload, claims.
    unfold buildAuthContext in Hbuild.
    destruct (aud claims) as [client|auds] eqn:Haud; [|discriminate Hbuild].
    injection Hbuild as <-. cbn.
    split; [reflexivity|]. split; [exact Hextract|]. split; [exact Hverify|].
    split; [exact Hparse|]. repeat split; reflexivity.
  - exfalso. destruct e; cbn in Hvalid; discriminate Hvalid.
Qed.

(** *** validateJWT *)

(** X11.  An expired token is not reported as expired.  When [jwt.verify]
    throws a [TokenExpiredError] or a [NotBeforeError], which are
    [JsonWebTokenError]s, [validateJWT] throws
    [Error('Invalid token: ' + message)], and [authenticate] fails with that
    message; [validateJWT] throws [Error('Token has expired')] or
    [Error('Token not yet valid')] only when [jwt.verify] threw that very
    error. *)
Theorem expired_token_is_reported_invalid (self : AuthMiddleware) (token : string) :
  (forall m,
      jwt_verify token (jwtSecret self) (issuer self) = Throw (TokenExpiredError m)
      \/ jwt_verify token (jwtSecret self) (issuer self) = Throw (NotBeforeError m)
      \/ jwt_verify token (jwtSecret self) (issuer self) = Throw (JsonWebTokenError m) ->
      validateJWT jwt_verify is_email self token = Throw (Error ("Invalid token: " +:+ m)))
  /\ (forall e,
         validateJWT jwt_verify is_email self token = Throw e ->
         e = Error "Token has expired" \/ e = Error "Token not yet valid" ->
         jwt_verify token (jwtSecret self) (issuer self) = Throw e).
Proof.
  split.
  - intros m [H|[H|H]]; unfold validateJWT; rewrite H; reflexivity.
  - intros e Hvalid He. unfold validateJWT in Hvalid.
    destruct (jwt_verify token (jwtSecret self) (issuer self)) as [payload|e0].
    + exfalso.
      assert (Hzod : forall p c,
                 JWTClaimsSchema_parse is_email p = Throw c -> exists m, c = ZodError m).
      { intros p c. unfold JWTClaimsSchema_parse, Zod.parse_or_throw.
        destruct (match p with JObj _ => _ | _ => None end); [discriminate|].
        intros [= <-]. eauto. }
      assert (Hparse : forall p,
                 match JWTClaimsSchema_parse is_email p with
                 | Normal claims => Normal claims
                 | Throw e1 =>
                     if instanceof_JsonWebTokenError e1
                     then Throw (Error ("Invalid token: " +:+ message_of e1))
                     else match e1 with
                          | TokenExpiredError _ => Throw (Error "Token has expired")
                          | NotBeforeError _ => Throw (Error "Token not yet valid")
                          | ZodError m => Throw (Error ("Invalid token claims: " +:+ m))
                          | _ => Throw e1
                          end
                 end = Throw e -> False).
      { intros p Hp.
        destruct (JWTClaimsSchema_parse is_email p) as [c|c] eqn:Hc; [discriminate|].
        apply Hzod in Hc as [m ->]. cbn in Hp. injection Hp as <-.
        destruct He as [He|He]; discriminate He. }
      destruct payload as [|b|n|s|items|fields];
        try (match type of Hvalid with
             | context [JWTClaimsSchema_parse is_email ?p] => exact (Hparse p Hvalid)
             end).
      cbn in Hvalid. injection Hvalid as <-. destruct He as [He|He]; discriminate He.
    + destruct e0; cbn in Hvalid; injection Hvalid as <-;
        try reflexivity; destruct He as [He|He]; discriminate He.
Qed.

(** *** The middleware *)

Import AuthMiddlewareFactory.

Lemma authorize_call_run (ctx : AuthContext) (requiredScopes : list string) (w : World) :
  exists w1,
    authorize_call ctx requiredScopes w = (Normal (authorize ctx requiredScopes), w1)
    /\ redis w1 = redis w /\ sent w1 = sent w.
Proof.
  unfold authorize_call, authorize.
  destruct (length requiredScopes =? 0)%nat; [now exists w|].
  destruct (includes (AuthMiddleware.scopes ctx) "admin:financial-data");
    [now exists w|].
  destruct (includes (AuthMiddleware.scopes ctx) "read:financial-data" && _);
    [now exists w|].
  eexists. split; [reflexivity|]. now split.
Qed.

(** The verdict of the middleware, by what [authenticate] makes of the
    request. *)
Definition decision (self : AuthMiddleware) (options : AuthMiddlewareOptions)
    (request : AuthenticatedRequest) (now : Z) : MiddlewareResult :=
  let required_ := default true (required options) in
  let scopes_ := default [] (AuthMiddlewareFactory.scopes options) in
  let validateScopes_ := default true (validateScopes options) in
  if negb required_ then
    {| authorized := true; AuthMiddlewareFactory.context := None;
       AuthMiddlewareFactory.error := None |}
  else
    match authentication self request with
    | Throw e =>
        {| authorized := false; AuthMiddlewareFactory.context := None;
           AuthMiddlewareFactory.error :=
             Some (default "Authentication required"
                     (or_else_empty (Some (message_of e)))) |}
    | Normal ctx =>
        if isTokenExpired ctx now then
          {| authorized := false; AuthMiddlewareFactory.context := None;
             AuthMiddlewareFactory.error := Some "Token has expired" |}
        else if validateScopes_ && (0 <? length scopes_)%nat
                && negb (authorize ctx scopes_) then
          {| authorized := false; AuthMiddlewareFactory.context := None;
             AuthMiddlewareFactory.error :=
               Some ("Insufficient permissions. Required scopes: "
                     +:+ ArrayPrototype.join ", " scopes_) |}
        else
          {| authorized := true; AuthMiddlewareFactory.context := Some ctx;
             AuthMiddlewareFactory.error := None |}
    end.

Lemma createMiddleware_run (self : AuthMiddleware) (options : AuthMiddlewareOptions)
    (request : AuthenticatedRequest) (now : Z) (w : World) :
  exists w',
    createMiddleware jwt_verify is_email self options request now w
    = (Normal (decision self options request now), w')
    /\ redis w' = redis w
    /\ sent w' = sent w.
Proof.
  unfold createMiddleware, decision. cbv zeta.
  destruct (negb (default true (required options))); [now exists w|].
  unfold bind at 1.
  destruct (authenticate_run self request w) as (w1 & -> & Hredis & Hsent).
  destruct (authentication self request) as [ctx|e];
    cbn [success AuthMiddleware.context AuthMiddleware.error];
    [|now exists w1].
  destruct (isTokenExpired ctx now); [now exists w1|].
  destruct (default true (validateScopes options)
            && (0 <? length (default [] (AuthMiddlewareFactory.scopes options)))%nat);
    cbn [andb].
  - unfold bind.
    destruct (authorize_call_run ctx (default [] (AuthMiddlewareFactory.scopes options)) w1)
      as (w2 & -> & Hredis' & Hsent').
    destruct (authorize ctx (default [] (AuthMiddlewareFactory.scopes options)));
      exists w2; (split; [reflexivity|]); split; congruence.
  - now exists w1.
Qed.

(** X12.  The middleware does not let a bad token through.  Unless the
    endpoint is marked as not requiring authentication, a request is
    authorized only with the context of a bearer token that [authenticate]
    accepted, that has not expired at [now] and, unless scope validation is
    switched off, that [authorize] grants the configured scopes; the result
    then carries that context and no error. *)
Theorem middleware_authorizes_only_valid_tokens (self : AuthMiddleware)
    (options : AuthMiddlewareOptions) (request : AuthenticatedRequest) (now : Z)
    (w : World) (result : MiddlewareResult) :
  required options <> Some false ->
  (createMiddleware jwt_verify is_email self options request now w).1 = Normal result ->
  authorized result = true ->
  exists ctx,
    AuthMiddlewareFactory.context result = Some ctx
    /\ AuthMiddlewareFactory.error result = None
    /\ (exists authResult,
           (authenticate jwt_verify is_email self request w).1 = Normal authResult
           /\ success authResult = true
           /\ AuthMiddleware.context authResult = Some ctx)
    /\ floor_div now 1000 < expiresAt ctx
    /\ (validateScopes options <> Some false ->
        authorize ctx (default [] (AuthMiddlewareFactory.scopes options)) = true).
Proof.
  intros Hreq Hrun Hauth.
  destruct (createMiddleware_run self options request now w) as (w' & Hdec & _ & _).
  rewrite Hdec in Hrun. injection Hrun as <-. clear Hdec.
  unfold decision in *.
  assert (Hrequired : negb (default true (required options)) = false).
  { destruct (required options) as [[|]|]; [reflexivity | now destruct Hreq | reflexivity]. }
  rewrite Hrequired in *.
  pose proof (authenticate_result self request w) as Hres.
  destruct (authentication self request) as [ctx|e]; [|discriminate Hauth].
  unfold isTokenExpired in *.
  destruct (Z.leb_spec (expiresAt ctx) (floor_div now 1000)) as [Hexp|Hlive];
    [discriminate Hauth|].
  set (scopes_ := default [] (AuthMiddlewareFactory.scopes options)) in *.
  destruct (default true (validateScopes options) && (0 <? length scopes_)%nat
            && negb (authorize ctx scopes_)) eqn:Hcheck; [discriminate Hauth|].
  exists ctx. cbn. split; [reflexivity|]. split; [reflexivity|].
  split; [eexists; split; [exact Hres|]; now split|].
  split; [exact Hlive|].
  intros Hvalidate.
  assert (Hv : default true (validateScopes options) = true).
  { destruct (validateScopes options) as [[|]|]; [reflexivity | now destruct Hvalidate
                                                  | reflexivity]. }
  rewrite Hv in Hcheck. cbn [andb] in Hcheck.
  destruct scopes_ as [|s0 rest]; [reflexivity|].
  cbn in Hcheck. now apply negb_false_iff in Hcheck.
Qed.

Definition nonempty (s : string) : Prop := s <> EmptyString.

(** X13.  The middleware always answers, and says why it denies.  The call
    never throws and touches neither the store nor the network.  A denial
    carries no context and a non-empty reason; an admission carries no
    error.  An endpoint marked as not requiring authentication is
    authorized, without a context, whatever the request holds. *)
Theorem middleware_denial_has_reason (self : AuthMiddleware)
    (options : AuthMiddlewareOptions) (request : AuthenticatedRequest) (now : Z)
    (w : World) :
  let run := createMiddleware jwt_verify is_email self options request now w in
  exists result,
    run.1 = Normal result
    /\ redis run.2 = redis w
    /\ sent run.2 = sent w
    /\ (if authorized result
        then AuthMiddlewareFactory.error result = None
        else AuthMiddlewareFactory.context result = None
             /\ exists reason,
                  AuthMiddlewareFactory.error result = Some reason /\ nonempty reason)
    /\ (required options = Some false ->
        result = {| authorized := true; AuthMiddlewareFactory.context := None;
                    AuthMiddlewareFactory.error := None |}).
Proof.
  intros run. subst run.
  destruct (createMiddleware_run self options request now w) as (w' & -> & Hredis & Hsent).
  exists (decision self options request now).
  split; [reflexivity|]. split; [exact Hredis|]. split; [exact Hsent|].
  unfold decision. split.
  - destruct (negb (default true (required options))); [reflexivity|].
    destruct (authentication self request) as [ctx|e].
    + destruct (isTokenExpired ctx now); cbn.
      { split; [reflexivity|]. eexists. split; [reflexivity | discriminate]. }
      destruct (_ && negb _); cbn; [|reflexivity].
      split; [reflexivity|]. eexists. split; [reflexivity | discriminate].
    + cbn. split; [reflexivity|]. eexists. split; [reflexivity|].
      destruct (message_of e); cbn; discriminate.
  - intros ->. reflexivity.
Qed.

End WithJwtLibrary.

(** A sample verifier: it accepts the one token [good], and gives its
    claims. *)
Definition toy_verify (token secret issuer_ : string) : Completion json :=
  if String.eqb token "good"
  then Normal (JObj [("sub", JStr "u1"); ("iss", JStr issuer_); ("aud", JStr "c1");
                     ("exp", JNum 1700003600); ("iat", JNum 1700000000);
                     ("scope", JStr "read:earnings read:financials")])
  else Throw (JsonWebTokenError "invalid signature").

Definition sample_middleware : AuthMiddleware :=
  {| jwtSecret := "0123456789abcdef0123456789abcdef";
     issuer := "https://auth.example.com" |}.

Definition sample_request : AuthenticatedRequest :=
  {| auth := None; headers := {[ "authorization" := "Bearer good" ]} |}.

Definition sample_options : AuthMiddlewareFactory.AuthMiddlewareOptions :=
  {| AuthMiddlewareFactory.required := None;
     AuthMiddlewareFactory.scopes := Some ["read:earnings"];
     AuthMiddlewareFactory.skipPaths := None;
     AuthMiddlewareFactory.validateScopes := None |}.

Definition sample_user : AuthContext :=
  {| userId := "u1"; scopes := ["read:earnings"; "read:financials"];
     tokenType := "Bearer"; issuedAt := 1700000000; expiresAt := 1700003600;
     clientId := "c1"; email := None; name := None |}.

Lemma middleware_authorizes_only_valid_tokens_witness :
  exists ctx,
    ctx = sample_user
    /\ floor_div 1700000030000 1000 < expiresAt ctx
    /\ (AuthMiddlewareFactory.validateScopes sample_options <> Some false ->
        authorize ctx ["read:earnings"] = true).
Proof.
  destruct (middleware_authorizes_only_valid_tokens toy_verify (fun _ => true)
              sample_middleware sample_options sample_request 1700000030000 empty_store
              {| AuthMiddlewareFactory.authorized := true;
                 AuthMiddlewareFactory.context := Some sample_user;
                 AuthMiddlewareFactory.error := None |})
    as (ctx & Hctx & _ & _ & Hlive & Hscopes).
  - discriminate.
  - vm_compute. reflexivity.
  - reflexivity.
  - exists ctx. cbn in Hctx. injection Hctx as <-. auto.
Defined.


(** *** authorize *)

(** X14.  [authorize] is monotone.  A grant survives when the context gains
    scopes and when fewer scopes are required. *)
Theorem authorize_monotone (ctx ctx' : AuthContext) (S S' : list string) :
  (forall scope, In scope (scopes ctx) -> In scope (scopes ctx')) ->
  (forall scope, In scope S' -> In scope S) ->
  authorize ctx S = true ->
  authorize ctx' S' = true.
Proof.
  intros Hctx HS. unfold authorize.
  destruct S' as [|s0 S']; [reflexivity|].
  destruct S as [|s1 S]; [destruct (HS s0); now left|].
  change ((length (s0 :: S') =? 0)%nat) with false.
  change ((length (s1 :: S) =? 0)%nat) with false. cbv iota.
  destruct (includes (scopes ctx') "admin:financial-data") eqn:Hadmin'; [reflexivity|].
  destruct (includes (scopes ctx) "admin:financial-data") eqn:Hadmin.
  { apply includes_In, Hctx, includes_In in Hadmin. congruence. }
  destruct (includes (scopes ctx) "read:financial-data"
            && forallb (fun scope => startsWith scope "read:") (s1 :: S)) eqn:Hread.
  { intros _. apply andb_true_iff in Hread as [Hin Hall].
    apply includes_In, Hctx, includes_In in Hin. rewrite Hin. cbn [andb].
    assert (Hall' : forallb (fun scope => startsWith scope "read:") (s0 :: S') = true).
    { rewrite forallb_forall in Hall |- *. intros x Hx. apply Hall, HS, Hx. }
    now rewrite Hall'. }
  intros Hall.
  assert (Hall' : forallb (fun scope => includes (scopes ctx') scope) (s0 :: S') = true).
  { rewrite forallb_forall in Hall |- *. intros x Hx.
    apply includes_In, Hctx, includes_In, Hall, HS, Hx. }
  rewrite Hall'.
  match goal with |- (if ?c then _ else _) = _ => destruct c end; reflexivity.
Qed.

Lemma authorize_monotone_witness :
  authorize
    {| userId := "u1"; scopes := ["read:earnings"; "read:financials"; "read:company-info"];
       tokenType := "Bearer"; issuedAt := 1700000000; expiresAt := 1700003600;
       clientId := "c1"; email := None; name := None |}
    ["read:earnings"] = true.
Proof.
  apply (authorize_monotone sample_user _ ["read:earnings"; "read:financials"]).
  - cbn. tauto.
  - cbn. tauto.
  - reflexivity.
Defined.

(** *** buildAuthContext *)









(** *** Expiry *)

(** X16.  The three readings of a token's expiry agree.  The remaining
    lifetime is never negative and is zero exactly for an expired token; an
    expired token is due for refresh under every threshold that is not
    negative; a token that is not due for refresh has more than the
    threshold left. *)
Theorem expiry_readings_agree (ctx : AuthContext) (thresholdSeconds now : Z) :
  0 <= thresholdSeconds ->
  0 <= getTokenLifetime ctx now
  /\ (isTokenExpired ctx now = true <-> getTokenLifetime ctx now = 0)
  /\ (isTokenExpired ctx now = true -> shouldRefreshToken ctx thresholdSeconds now = true)
  /\ (shouldRefreshToken ctx thresholdSeconds now = false ->
      floor_div now 1000 + thresholdSeconds < expiresAt ctx).
Proof.
  intros Hth. unfold shouldRefreshToken, getTokenLifetime, isTokenExpired.
  split; [lia|]. split; [|split].
  - rewrite Z.leb_le. lia.
  - rewrite !Z.leb_le. lia.
  - rewrite Z.leb_gt. lia.
Qed.

Lemma expiry_readings_agree_witness :
  isTokenExpired sample_user 1700003600000 = true
  /\ shouldRefreshToken sample_user 300 1700003600000 = true.
Proof.
  destruct (expiry_readings_agree sample_user 300 1700003600000) as (_ & _ & H & _);
    [lia|].
  split; [reflexivity|]. apply H. reflexivity.
Defined.

End AuthMiddlewareFacts.

(** ** TokenStorage: what the methods read and write *)

Module TokenStorageEffects.
Import Redis TokenStorage TokenStorageUpdates StringFacts RuntimeFacts
  TokenStorageFacts FrameFacts.

(** *** Splitting at colons *)

Lemma split_not_nil (s : string) : split ":" s <> [].
Proof.
  destruct s as [|c s]; cbn; [discriminate|].
  destruct (Ascii.eqb c ":"); [discriminate|].
  now destruct (split ":" s).
Qed.

Lemma split_singleton (s piece : string) :
  split ":" s = [piece] -> s = piece /\ all_chars no_colon piece = true.
Proof.
  revert piece. induction s as [|c s IH]; intros piece; cbn.
  - now intros [= <-].
  - destruct (Ascii.eqb c ":") eqn:Hc.
    + intros [= _ H]. now destruct (split_not_nil s).
    + destruct (split ":" s) as [|p ps] eqn:Hs; [now destruct (split_not_nil s)|].
      intros [= <- ->]. destruct (IH p eq_refl) as [-> Hp].
      split; [reflexivity|]. cbn. unfold no_colon at 1. now rewrite Hc.
Qed.

Lemma split_pair (s a b : string) :
  split ":" s = [a; b] ->
  s = a +:+ ":" +:+ b
  /\ all_chars no_colon a = true /\ all_chars no_colon b = true.
Proof.
  revert a. induction s as [|c s IH]; intros a; cbn; [discriminate|].
  destruct (Ascii.eqb c ":") eqn:Hc.
  - intros [= <- H]. apply Ascii.eqb_eq in Hc as ->.
    apply split_singleton in H as [-> Hb]. now split.
  - destruct (split ":" s) as [|p ps] eqn:Hs; [discriminate|].
    intros [= <- ->]. destruct (IH p eq_refl) as (-> & Hp & Hb).
    split; [reflexivity|]. split; [|exact Hb].
    cbn. unfold no_colon at 1. now rewrite Hc.
Qed.

Section WithCryptoAndJSON.

Variable createCipher : string -> string -> string.
Variable createDecipher : string -> string -> Completion string.
Variable JSON_stringify : json -> string.
Variable JSON_parse : string -> Completion json.

(** *** encrypt and decrypt *)

Definition bad_format : Exn := Error "Invalid encrypted data format".

(** X17.  [decrypt] reads the part after the colon and nothing else.  It
    throws [Error('Invalid encrypted data format')] unless the text is two
    non-empty parts around a single colon; then the result is the
    decipherment of the second part, so that the first part, where
    [encrypt] prints its initialization vector, has no bearing on it. *)
Theorem decrypt_reads_only_the_body (self : TokenStorage) (encryptedData : string) :
  (decrypt createDecipher self encryptedData = Throw bad_format
   /\ forall iv body,
        iv <> EmptyString -> body <> EmptyString ->
        all_chars no_colon iv = true -> all_chars no_colon body = true ->
        encryptedData <> iv +:+ ":" +:+ body)
  \/ exists iv body,
       encryptedData = iv +:+ ":" +:+ body
       /\ iv <> EmptyString /\ body <> EmptyString
       /\ all_chars no_colon iv = true /\ all_chars no_colon body = true
       /\ decrypt createDecipher self encryptedData
          = createDecipher (encryptionKey self) body
       /\ forall iv',
            iv' <> EmptyString -> all_chars no_colon iv' = true ->
            decrypt createDecipher self (iv' +:+ ":" +:+ body)
            = createDecipher (encryptionKey self) body.
Proof.
  assert (Hgood : forall iv body,
             iv <> EmptyString -> body <> EmptyString ->
             all_chars no_colon iv = true -> all_chars no_colon body = true ->
             decrypt createDecipher self (iv +:+ ":" +:+ body)
             = createDecipher (encryptionKey self) body).
  { intros iv body Hiv Hbody Hciv Hcbody. unfold decrypt.
    rewrite (split_one_colon iv body Hciv Hcbody).
    now rewrite (is_empty_false iv Hiv), (is_empty_false body Hbody). }
  unfold decrypt.
  destruct (split ":" encryptedData) as [|iv [|body [|third rest]]] eqn:Hsplit.
  - now destruct (split_not_nil encryptedData).
  - left. split; [reflexivity|]. intros iv' body' _ _ Hiv' Hbody' ->.
    rewrite (split_one_colon iv' body' Hiv' Hbody') in Hsplit. discriminate.
  - apply split_pair in Hsplit as (-> & Hciv & Hcbody).
    destruct iv as [|c iv].
    { left. split; [reflexivity|]. intros iv' body' Hiv' _ Hciv' Hcbody' H.
      apply KeyFacts.colon_separated_inj in H as [<- _]; auto. }
    destruct body as [|c' body].
    { left. split; [reflexivity|]. intros iv' body' _ Hbody' Hciv' Hcbody' H.
      apply KeyFacts.colon_separated_inj in H as [_ <-]; auto. }
    right. exists (String c iv), (String c' body).
    split; [reflexivity|]. split; [discriminate|]. split; [discriminate|].
    split; [exact Hciv|]. split; [exact Hcbody|]. split; [reflexivity|].
    intros iv' Hiv' Hciv'. fold (decrypt createDecipher self (iv' +:+ ":" +:+ String c' body)).
    apply Hgood; auto.
  - left. split; [reflexivity|]. intros iv' body' _ _ Hiv' Hbody' ->.
    rewrite (split_one_colon iv' body' Hiv' Hbody') in Hsplit. discriminate.
Qed.

(** X18.  [decrypt] undoes [encrypt] wherever the decipher undoes the
    cipher: when the cipher's output for a text is not empty and is hex
    (holds no colon), and the decipher gives the text back, then whatever
    vector [encrypt] draws, [decrypt] of its result is the text.  [encrypt]
    uses up 16 bytes of entropy. *)
Theorem decrypt_inverts_encrypt (self : TokenStorage) (text : string) (w : World) :
  let body := createCipher (encryptionKey self) text in
  body <> EmptyString ->
  all_chars no_colon body = true ->
  createDecipher (encryptionKey self) body = Normal text ->
  exists blob w',
    encrypt createCipher self text w = (Normal blob, w')
    /\ decrypt createDecipher self blob = Normal text
    /\ drawn w' = (drawn w + 16)%nat
    /\ redis w' = redis w.
Proof.
  intros body Hbody Hcolon Hdecipher.
  exists (Buffer.toString_hex (drawn_iv w) +:+ ":" +:+ body). eexists.
  split; [reflexivity|]. split; [|now split].
  unfold decrypt.
  rewrite split_one_colon by (apply toString_hex_no_colon || exact Hcolon).
  rewrite iv_hex_not_empty, (is_empty_false body Hbody). exact Hdecipher.
Qed.

(** *** What [getToken] returns *)

(** The answer of [getToken], by the reply of the store. *)
Definition answer (self : TokenStorage) (now : Z) (reply : Completion (option string))
  : option StoredToken :=
  match reply with
  | Throw _ => None
  | Normal reply =>
      match or_else_empty reply with
      | None => None
      | Some blob =>
          match read_record createDecipher JSON_parse self blob with
          | Throw _ => None
          | Normal t => if expiresAt t <=? floor_div now 1000 then None else Some t
          end
      end
  end.

Lemma getToken_answer (self : TokenStorage) (userId clientId : string) (now : Z)
    (w : World) :
  (getToken createDecipher JSON_parse self userId clientId now w).1
  = Normal (answer self now (stored_blob userId clientId now w)).
Proof.
  pose proof (getToken_outcome createDecipher JSON_parse self userId clientId now w) as H.
  cbv zeta in H. unfold answer.
  destruct (stored_blob userId clientId now w) as [reply|e]; [|exact H].
  destruct (or_else_empty reply) as [blob|]; [|exact H].
  destruct (read_record createDecipher JSON_parse self blob) as [t|e]; [|exact H].
  destruct (expiresAt t <=? floor_div now 1000); [apply H | exact H].
Qed.

Lemma bind_fst {St A B} (c : M St A) (k : A -> M St B) (s : St) (a : A) :
  (c s).1 = Normal a -> (bind c k s).1 = (k a (c s).2).1.
Proof. unfold bind. destruct (c s) as [[a'|e] s']; cbn; [now intros [= ->] | discriminate]. Qed.

Lemma stored_blob_lookup (userId clientId : string) (now : Z) (w1 w2 : World) :
  head (faults w1) = head (faults w2) ->
  redis w1 !! generateAccessTokenKey userId clientId
  = redis w2 !! generateAccessTokenKey userId clientId ->
  stored_blob userId clientId now w1 = stored_blob userId clientId now w2.
Proof.
  intros Hf Hk. unfold stored_blob, redis_call, GET, lookup_live.
  destruct (faults w1) as [|[|] fs1], (faults w2) as [|[|] fs2]; try discriminate Hf;
    try reflexivity; rewrite Hk;
    destruct (redis w2 !! _) as [e|]; try reflexivity;
    destruct (live now e); try reflexivity; now destruct (val e).
Qed.

(** X19.  [getTokenExpiration] never throws.  A time it returns is the
    [expiresAt] of the record that the store holds for this user and
    client, and lies after [now]; in every case where [getToken] returns
    [null], so does [getTokenExpiration]. *)
Theorem getTokenExpiration_is_ahead (self : TokenStorage) (userId clientId : string)
    (now : Z) (w : World) :
  let stored := answer self now (stored_blob userId clientId now w) in
  (getToken createDecipher JSON_parse self userId clientId now w).1 = Normal stored
  /\ exists result,
       (getTokenExpiration createDecipher JSON_parse self userId clientId now w).1
       = Normal result
       /\ (stored = None -> result = None)
       /\ forall seconds,
            result = Some seconds ->
            floor_div now 1000 < seconds
            /\ exists blob t,
                 stored_blob userId clientId now w = Normal (Some blob)
                 /\ read_record createDecipher JSON_parse self blob = Normal t
                 /\ stored = Some t
                 /\ expiresAt t = seconds.
Proof.
  intros stored.
  pose proof (getToken_answer self userId clientId now w) as Hget. fold stored in Hget.
  split; [exact Hget|].
  unfold getTokenExpiration. rewrite (bind_fst _ _ _ _ Hget). unfold ret. cbn [fst].
  eexists. split; [reflexivity|]. split; [now intros ->|].
  intros seconds. subst stored. unfold answer.
  destruct (stored_blob userId clientId now w) as [[blob|]|e];
    cbn [or_else_empty]; try discriminate.
  destruct (is_empty blob); [discriminate|].
  destruct (read_record createDecipher JSON_parse self blob) as [t|e] eqn:Hread;
    [|discriminate].
  destruct (Z.leb_spec (expiresAt t) (floor_div now 1000)) as [Hle|Hlt]; [discriminate|].
  destruct (expiresAt t =? 0); [discriminate|]. intros [= <-].
  split; [exact Hlt|]. exists blob, t. auto.
Qed.

(** *** Deleting *)

Lemma stored_blob_absent (userId clientId : string) (now : Z) (w : World) :
  faults w = [] ->
  redis w !! generateAccessTokenKey userId clientId = None ->
  stored_blob userId clientId now w = Normal None.
Proof.
  intros Hf Hk. unfold stored_blob. rewrite redis_call_reachable by exact Hf.
  unfold GET, lookup_live. now rewrite Hk.
Qed.

(** X20.  After [deleteToken] on a reachable store, the user is logged out:
    [getToken], [getRefreshToken] and [getTokenExpiration] return [null] and
    [isTokenValid] returns [false], at any later time, and neither key of
    the pair is left in the store. *)
Theorem delete_then_get_is_null (self : TokenStorage) (userId clientId : string)
    (deleted_at now : Z) (w : World) :
  let after := (deleteToken self userId clientId deleted_at w).2 in
  faults w = [] ->
  (deleteToken self userId clientId deleted_at w).1 = Normal tt
  /\ redis after !! generateAccessTokenKey userId clientId = None
  /\ redis after !! generateRefreshTokenKey userId clientId = None
  /\ (getToken createDecipher JSON_parse self userId clientId now after).1 = Normal None
  /\ (getRefreshToken createDecipher JSON_parse self userId clientId now after).1
     = Normal None
  /\ (isTokenValid createDecipher JSON_parse self userId clientId now after).1
     = Normal false
  /\ (getTokenExpiration createDecipher JSON_parse self userId clientId now after).1
     = Normal None.
Proof.
  intros after Hf.
  destruct (deleteToken_reachable self userId clientId deleted_at w Hf)
    as (w' & Hdel & Hredis & Hf').
  subst after. rewrite Hdel. cbn [fst snd].
  destruct (lookup_delete_both (redis w) (generateAccessTokenKey userId clientId)
              (generateRefreshTokenKey userId clientId)) as [Ha Hr].
  rewrite <- Hredis in Ha, Hr.
  split; [reflexivity|]. split; [exact Ha|]. split; [exact Hr|].
  assert (Hget : (getToken createDecipher JSON_parse self userId clientId now w').1
                 = Normal None).
  { rewrite getToken_answer, (stored_blob_absent _ _ _ _ Hf' Ha). reflexivity. }
  split; [exact Hget|].
  unfold getRefreshToken, isTokenValid, getTokenExpiration.
  rewrite !(bind_fst _ _ _ _ Hget). now repeat split.
Qed.

(** *** Storing *)

(** The entry that [storeToken] writes. *)
Definition written (blob : string) (now seconds : Z) : entry :=
  {| val := VString blob; expireAt := Some (now + seconds * 1000) |}.

(** With the store reachable, [storeToken] returns, and the store is as
    the one or two [SETEX] commands leave it. *)
Lemma storeToken_store (self : TokenStorage) (userId clientId : string)
    (accessToken_ : OAuthClient.AccessToken) (authContext : AuthMiddleware.AuthContext)
    (now : Z) (w : World) :
  faults w = [] ->
  let text :=
    JSON_stringify (StoredToken_value (record_of userId clientId accessToken_ authContext)) in
  let blob :=
    Buffer.toString_hex (drawn_iv w) +:+ ":" +:+ createCipher (encryptionKey self) text in
  let ttl := ttl_seconds authContext now in
  let with_access :=
    <[generateAccessTokenKey userId clientId := written blob now ttl]> (redis w) in
  exists w',
    storeToken createCipher JSON_stringify self userId clientId accessToken_ authContext now w
    = (Normal tt, w')
    /\ faults w' = []
    /\ redis w'
       = match or_else_empty (OAuthClient.refresh_token accessToken_) with
         | Some _ =>
             <[generateRefreshTokenKey userId clientId
               := written blob now (ttl + 24 * 60 * 60)]> with_access
         | None => with_access
         end.
Proof.
  intros Hf text blob ttl with_access. unfold storeToken, try_catch, bind.
  fold (record_of userId clientId accessToken_ authContext).
  rewrite StoredTokenSchema_round_trip. unfold lift at 1. cbv iota beta.
  unfold encrypt, bind, randomBytes, ret. cbv iota beta.
  fold (drawn_iv w). fold text. fold blob. fold (ttl_seconds authContext now). fold ttl.
  rewrite redis_call_reachable by exact Hf.
  unfold SETEX at 1.
  assert (Httl : (ttl <=? 0) = false).
  { apply Z.leb_gt. subst ttl. unfold ttl_seconds. lia. }
  rewrite Httl. cbv iota beta.
  destruct (or_else_empty (OAuthClient.refresh_token accessToken_)) as [rt|].
  - rewrite redis_call_reachable by reflexivity. unfold SETEX.
    assert (Httl' : (ttl + 24 * 60 * 60 <=? 0) = false).
    { apply Z.leb_gt. subst ttl. unfold ttl_seconds. lia. }
    rewrite Httl'. cbv iota beta. unfold logger.
    eexists. split; [reflexivity|]. split; reflexivity.
  - unfold logger. eexists. split; [reflexivity|]. split; reflexivity.
Qed.

(** X21.  What [storeToken] writes.  On a reachable store the call returns
    and writes the encrypted record under the access-token key, to expire
    after the seconds left until [expiresAt] and never sooner than after 60
    seconds.  When the token response carries a non-empty refresh token, the
    same blob goes under the refresh-token key and lives 24 hours longer;
    when it carries none, the refresh-token key keeps whatever an earlier
    call left there.  No other key changes. *)
Theorem storeToken_writes_the_pair (self : TokenStorage) (userId clientId : string)
    (accessToken_ : OAuthClient.AccessToken) (authContext : AuthMiddleware.AuthContext)
    (now : Z) (w : World) :
  let run :=
    storeToken createCipher JSON_stringify self userId clientId accessToken_ authContext
      now w in
  let text :=
    JSON_stringify (StoredToken_value (record_of userId clientId accessToken_ authContext)) in
  let blob :=
    Buffer.toString_hex (drawn_iv w) +:+ ":" +:+ createCipher (encryptionKey self) text in
  let ttl := Z.max 60 (AuthMiddleware.expiresAt authContext - floor_div now 1000) in
  faults w = [] ->
  run.1 = Normal tt
  /\ redis run.2 !! generateAccessTokenKey userId clientId
     = Some {| val := VString blob; expireAt := Some (now + ttl * 1000) |}
  /\ redis run.2 !! generateRefreshTokenKey userId clientId
     = match OAuthClient.refresh_token accessToken_ with
       | Some (String _ _) =>
           Some {| val := VString blob;
                   expireAt := Some (now + (ttl + 86400) * 1000) |}
       | _ => redis w !! generateRefreshTokenKey userId clientId
       end
  /\ forall key,
       key <> generateAccessTokenKey userId clientId ->
       key <> generateRefreshTokenKey userId clientId ->
       redis run.2 !! key = redis w !! key.
Proof.
  intros run text blob ttl Hf.
  destruct (storeToken_store self userId clientId accessToken_ authContext now w Hf)
    as (w' & Hrun & _ & Hredis).
  subst run. rewrite Hrun. cbn [fst snd]. rewrite Hredis. clear Hrun Hredis.
  fold text. fold blob. change (ttl_seconds authContext now) with ttl.
  unfold written. change (24 * 60 * 60) with 86400.
  pose proof (token_keys_differ userId clientId) as Hne.
  split; [reflexivity|].
  destruct (OAuthClient.refresh_token accessToken_) as [[|c rt]|]; cbn [or_else_empty is_empty].
  - split; [apply lookup_insert_eq|]. split; [now apply lookup_insert_ne|].
    intros key Ha _. now apply lookup_insert_ne.
  - split; [rewrite lookup_insert_ne by exact Hne; apply lookup_insert_eq|].
    split; [apply lookup_insert_eq|].
    intros key Ha Hr. rewrite !lookup_insert_ne by congruence. reflexivity.
  - split; [apply lookup_insert_eq|]. split; [now apply lookup_insert_ne|].
    intros key Ha _. now apply lookup_insert_ne.
Qed.

(** X22.  [storeToken] is not atomic.  When the connection fails at the
    first write, the call throws
    [Error('Failed to store authentication token')] and the store is as it
    was.  When the first write succeeds and the second, of the refresh
    entry, fails, the call throws the same error, yet the access-token key
    already holds the new record. *)
Theorem storeToken_is_not_atomic (self : TokenStorage) (userId clientId : string)
    (accessToken_ : OAuthClient.AccessToken) (authContext : AuthMiddleware.AuthContext)
    (now : Z) (w : World) :
  let run :=
    storeToken createCipher JSON_stringify self userId clientId accessToken_ authContext
      now w in
  let text :=
    JSON_stringify (StoredToken_value (record_of userId clientId accessToken_ authContext)) in
  let blob :=
    Buffer.toString_hex (drawn_iv w) +:+ ":" +:+ createCipher (encryptionKey self) text in
  (head (faults w) = Some true ->
   run.1 = Throw (Error "Failed to store authentication token")
   /\ redis run.2 = redis w)
  /\ (forall rest,
         faults w = false :: true :: rest ->
         or_else_empty (OAuthClient.refresh_token accessToken_) <> None ->
         run.1 = Throw (Error "Failed to store authentication token")
         /\ redis run.2
            = <[generateAccessTokenKey userId clientId
                := written blob now (ttl_seconds authContext now)]> (redis w)).
Proof.
  intros run text blob.
  assert (Httl : (ttl_seconds authContext now <=? 0) = false).
  { apply Z.leb_gt. unfold ttl_seconds. lia. }
  assert (Hrun : match faults w with
                 | true :: _ =>
                     exists w', run = (Throw (Error "Failed to store authentication token"), w')
                                /\ redis w' = redis w
                 | false :: true :: _ =>
                     or_else_empty (OAuthClient.refresh_token accessToken_) <> None ->
                     exists w', run = (Throw (Error "Failed to store authentication token"), w')
                                /\ redis w'
                                   = <[generateAccessTokenKey userId clientId
                                       := written blob now (ttl_seconds authContext now)]>
                                       (redis w)
                 | _ => True
                 end).
  { assert (Hdown : forall A (cmd : M db A) rest (v : World),
               faults v = true :: rest ->
               redis_call cmd v
               = (Throw (RedisError "The client is closed"), set_faults rest v)).
    { intros A cmd rest v Hv. unfold redis_call. now rewrite Hv. }
    assert (Hup : forall A (cmd : M db A) rest (v : World),
               faults v = false :: rest ->
               redis_call cmd v
               = let '(r, d) := cmd (redis v) in (r, set_redis d (set_faults rest v))).
    { intros A cmd rest v Hv. unfold redis_call. now rewrite Hv. }
    destruct (faults w) as [|[|] fs] eqn:Hf; [exact I | |].
    - subst run. unfold storeToken, try_catch, bind.
      fold (record_of userId clientId accessToken_ authContext).
      rewrite StoredTokenSchema_round_trip. unfold lift at 1. cbv iota beta.
      unfold encrypt, bind, randomBytes, ret. cbv iota beta.
      rewrite (Hdown _ _ fs) by exact Hf.
      eexists. split; reflexivity.
    - destruct fs as [|[|] fs]; [exact I | | exact I].
      intros Hrefresh.
      subst run. unfold storeToken, try_catch, bind.
      fold (record_of userId clientId accessToken_ authContext).
      rewrite StoredTokenSchema_round_trip. unfold lift at 1. cbv iota beta.
      unfold encrypt, bind, randomBytes, ret. cbv iota beta.
      fold (drawn_iv w). fold text. fold blob. fold (ttl_seconds authContext now).
      rewrite (Hup _ _ (true :: fs)) by exact Hf.
      unfold SETEX at 1. rewrite Httl. cbv iota beta.
      destruct (or_else_empty (OAuthClient.refresh_token accessToken_)) as [rt|];
        [|now destruct Hrefresh].
      rewrite (Hdown _ _ fs) by reflexivity.
      eexists. split; reflexivity. }
  split.
  - intros Hdown. destruct (faults w) as [|[|] fs]; try discriminate Hdown.
    destruct Hrun as (w' & -> & Hredis). now split.
  - intros rest Hf Hrefresh. rewrite Hf in Hrun.
    destruct (Hrun Hrefresh) as (w' & -> & Hredis). now split.
Qed.

(** *** Updating *)

Lemma updateToken_store (self : TokenStorage) (userId clientId : string)
    (accessToken_ : OAuthClient.AccessToken) (authContext : AuthMiddleware.AuthContext)
    (now : Z) (w : World) :
  faults w = [] ->
  exists w',
    updateToken createCipher JSON_stringify self userId clientId accessToken_
      authContext now w = (Normal tt, w')
    /\ faults w' = []
    /\ redis w'
       = redis (storeToken createCipher JSON_stringify self userId clientId accessToken_
                  authContext now w).2.
Proof.
  intros Hf.
  destruct (storeToken_store self userId clientId accessToken_ authContext now w Hf)
    as (w1 & Hrun & Hf1 & _).
  unfold updateToken, bind. rewrite Hrun. unfold logger.
  eexists. split; [reflexivity|]. now split.
Qed.

(** X23.  [updateToken] replaces the record.  Whatever the reachable store
    held for the user and client, after [updateToken] a read within the new
    time to live, while the new [expiresAt] is ahead of the clock, returns
    the new record and nothing of the old one (the cipher and the JSON text
    being invertible at the new record). *)
Theorem update_then_get_returns_new (self : TokenStorage) (userId clientId : string)
    (newAccessToken : OAuthClient.AccessToken)
    (newAuthContext : AuthMiddleware.AuthContext) (updated_at read_at : Z) (w : World) :
  let record := record_of userId clientId newAccessToken newAuthContext in
  let text := JSON_stringify (StoredToken_value record) in
  let body := createCipher (encryptionKey self) text in
  let updated :=
    updateToken createCipher JSON_stringify self userId clientId newAccessToken
      newAuthContext updated_at w in
  faults w = [] ->
  body <> EmptyString ->
  all_chars no_colon body = true ->
  createDecipher (encryptionKey self) body = Normal text ->
  JSON_parse text = Normal (StoredToken_value record) ->
  read_at < updated_at + ttl_seconds newAuthContext updated_at * 1000 ->
  floor_div read_at 1000 < AuthMiddleware.expiresAt newAuthContext ->
  updated.1 = Normal tt
  /\ (getToken createDecipher JSON_parse self userId clientId read_at updated.2).1
     = Normal (Some record).
Proof.
  intros record text body updated Hf Hbody Hcolon Hdecipher Hparse Hlive Hfresh.
  subst body text.
  destruct (updateToken_store self userId clientId newAccessToken newAuthContext
              updated_at w Hf) as (w' & Hrun & Hf' & Hredis).
  destruct (storeToken_reachable createCipher JSON_stringify self userId clientId
              newAccessToken newAuthContext updated_at w Hf)
    as (w1 & Hstore & _ & Hlookup).
  rewrite Hstore in Hredis. cbn [snd] in Hredis. rewrite <- Hredis in Hlookup.
  subst updated. rewrite Hrun. cbn [fst snd]. split; [reflexivity|].
  rewrite getToken_answer.
  rewrite (stored_blob_reachable _ _ _ _ _ _ Hf' Hlookup).
  apply Z.ltb_lt in Hlive. rewrite Hlive. unfold answer.
  rewrite blob_not_empty. fold record.
  rewrite (read_record_encrypted createCipher createDecipher JSON_stringify JSON_parse
             self w record Hbody Hcolon Hdecipher Hparse).
  assert (Hexp : (expiresAt record <=? floor_div read_at 1000) = false).
  { apply Z.leb_gt. exact Hfresh. }
  now rewrite Hexp.
Qed.

(** *** One user's tokens and another's *)

Lemma storeToken_keeps (self : TokenStorage) (userId clientId : string)
    (accessToken_ : OAuthClient.AccessToken) (authContext : AuthMiddleware.AuthContext)
    (now : Z) (k : string) :
  k <> generateAccessTokenKey userId clientId ->
  k <> generateRefreshTokenKey userId clientId ->
  keeps k (storeToken createCipher JSON_stringify self userId clientId accessToken_
             authContext now).
Proof.
  intros Ha Hr. unfold storeToken.
  apply keeps_try_catch.
  - apply keeps_bind; [apply keeps_lift|]. intros validated.
    apply keeps_bind.
    { unfold encrypt. apply keeps_bind; [apply keeps_randomBytes|]. intros iv.
      apply keeps_ret. }
    intros encryptedData.
    apply keeps_bind; [now apply (keeps_redis_call _ _ _ (SETEX_touches _ _ _ _))|].
    intros _. apply keeps_bind; [|intros _; apply keeps_logger].
    destruct (or_else_empty _);
      [now apply (keeps_redis_call _ _ _ (SETEX_touches _ _ _ _)) | apply keeps_ret].
  - intros e. apply keeps_bind; [apply keeps_logger|]. intros _. apply keeps_throw.
Qed.

Lemma access_key_inj (userId clientId userId' clientId' : string) :
  all_chars no_colon clientId = true -> all_chars no_colon clientId' = true ->
  generateAccessTokenKey userId clientId = generateAccessTokenKey userId' clientId' ->
  userId = userId' /\ clientId = clientId'.
Proof.
  intros Hc Hc' H. unfold generateAccessTokenKey in H.
  apply KeyFacts.append_cancel in H.
  apply KeyFacts.colon_separated_inj in H as [-> ->]; auto.
Qed.

Lemma access_key_not_refresh_key (userId clientId userId' clientId' : string) :
  generateAccessTokenKey userId clientId <> generateRefreshTokenKey userId' clientId'.
Proof.
  unfold generateRefreshTokenKey, generateAccessTokenKey. intros H.
  apply (f_equal (String.get 5)) in H. cbv in H. discriminate H.
Qed.

(** X24.  One user's tokens do not reach another's.  When the client
    identifiers hold no colon, storing a token for one user and client
    leaves what [getToken] returns for a different user or client as it
    would have been without the call. *)
Theorem stored_tokens_are_isolated (self : TokenStorage)
    (userId clientId userId' clientId' : string)
    (accessToken_ : OAuthClient.AccessToken) (authContext : AuthMiddleware.AuthContext)
    (now now' : Z) (fs : list bool) (w : World) :
  all_chars no_colon clientId = true ->
  all_chars no_colon clientId' = true ->
  (userId, clientId) <> (userId', clientId') ->
  let after :=
    (storeToken createCipher JSON_stringify self userId clientId accessToken_ authContext
       now w).2 in
  (getToken createDecipher JSON_parse self userId' clientId' now' (set_faults fs after)).1
  = (getToken createDecipher JSON_parse self userId' clientId' now' (set_faults fs w)).1.
Proof.
  intros Hc Hc' Hne after. rewrite !getToken_answer. do 2 f_equal.
  apply stored_blob_lookup; [reflexivity|]. cbn [redis set_faults].
  apply storeToken_keeps.
  - intros H. apply access_key_inj in H as [-> ->]; auto.
  - apply access_key_not_refresh_key.
Qed.

End WithCryptoAndJSON.

(** *** Samples *)

Import RoundTripSample.

Lemma decrypt_inverts_encrypt_witness :
  exists blob w',
    encrypt toy_cipher storage sample_text empty_store = (Normal blob, w')
    /\ decrypt toy_decipher storage blob = Normal sample_text
    /\ drawn w' = 16%nat
    /\ redis w' = ∅.
Proof.
  apply (decrypt_inverts_encrypt toy_cipher toy_decipher storage sample_text empty_store).
  - discriminate.
  - vm_compute. reflexivity.
  - vm_compute. reflexivity.
Defined.

(** The store after the sample token was stored. *)
Definition sample_store : World :=
  (storeToken toy_cipher toy_stringify storage "u1" "c1" sample_token sample_context
     1700000000000 empty_store).2.

Lemma delete_then_get_is_null_witness :
  (getToken toy_decipher toy_parse storage "u1" "c1" 1700000030000
     (deleteToken storage "u1" "c1" 1700000020000 sample_store).2).1
  = Normal None.
Proof.
  apply (delete_then_get_is_null toy_decipher toy_parse storage "u1" "c1"
           1700000020000 1700000030000 sample_store).
  reflexivity.
Defined.

Lemma storeToken_writes_the_pair_witness :
  (storeToken toy_cipher toy_stringify storage "u1" "c1" sample_token sample_context
     1700000000000 empty_store).1
  = Normal tt.
Proof.
  apply (storeToken_writes_the_pair toy_cipher toy_stringify storage "u1" "c1"
           sample_token sample_context 1700000000000 empty_store).
  reflexivity.
Defined.

(** A token response of an earlier hour, and a JSON printer that tells it
    from the sample one. *)
Definition earlier_token : OAuthClient.AccessToken :=
  {| OAuthClient.access_token := "tok0";
     OAuthClient.token_type := "Bearer";
     OAuthClient.expires_in := 3600;
     OAuthClient.refresh_token := None;
     OAuthClient.scope := None |}.

Definition print_by_token (v : json) : string :=
  match v with
  | JObj (("accessToken", JStr "tok1") :: _) => sample_text
  | _ => "{}"
  end.

Definition earlier_store : World :=
  (storeToken toy_cipher print_by_token storage "u1" "c1" earlier_token sample_context
     1699999000000 empty_store).2.

Lemma update_then_get_returns_new_witness :
  (getToken toy_decipher toy_parse storage "u1" "c1" 1700000030000
     (updateToken toy_cipher print_by_token storage "u1" "c1" sample_token sample_context
        1700000000000 earlier_store).2).1
  = Normal (Some sample_record).
Proof.
  apply (update_then_get_returns_new toy_cipher toy_decipher print_by_token toy_parse
           storage "u1" "c1" sample_token sample_context
           1700000000000 1700000030000 earlier_store).
  - reflexivity.
  - discriminate.
  - vm_compute. reflexivity.
  - vm_compute. reflexivity.
  - vm_compute. reflexivity.
  - vm_compute. reflexivity.
  - vm_compute. reflexivity.
Defined.

Lemma stored_tokens_are_isolated_witness :
  (getToken toy_decipher toy_parse storage "u1" "c1" 1700000030000
     (set_faults []
        (storeToken toy_cipher print_by_token storage "u2" "c1" earlier_token
           sample_context 1700000010000 sample_store).2)).1
  = (getToken toy_decipher toy_parse storage "u1" "c1" 1700000030000
       (set_faults [] sample_store)).1.
Proof.
  apply (stored_tokens_are_isolated toy_cipher toy_decipher print_by_token toy_parse
           storage "u2" "c1" "u1" "c1" earlier_token sample_context
           1700000010000 1700000030000 [] sample_store).
  - reflexivity.
  - reflexivity.
  - discriminate.
Defined.

End TokenStorageEffects.

(** ** OAuthClient: encodings and requests *)

Module OAuthClientFacts.
Import Buffer OAuthClient OAuthClientRequests Base64Facts PKCEFacts ExchangeFacts.

(** *** base64URLEncode *)

(** X25.  [base64URLEncode] is URL-safe and loses nothing.  The encoding of
    [n] bytes has [ceil(4n/3)] characters, each a letter, a digit, [-] or
    [_] (so no [+], [/] or [=] padding), and two buffers of one length with
    one encoding are one buffer. *)
Theorem base64URLEncode_is_url_safe (buffer : list byte) :
  String.length (base64URLEncode buffer) = ((4 * length buffer + 2) / 3)%nat
  /\ all_chars is_base64url (base64URLEncode buffer) = true
  /\ all_chars (fun c => negb (Ascii.eqb c "+") && negb (Ascii.eqb c "/")
                         && negb (Ascii.eqb c "=")) (base64URLEncode buffer) = true
  /\ forall other,
       length other = length buffer ->
       base64URLEncode other = base64URLEncode buffer -> other = buffer.
Proof.
  split; [apply base64URLEncode_length|].
  split; [apply base64URLEncode_alphabet|].
  split.
  - eapply all_chars_impl; [|apply base64URLEncode_alphabet].
    intros c. destruct c as [[] [] [] [] [] [] [] []]; vm_compute; auto.
  - intros other Hlen Heq. now apply base64URLEncode_inj.
Qed.

(** *** The form serializer *)

Lemma serialize_base64url_char (c : ascii) :
  is_base64url c = true ->
  URLSearchParams.serialize_byte (byte_of_ascii c) = String c EmptyString.
Proof.
  destruct c as [[] [] [] [] [] [] [] []]; vm_compute; intros H;
    first [reflexivity | discriminate H].
Qed.

(** A string in the base64url alphabet is serialized as itself. *)
Lemma serialize_base64url (s : string) :
  all_chars is_base64url s = true -> URLSearchParams.serialize s = s.
Proof.
  intros Hs. unfold URLSearchParams.serialize.
  rewrite utf8_ascii by (eapply all_chars_impl; [apply base64url_is_ascii | exact Hs]).
  induction s as [|c s IH]; [reflexivity|].
  cbn [all_chars] in Hs. apply andb_true_iff in Hs as [Hc Hs].
  change (list_byte_of_string (String c s))
    with (byte_of_ascii c :: list_byte_of_string s).
  cbn [URLSearchParams.serialize_bytes].
  rewrite (serialize_base64url_char c Hc), (IH Hs). reflexivity.
Qed.

(** What a serialized name or value is made of: safe bytes, [+] and the
    [%XX] escapes. *)
Definition serialized_char (c : ascii) : bool :=
  URLSearchParams.form_safe c || Ascii.eqb c "+" || Ascii.eqb c "%".

Lemma all_chars_append (p : ascii -> bool) (a b : string) :
  all_chars p (a +:+ b) = all_chars p a && all_chars p b.
Proof.
  induction a as [|c a IH]; [reflexivity|].
  change (all_chars p (String c (a +:+ b)) = all_chars p (String c a) && all_chars p b).
  cbn [all_chars]. now rewrite IH, andb_assoc.
Qed.

Lemma serialize_byte_chars (b : byte) :
  all_chars serialized_char (URLSearchParams.serialize_byte b) = true.
Proof. destruct b; vm_compute; reflexivity. Qed.

Lemma serialize_chars (s : string) :
  all_chars serialized_char (URLSearchParams.serialize s) = true.
Proof.
  unfold URLSearchParams.serialize.
  induction (utf8 s) as [|b bytes IH]; [reflexivity|].
  cbn [URLSearchParams.serialize_bytes].
  now rewrite all_chars_append, serialize_byte_chars, IH.
Qed.

Section WithLibraries.

Variable is_url : string -> bool.

(** *** generateAuthorizationUrl *)

(** X26.  The authorization URL carries the PKCE parameters as they are.
    For a configuration whose redirect URI passes the URL check and a PKCE
    record whose [state] and [code_challenge] are in the base64url alphabet
    (as those of [generatePKCE] are), the URL is the authorization endpoint
    (the configured one, or [<issuerUrl>/oauth2/authorize]), [?], and the
    seven parameters in a fixed order, with [state] and [code_challenge]
    verbatim; the client identifier, redirect URI and scopes are serialized
    into safe characters, [+] and [%XX] only, so that none of them can add
    a parameter. *)
Theorem authorization_url_carries_pkce (self : OAuthClient) (pkce : PKCE) (w : World) :
  is_url (redirectUri (config self)) = true ->
  all_chars is_base64url (state pkce) = true ->
  all_chars is_base64url (code_challenge pkce) = true ->
  let endpoint :=
    default (issuerUrl (config self) +:+ "/oauth2/authorize")
            (or_else_empty (authorizationEndpoint (config self))) in
  let client := URLSearchParams.serialize (clientId (config self)) in
  let redirect := URLSearchParams.serialize (redirectUri (config self)) in
  let scope_ :=
    URLSearchParams.serialize (ArrayPrototype.join " " (scopes (config self))) in
  (generateAuthorizationUrl is_url self pkce w).1
  = Normal (endpoint +:+ "?"
            +:+ ArrayPrototype.join "&"
                  ["response_type=code";
                   "client_id=" +:+ client;
                   "redirect_uri=" +:+ redirect;
                   "scope=" +:+ scope_;
                   "state=" +:+ state pkce;
                   "code_challenge=" +:+ code_challenge pkce;
                   "code_challenge_method="
                   +:+ ChallengeMethod_text (code_challenge_method pkce)])
  /\ all_chars serialized_char client = true
  /\ all_chars serialized_char redirect = true
  /\ all_chars serialized_char scope_ = true
  /\ sent (generateAuthorizationUrl is_url self pkce w).2 = sent w.
Proof.
  intros Hurl Hstate Hchallenge endpoint client redirect scope_.
  split; [|split; [apply serialize_chars|split; [apply serialize_chars|
                    split; [apply serialize_chars|]]]].
  - unfold generateAuthorizationUrl, AuthorizationRequestSchema_parse, bind, lift.
    rewrite Hurl. unfold logger, ret. cbn [fst]. f_equal.
    unfold URLSearchParams.toString. cbn [map fst snd].
    rewrite (serialize_base64url _ Hstate), (serialize_base64url _ Hchallenge).
    assert (Hmethod : URLSearchParams.serialize
                        (ChallengeMethod_text (code_challenge_method pkce))
                      = ChallengeMethod_text (code_challenge_method pkce))
      by now destruct (code_challenge_method pkce).
    rewrite Hmethod. reflexivity.
  - unfold generateAuthorizationUrl, AuthorizationRequestSchema_parse, bind, lift.
    rewrite Hurl. reflexivity.
Qed.

(** *** The token endpoint *)









(** *** exchangeCodeForToken *)



(** *** revokeToken *)



End WithLibraries.

Lemma authorization_url_carries_pkce_witness :
  (generateAuthorizationUrl (fun _ => true) sample_client
     (pkce_of toy_sha256 empty_store) empty_store).1
  = Normal "https://auth.example.com/oauth2/authorize?response_type=code&client_id=financial-data-server&redirect_uri=https%3A%2F%2Fapp.example.com%2Fcallback&scope=read%3Afinancial-data&state=ICEiIyQlJicoKSorLC0uLw&code_challenge=QUFFQ0F3UUZCZ2NJQ1FvTERBME9EeEFSRWhNVUZSWVg&code_challenge_method=S256".
Proof.
  destruct (authorization_url_carries_pkce (fun _ => true) sample_client
              (pkce_of toy_sha256 empty_store) empty_store) as [Hurl _].
  - reflexivity.
  - apply base64URLEncode_alphabet.
  - apply base64URLEncode_alphabet.
  - rewrite Hurl. vm_compute. reflexivity.
Defined.

End OAuthClientFacts.

(** ** Logger: the sanitizer *)

Module LoggerFacts.
Import Logger StringFacts.








End LoggerFacts.
